(** * pyspartn: the SPARTN transport framer and the payload schema registry

    A shallow embedding of the two [SPARTNReader] variants
    (pyspartn/spartnreader.py, the earlier one, module [Early]; and
    src/pyspartn/spartnreader.py, the later one, module [Late]) and of the
    payload schema registry [SPARTN_PAYLOADS_GET]
    (src/pyspartn/spartntypes_get.py, module [Schema]).

    Byte strings are [list byte]; Python integers are [Z]; a reader is a
    state (the unread part of the stream, the messages handed to the error
    handler, and a ghost record of every [bitsval] call) threaded through
    an exception monad. *)

From Stdlib Require Import ZArith NArith List Bool Lia String.
From Stdlib Require Import Strings.Byte.
Import ListNotations.
Local Open Scope Z_scope.

Set Implicit Arguments.

(* ===================================================================== *)
(** ** Bytes and bits *)
(* ===================================================================== *)

Definition bytes := list byte.

Definition byte_val (b : byte) : Z := Z.of_N (Byte.to_N b).

(** [len(b)] *)
Definition len {A : Type} (l : list A) : Z := Z.of_nat (List.length l).

(** The eight bits of a byte, most significant first. *)
Definition byte_bits (b : byte) : list bool :=
  map (Z.testbit (byte_val b)) [7; 6; 5; 4; 3; 2; 1; 0].

Definition bits_of_bytes (bs : bytes) : list bool := flat_map byte_bits bs.

(** Unsigned value of a bit string, most significant bit first. *)
Definition uint_of_bits (bits : list bool) : Z :=
  fold_left (fun acc b => 2 * acc + Z.b2z b) bits 0.

(** [int.from_bytes(bs, "big")] *)
Definition int_from_bytes_big (bs : bytes) : Z :=
  fold_left (fun acc b => 256 * acc + byte_val b) bs 0.

(** [bool(z)] for a Python int *)
Definition truthy (z : Z) : bool := negb (z =? 0).

(** XOR of two bytes, and of a byte string with a mask. *)
Definition byte_xor (a m : byte) : byte :=
  match Byte.of_N (N.lxor (Byte.to_N a) (Byte.to_N m)) with
  | Some c => c
  | None => a
  end.

Fixpoint bytes_xor (a m : bytes) : bytes :=
  match a, m with
  | x :: a', y :: m' => byte_xor x y :: bytes_xor a' m'
  | _, _ => a
  end.

(* ===================================================================== *)
(** ** Exceptions, error texts and the reader monad *)
(* ===================================================================== *)

(** The texts the readers format.  The f-strings interpolate a byte
    string or an integer; the text is kept as its template and argument. *)
Inductive errtext : Type :=
| UnknownProtocolText (byte1 : bytes)      (* f"Unknown protocol {byte1}" *)
| UnknownProtocolDotText (byte1 : bytes)   (* f"Unknown protocol {byte1}." *)
| UnknownHeaderText (byte1 : bytes)        (* f"<UNKNOWN PROTOCOL(header={byte1})>" *)
| InvalidCRCText (crc : Z)                 (* f"Invalid CRC {crc}" *)
| KeyRequiredText                          (* "Key must be provided if decryption is enabled" *)
| OtherText (s : string).

Inductive exn : Type :=
| EOFError
| SPARTNParseError (t : errtext)
| SPARTNMessageError (t : errtext)
| SPARTNTypeError (t : errtext)
| SPARTNStreamError (t : errtext)
| ParameterError (t : errtext)
| UnboundLocalError
| StopIteration
| BitCursorError.   (* the out-of-range failure of [bitsval] *)

(** [str(err)] *)
Definition str (e : exn) : errtext :=
  match e with
  | SPARTNParseError t | SPARTNMessageError t | SPARTNTypeError t
  | SPARTNStreamError t | ParameterError t => t
  | EOFError => OtherText ""
  | UnboundLocalError => OtherText "UnboundLocalError"
  | StopIteration => OtherText ""
  | BitCursorError => OtherText "bitsval: out of range"
  end.

(** One [bitsval] call: length of the buffer in bytes, bit offset, width. *)
Record bitcall := BitCall { bc_buflen : Z; bc_offset : Z; bc_width : Z }.

Definition in_range (c : bitcall) : Prop :=
  bc_offset c + bc_width c <= 8 * bc_buflen c.

(** Where an error text went: [print(err)] or [errorhandler(err)]. *)
Inductive logged : Type :=
| Printed (t : errtext)
| Handled (t : errtext).

Record rstate := RState {
  stream : bytes;             (* the unread part of [self._stream] *)
  bitcalls : list bitcall;    (* ghost: the [bitsval] calls made so far *)
  errlog : list logged        (* what was printed or handed to the handler *)
}.

Inductive outcome (A : Type) : Type :=
| Ret (a : A)
| Raise (e : exn)
| OutOfFuel.
Arguments Raise {A} e.
Arguments OutOfFuel {A}.

Definition M (A : Type) : Type := rstate -> outcome A * rstate.

Definition ret {A} (a : A) : M A := fun s => (Ret a, s).
Definition raise {A} (e : exn) : M A := fun s => (Raise e, s).
Definition bind {A B} (m : M A) (k : A -> M B) : M B :=
  fun s => match m s with
           | (Ret a, s') => k a s'
           | (Raise e, s') => (Raise e, s')
           | (OutOfFuel, s') => (OutOfFuel, s')
           end.

Declare Scope reader_scope.
Delimit Scope reader_scope with reader.
Notation "x <- m ;; k" := (bind m (fun x => k))
  (at level 61, m at next level, right associativity) : reader_scope.
Notation "' pat <- m ;; k" := (bind m (fun x => match x with pat => k end))
  (at level 61, pat pattern, m at next level, right associativity)
  : reader_scope.
Notation "m ;;; k" := (bind m (fun _ => k))
  (at level 61, right associativity) : reader_scope.
Local Open Scope reader_scope.

(** [try: m except ...: h], for the exceptions [h] answers with [Some]. *)
Definition try_except {A} (m : M A) (h : exn -> option (M A)) : M A :=
  fun s => match m s with
           | (Raise e, s') => match h e with
                              | Some k => k s'
                              | None => (Raise e, s')
                              end
           | r => r
           end.

(** [self._stream.read(size)]: up to [size] bytes; a short read empties
    the stream.  Every size the readers ask for is non-negative. *)
Definition stream_read (size : Z) : M bytes :=
  fun s => (Ret (firstn (Z.to_nat size) (stream s)),
            RState (skipn (Z.to_nat size) (stream s)) (bitcalls s) (errlog s)).

(** [_read_bytes], the same in both variants. *)
Definition _read_bytes (size : Z) : M bytes :=
  data <- stream_read size ;;
  if len data <? size then raise EOFError else ret data.

Definition log (l : logged) : M unit :=
  fun s => (Ret tt, RState (stream s) (bitcalls s) (errlog s ++ [l])).

(* ===================================================================== *)
(** ** The bit-cursor *)
(* ===================================================================== *)

(** Modelled from the spec: [bitsval] of pyspartn/spartnhelpers.py, which
    is not among the sources.  "Reads bit_width bits starting at
    bit_offset, MSB-first, across byte boundaries, and returns an unsigned
    integer.  Fails when bit_offset + bit_width exceeds 8 x len(buffer)." *)
Definition bitsval (bitfield : bytes) (position length : Z) : exn + Z :=
  if position + length >? 8 * len bitfield then inl BitCursorError
  else inr (uint_of_bits (firstn (Z.to_nat length)
                            (skipn (Z.to_nat position) (bits_of_bytes bitfield)))).

(** The bits a successful [bitsval] returns. *)
Definition bits (bitfield : bytes) (position length : Z) : Z :=
  uint_of_bits (firstn (Z.to_nat length)
                  (skipn (Z.to_nat position) (bits_of_bytes bitfield))).

(** A [bitsval] call made by a reader: recorded, then evaluated. *)
Definition call_bitsval (bitfield : bytes) (position length : Z) : M Z :=
  fun s =>
    let s' := RState (stream s)
                     (bitcalls s ++ [BitCall (len bitfield) position length])
                     (errlog s) in
    match bitsval bitfield position length with
    | inr v => (Ret v, s')
    | inl e => (Raise e, s')
    end.

(* ===================================================================== *)
(** ** Constants and external collaborators *)
(* ===================================================================== *)

(** Modelled from the spec: the constants of pyspartn/spartntypes_core.py,
    which is not among the sources ("preamble = 0x73"; "validate:
    bit-flags {0, 1=VALCRC}"; "quitonerror: enum {0=ignore, 1=log,
    2=raise}"). *)
Definition SPARTN_PREB : bytes := [x73].
Definition VALNONE : Z := 0.
Definition VALCRC : Z := 1.
Definition ERRLOG : Z := 1.
Definition ERRRAISE : Z := 2.

(** [a == b] on byte strings *)
Fixpoint bytes_eqb (a b : bytes) : bool :=
  match a, b with
  | [], [] => true
  | x :: a', y :: b' => Byte.eqb x y && bytes_eqb a' b'
  | _, _ => false
  end.

(** What the readers call but do not define: the message class
    (pyspartn/spartnmessage.py) and the CRC algorithm behind [valid_crc]
    (pyspartn/spartnhelpers.py). *)
Class Collaborators := {
  SPARTNMessage : Type;
  (* [SPARTNMessage(payload=message)], the earlier constructor call *)
  new_message_payload : bytes -> exn + SPARTNMessage;
  (* [SPARTNMessage(transport=, decrypt=, key=, validate=)], the later one *)
  new_message_transport :
    bytes -> bool -> option string -> Z -> exn + SPARTNMessage;
  (* the CRC of a byte string under the algorithm [crcType] selects *)
  crc_compute : Z -> bytes -> Z
}.

(** Modelled from the spec: [valid_crc] of pyspartn/spartnhelpers.py, which
    is not among the sources.  "The CRC is computed over framestart ++
    payDesc ++ payload ++ embAuth, compared big-endian to the trailing CRC
    bytes." *)
Definition valid_crc `{Collaborators} (msg : bytes) (crc crctype : Z) : bool :=
  crc =? crc_compute crctype msg.

Definition lift_exn {A} (r : exn + A) : M A :=
  match r with
  | inr a => ret a
  | inl e => raise e
  end.

(** The second component of what [read] returns. *)
Inductive parsed `{Collaborators} : Type :=
| Record_ (m : SPARTNMessage)
| Text (t : errtext).


(** What the payload-descriptor stage of [_parse_spartn] leaves in its
    local variables; [None] is a variable that was never assigned. *)
Record payDescInfo := PayDescInfo {
  pd_bytes : bytes;
  pd_timeTagtype : Z;
  pd_authInd : option Z;
  pd_embAuthLen : option Z
}.

(** Reading a local variable. *)
Definition deref {A} (v : option A) : M A :=
  match v with
  | Some a => ret a
  | None => raise UnboundLocalError
  end.

(* ===================================================================== *)
(** ** The earlier reader: pyspartn/spartnreader.py *)
(* ===================================================================== *)

Module Early.
Section Reader.
Context `{Collaborators}.

Record SPARTNReader := { _quitonerror : Z }.

(** [__init__], lines 42-58; the stream is the [stream] of the state. *)
Definition __init__ (quitonerror : option Z) : SPARTNReader :=
  {| _quitonerror := match quitonerror with Some q => q | None => 1 end |}.

(** [parse], lines 226-238 *)
Definition parse (message : bytes) : M SPARTNMessage :=
  lift_exn (new_message_payload message).

(** Lines 126-131: the frame start and its fields
    [(framestart, nData, eaf, crcType)]. *)
Definition pull_framestart : M (bytes * Z * Z * Z) :=
  framestart <- _read_bytes 3 ;;
  msgType <- call_bitsval framestart 0 7 ;;
  nData <- call_bitsval framestart 7 10 ;;
  eaf <- call_bitsval framestart 17 1 ;;
  crcType <- call_bitsval framestart 18 2 ;;
  frameCrc <- call_bitsval framestart 20 4 ;;
  ret (framestart, nData, eaf, crcType).

Definition gtlen (timeTagtype : Z) : Z := if truthy timeTagtype then 32 else 16.
Definition pos (timeTagtype : Z) : Z := if truthy timeTagtype then 37 else 21.
Definition authInd_pos (timeTagtype : Z) : Z := pos timeTagtype + 21.
Definition embAuthLen_pos (timeTagtype : Z) : Z := pos timeTagtype + 24.

(** Lines 133-147: the payload descriptor. *)
Definition pull_payDesc (eaf : Z) : M payDescInfo :=
  let pln := if truthy eaf then 6 else 4 in
  payDesc <- _read_bytes pln ;;
  msgSubtype <- call_bitsval payDesc 0 4 ;;
  timeTagtype <- call_bitsval payDesc 4 1 ;;
  payDesc <- (if truthy timeTagtype
              then extra <- _read_bytes 2 ;; ret (payDesc ++ extra)
              else ret payDesc) ;;
  gnssTimeTag <- call_bitsval payDesc 5 (gtlen timeTagtype) ;;
  if truthy eaf then
    authInd <- call_bitsval payDesc (authInd_pos timeTagtype) 3 ;;
    embAuthLen <- call_bitsval payDesc (embAuthLen_pos timeTagtype) 3 ;;
    ret (PayDescInfo payDesc timeTagtype (Some authInd) (Some embAuthLen))
  else
    ret (PayDescInfo payDesc timeTagtype None None).

(** Line 156 *)
Definition aln (embAuthLen : Z) : Z := (embAuthLen + 1) * 8.

(** Lines 154-157: the embedded authentication data. *)
Definition pull_embAuth (eaf : Z) (authInd embAuthLen : option Z) : M bytes :=
  if truthy eaf then
    a <- deref authInd ;;
    if a >? 1 then
      l <- deref embAuthLen ;;
      _read_bytes (aln l)
    else ret []
  else ret [].

(** [_parse_spartn], lines 114-162 *)
Definition _parse_spartn (preamble : bytes) : M (bytes * SPARTNMessage) :=
  '(framestart, nData, eaf, crcType) <- pull_framestart ;;
  pd <- pull_payDesc eaf ;;
  let payDesc := pd_bytes pd in
  payload <- _read_bytes nData ;;
  embAuth <- pull_embAuth eaf (pd_authInd pd) (pd_embAuthLen pd) ;;
  crc <- _read_bytes (crcType + 1) ;;
  let raw_data := preamble ++ framestart ++ payDesc ++ payload ++ embAuth ++ crc in
  parsed_data <- parse raw_data ;;
  ret (raw_data, parsed_data).

(** The [while parsing] loop of [read], lines 93-107.  Every turn reads
    at least one byte, so the length of the stream bounds the turns. *)
Fixpoint read_loop (self : SPARTNReader) (fuel : nat)
  : M (option bytes * option parsed) :=
  match fuel with
  | O => fun s => (OutOfFuel, s)
  | S fuel' =>
      byte1 <- _read_bytes 1 ;;
      if bytes_eqb byte1 SPARTN_PREB then
        '(raw_data, parsed_data) <- _parse_spartn byte1 ;;
        ret (Some raw_data, Some (Record_ parsed_data))
      else if _quitonerror self =? 2 then
        raise (SPARTNStreamError (UnknownProtocolDotText byte1))
      else if _quitonerror self =? 1 then
        ret (Some byte1, Some (Text (UnknownHeaderText byte1)))
      else read_loop self fuel'
  end.

(** [read], lines 79-112 *)
Definition read (self : SPARTNReader) : M (option bytes * option parsed) :=
  fun s =>
    try_except (read_loop self (S (List.length (stream s))))
      (fun e => match e with
                | EOFError => Some (ret (None, None))
                | _ => None
                end) s.

(** [__next__], lines 65-77 *)
Definition __next__ (self : SPARTNReader) : M (bytes * option parsed) :=
  '(raw_data, parsed_data) <- read self ;;
  match raw_data with
  | Some raw => ret (raw, parsed_data)
  | None => raise StopIteration
  end.

(** What the generator [iterate] does when it is run to its end: the
    items it yields, how it ends, and the state it leaves. *)
Definition generated : Type :=
  list (bytes * option parsed) * outcome unit * rstate.

(** The [while True] loop of [iterate], lines 193-213. *)
Fixpoint iterate_loop (self : SPARTNReader) (quitonerror : Z)
    (errorhandler : bool) (fuel : nat) (s : rstate) : generated :=
  match fuel with
  | O => ([], OutOfFuel, s)
  | S fuel' =>
      match __next__ self s with
      | (Ret item, s') =>
          let '(items, r, s'') :=
            iterate_loop self quitonerror errorhandler fuel' s' in
          (item :: items, r, s'')
      | (Raise StopIteration, s') => ([], Ret tt, s')
      | (Raise (SPARTNMessageError _ as err), s')
      | (Raise (SPARTNParseError _ as err), s')
      | (Raise (SPARTNStreamError _ as err), s') =>
          if quitonerror =? 2 then ([], Raise err, s')
          else
            let s'' := if quitonerror =? 1
                       then snd (log (if errorhandler then Handled (str err)
                                      else Printed (str err)) s')
                       else s' in
            iterate_loop self quitonerror errorhandler fuel' s''
      | (Raise e, s') => ([], Raise e, s')
      | (OutOfFuel, s') => ([], OutOfFuel, s')
      end
  end.

(** [iterate], lines 179-213; [errorhandler] tells whether one was given. *)
Definition iterate (self : SPARTNReader) (quitonerror : option Z)
    (errorhandler : bool) (s : rstate) : generated :=
  let quitonerror := match quitonerror with
                     | Some q => q
                     | None => _quitonerror self
                     end in
  iterate_loop self quitonerror errorhandler (S (List.length (stream s))) s.

End Reader.
End Early.

(* ===================================================================== *)
(** ** The later reader: src/pyspartn/spartnreader.py *)
(* ===================================================================== *)

Module Late.
Section Reader.
Context `{Collaborators}.

Record SPARTNReader := {
  _validate : Z;
  _quitonerror : Z;
  _errorhandler : bool;       (* whether an error handler was given *)
  _decrypt : bool;
  _key : option string
}.

(** The keyword arguments of the constructor; [None] is an argument that
    was not passed.  [key=None] can be passed explicitly. *)
Record kwargs := {
  kw_bufsize : option Z;
  kw_validate : option Z;
  kw_quitonerror : option Z;
  kw_errorhandler : bool;
  kw_decrypt : option bool;
  kw_key : option (option string)
}.

Definition get {A} (kw : option A) (default : A) : A :=
  match kw with
  | Some a => a
  | None => default
  end.

(** [__init__], lines 53-79.  [MQTTKEY] is [getenv("MQTTKEY", None)]; the
    stream is the [stream] of the state, which the constructor stores and
    does not read. *)
Definition __init__ (kw : kwargs) (MQTTKEY : option string) : M SPARTNReader :=
  let validate := get (kw_validate kw) VALCRC in
  let quitonerror := get (kw_quitonerror kw) ERRLOG in
  let errorhandler := kw_errorhandler kw in
  let decrypt := get (kw_decrypt kw) false in
  let key := get (kw_key kw) MQTTKEY in
  if decrypt && (match key with None => true | Some _ => false end)
  then raise (ParameterError KeyRequiredText)
  else ret {| _validate := validate; _quitonerror := quitonerror;
              _errorhandler := errorhandler; _decrypt := decrypt;
              _key := key |}.

(** [parse], lines 246-264 *)
Definition parse (message : bytes) (validate : Z) (decrypt : bool)
    (key : option string) : M SPARTNMessage :=
  lift_exn (new_message_transport message decrypt key validate).

(** Lines 149-153: the frame start and its fields
    [(framestart, nData, eaf, crcType)]. *)
Definition pull_framestart : M (bytes * Z * Z * Z) :=
  framestart <- _read_bytes 3 ;;
  nData <- call_bitsval framestart 7 10 ;;
  eaf <- call_bitsval framestart 17 1 ;;
  crcType <- call_bitsval framestart 18 2 ;;
  ret (framestart, nData, eaf, crcType).

Definition gtlen (timeTagtype : Z) : Z := if truthy timeTagtype then 32 else 16.
Definition authInd_pos (timeTagtype : Z) : Z := gtlen timeTagtype + 26.
Definition embAuthLen_pos (timeTagtype : Z) : Z := gtlen timeTagtype + 29.

(** Lines 156-171: the payload descriptor. *)
Definition pull_payDesc (eaf : Z) : M payDescInfo :=
  payDesc <- _read_bytes 4 ;;
  timeTagtype <- call_bitsval payDesc 4 1 ;;
  payDesc <- (if truthy timeTagtype
              then extra <- _read_bytes 2 ;; ret (payDesc ++ extra)
              else ret payDesc) ;;
  let authInd := 0 in
  if truthy eaf then
    extra <- _read_bytes 2 ;;
    let payDesc := payDesc ++ extra in
    authInd <- call_bitsval payDesc (authInd_pos timeTagtype) 3 ;;
    embAuthLen <- call_bitsval payDesc (embAuthLen_pos timeTagtype) 3 ;;
    ret (PayDescInfo payDesc timeTagtype (Some authInd) (Some embAuthLen))
  else
    ret (PayDescInfo payDesc timeTagtype (Some authInd) None).

(** Lines 175-186 *)
Definition aln (embAuthLen : Z) : Z :=
  if embAuthLen =? 0 then 8
  else if embAuthLen =? 1 then 12
  else if embAuthLen =? 2 then 16
  else if embAuthLen =? 3 then 32
  else if embAuthLen =? 4 then 64
  else 0.

(** Lines 173-187: the embedded authentication data. *)
Definition pull_embAuth (authInd embAuthLen : option Z) : M bytes :=
  a <- deref authInd ;;
  if a >? 1 then
    l <- deref embAuthLen ;;
    _read_bytes (aln l)
  else ret [].

(** [_parse_spartn], lines 137-201 *)
Definition _parse_spartn (self : SPARTNReader) (preamble : bytes)
  : M (bytes * SPARTNMessage) :=
  '(framestart, nData, eaf, crcType) <- pull_framestart ;;
  pd <- pull_payDesc eaf ;;
  let payDesc := pd_bytes pd in
  payload <- _read_bytes nData ;;
  embAuth <- pull_embAuth (pd_authInd pd) (pd_embAuthLen pd) ;;
  crcb <- _read_bytes (crcType + 1) ;;
  let crc := int_from_bytes_big crcb in
  let core := framestart ++ payDesc ++ payload ++ embAuth in
  let raw_data := preamble ++ core ++ crcb in
  (if truthy (Z.land (_validate self) VALCRC)
   then if negb (valid_crc core crc crcType)
        then raise (SPARTNParseError (InvalidCRCText crc))
        else ret tt
   else ret tt) ;;;
  parsed_data <- parse raw_data (_validate self) (_decrypt self) (_key self) ;;
  ret (raw_data, parsed_data).

(** [_do_error], lines 218-233 *)
Definition _do_error (self : SPARTNReader) (err : errtext) : M unit :=
  if _quitonerror self =? ERRRAISE then raise (SPARTNParseError err)
  else if _quitonerror self =? ERRLOG then
    if _errorhandler self then log (Handled err) else log (Printed err)
  else ret tt.

(** Lines 121-126: the body of the [try] statement in the loop of [read]. *)
Definition read_try (self : SPARTNReader) : M (option bytes * option parsed) :=
  byte1 <- _read_bytes 1 ;;
  if negb (bytes_eqb byte1 SPARTN_PREB)
  then raise (SPARTNParseError (UnknownProtocolText byte1))
  else
    '(raw_data, parsed_data) <- _parse_spartn self byte1 ;;
    (* parsing = False; then line 135 *)
    ret (Some raw_data, Some (Record_ parsed_data)).

(** The [while parsing] loop of [read], lines 117-133, with its local
    variables [raw_data] and [parsed_data].  Every turn reads at least
    one byte, so the length of the stream bounds the turns. *)
Fixpoint read_loop (self : SPARTNReader) (fuel : nat)
    (raw_data : option bytes) (parsed_data : option parsed)
  : M (option bytes * option parsed) :=
  match fuel with
  | O => fun s => (OutOfFuel, s)
  | S fuel' =>
      let raw_data : option bytes := None in
      let parsed_data : option parsed := None in
      try_except (read_try self)
        (fun err =>
           match err with
           | EOFError => Some (ret (None, None))
           | SPARTNParseError _ | SPARTNMessageError _ | SPARTNTypeError _ =>
               Some ((if truthy (_quitonerror self)
                      then _do_error self (str err)
                      else ret tt) ;;;
                     let parsed_data := Some (Text (str err)) in
                     read_loop self fuel' raw_data parsed_data)
           | _ => None
           end)
  end.

(** [read], lines 100-135 *)
Definition read (self : SPARTNReader) : M (option bytes * option parsed) :=
  fun s => read_loop self (S (List.length (stream s))) None None s.

(** [__next__], lines 86-98 *)
Definition __next__ (self : SPARTNReader)
  : M (option bytes * option parsed) :=
  '(raw_data, parsed_data) <- read self ;;
  match raw_data, parsed_data with
  | None, None => raise StopIteration
  | _, _ => ret (raw_data, parsed_data)
  end.

(** [__iter__], lines 81-84 *)
Definition __iter__ (self : SPARTNReader) : SPARTNReader := self.

(** Iterating the reader ([for item in reader]): [__next__] until
    [StopIteration]; any other exception ends the iteration. *)
Definition generated : Type :=
  list (option bytes * option parsed) * outcome unit * rstate.

Fixpoint for_loop (self : SPARTNReader) (fuel : nat) (s : rstate)
  : generated :=
  match fuel with
  | O => ([], OutOfFuel, s)
  | S fuel' =>
      match __next__ (__iter__ self) s with
      | (Ret item, s') =>
          let '(items, r, s'') := for_loop self fuel' s' in
          (item :: items, r, s'')
      | (Raise StopIteration, s') => ([], Ret tt, s')
      | (Raise e, s') => ([], Raise e, s')
      | (OutOfFuel, s') => ([], OutOfFuel, s')
      end
  end.

Definition iterating (self : SPARTNReader) (s : rstate) : generated :=
  for_loop self (S (List.length (stream s))) s.

End Reader.
End Late.

(* ===================================================================== *)
(** ** The layout of a transport frame *)
(* ===================================================================== *)

(** The parts of a frame after the preamble. *)
Record frame := Frame {
  f_framestart : bytes;
  f_payDesc : bytes;
  f_payload : bytes;
  f_embAuth : bytes;
  f_crcb : bytes
}.

Definition frame_core (f : frame) : bytes :=
  f_framestart f ++ f_payDesc f ++ f_payload f ++ f_embAuth f.

(** The frame on the wire. *)
Definition frame_bytes (f : frame) : bytes :=
  SPARTN_PREB ++ frame_core f ++ f_crcb f.

(** What follows the preamble. *)
Definition frame_body (f : frame) : bytes := frame_core f ++ f_crcb f.

Definition f_nData (f : frame) : Z := bits (f_framestart f) 7 10.
Definition f_eaf (f : frame) : Z := bits (f_framestart f) 17 1.
Definition f_crcType (f : frame) : Z := bits (f_framestart f) 18 2.
Definition f_timeTagtype (f : frame) : Z := bits (f_payDesc f) 4 1.
Definition f_authInd (f : frame) : Z :=
  bits (f_payDesc f) (Late.authInd_pos (f_timeTagtype f)) 3.
Definition f_embAuthLen (f : frame) : Z :=
  bits (f_payDesc f) (Late.embAuthLen_pos (f_timeTagtype f)) 3.

(** "4 bytes baseline; +2 if timeTagtype=1; +2 more if eaf=1" *)
Definition payDesc_len (eaf timeTagtype : Z) : Z :=
  4 + (if truthy timeTagtype then 2 else 0) + (if truthy eaf then 2 else 0).

(** The length of the embedded authentication data of a frame, under a
    given reading [aln] of the [embAuthLen] field. *)
Definition embAuth_len (aln : Z -> Z) (f : frame) : Z :=
  if truthy (f_eaf f) && (f_authInd f >? 1) then aln (f_embAuthLen f) else 0.

(** A frame whose parts have the lengths its header announces. *)
Record well_formed (aln : Z -> Z) (f : frame) : Prop := {
  wf_framestart : len (f_framestart f) = 3;
  wf_payDesc : len (f_payDesc f) = payDesc_len (f_eaf f) (f_timeTagtype f);
  wf_payload : len (f_payload f) = f_nData f;
  wf_embAuth : len (f_embAuth f) = embAuth_len aln f;
  wf_crcb : len (f_crcb f) = f_crcType f + 1
}.

(** The table of the embedded authentication lengths of the format:
    [embAuthLen] 0, 1, 2, 3, 4, other gives 8, 12, 16, 32, 64, 0 bytes. *)
Definition embAuth_table (embAuthLen : Z) : Z :=
  match embAuthLen with
  | 0 => 8
  | 1 => 12
  | 2 => 16
  | 3 => 32
  | 4 => 64
  | _ => 0
  end.

(** The trailing bytes of a frame are the CRC of its core. *)
Definition crc_ok `{Collaborators} (f : frame) : Prop :=
  int_from_bytes_big (f_crcb f) = crc_compute (f_crcType f) (frame_core f).

(** A frame with its CRC bytes flipped by a mask. *)
Definition flip_crc (f : frame) (mask : bytes) : frame :=
  Frame (f_framestart f) (f_payDesc f) (f_payload f) (f_embAuth f)
        (bytes_xor (f_crcb f) mask).


(** A valid frame for the later reader [self]: laid out by the table, with
    a CRC that passes when it is checked, and a payload the message class
    accepts. *)
Record valid_late `{Collaborators} (self : Late.SPARTNReader) (f : frame)
    (m : SPARTNMessage) : Prop := {
  vl_wf : well_formed embAuth_table f;
  vl_crc : truthy (Z.land (Late._validate self) VALCRC) = true -> crc_ok f;
  vl_msg : new_message_transport (frame_bytes f) (Late._decrypt self)
             (Late._key self) (Late._validate self) = inr m
}.

(** A valid frame as the earlier reader delimits it. *)
Record valid_early `{Collaborators} (f : frame) (m : SPARTNMessage) : Prop := {
  ve_wf : well_formed Early.aln f;
  ve_msg : new_message_payload (frame_bytes f) = inr m
}.

(* ===================================================================== *)
(** ** The payload schema registry: src/pyspartn/spartntypes_get.py *)
(* ===================================================================== *)

Module Schema.
Local Open Scope string_scope.

(** The predicate of a conditional block: [(fieldId, value)] or
    [(fieldId, [values])]. *)
Inductive predicate : Type :=
| Equals (fieldId : string) (value : Z)
| OneOf (fieldId : string) (values : list Z).

(** The count source of a repeating group: a string (a field identifier
    or the token [NSAT]) or the pair [(fieldId, NB)]. *)
Inductive count_source : Type :=
| Name (s : string)
| Bits (fieldId : string).

Set Warnings "-register-all".

(** A value of a schema dictionary: the description of a plain field, a
    conditional block or a repeating group.  A dictionary keeps its keys
    in the order they were inserted. *)
Inductive entry : Type :=
| Field (description : string)
| Opt (p : predicate) (sub : list (string * entry))
| Group (c : count_source) (sub : list (string * entry)).

Definition schema : Type := list (string * entry).

(** The parts of a dictionary display: [key: value] and [**d]. *)
Inductive item : Type :=
| KV (k : string) (v : entry)
| Splat (d : schema).

(** [d[k] = v]: an existing key keeps its place. *)
Fixpoint dict_set (k : string) (v : entry) (d : schema) : schema :=
  match d with
  | [] => [(k, v)]
  | (k', v') :: d' =>
      if String.eqb k k' then (k, v) :: d' else (k', v') :: dict_set k v d'
  end.

(** [{item, ...}] *)
Definition dict (items : list item) : schema :=
  fold_left
    (fun d it =>
       match it with
       | KV k v => dict_set k v d
       | Splat d' => fold_left (fun d kv => dict_set (fst kv) (snd kv) d) d' d
       end)
    items [].

Definition F (k description : string) : item := KV k (Field description).

(** Modelled from the spec: the tokens of pyspartn/spartntypes_core.py,
    which is not among the sources ("a constant meta-token NSAT"; "a
    sentinel NSATMASK, NPHABIASMASK, NCODBIASMASK in the parent dictates
    the bit-length of the immediately following mask field"; "(fieldId,
    NB)", modelled by [Bits]). *)
Definition NSAT : string := "NSAT".
Definition NSATMASK : string := "NSATMASK".
Definition NPHABIASMASK : string := "NPHABIASMASK".
Definition NCODBIASMASK : string := "NCODBIASMASK".

Definition OCB_HDR : schema := dict [
  F "SF005" "Solution issue of update (SIOU)";
  F "SF010" "End of set";
  F "SF069" "Reserved";
  F "SF008" "Yaw present flag";
  F "SF009" "Satellite reference datum" ].

Definition HPAC_HDR : schema := dict [
  F "SF005" "Solution issue of update (SIOU)";
  F "SF068" "Area issue of update (AIOU)";
  F "SF069" "Reserved";
  F "SF030" "Area count" ].

Definition ORBCLK_BLOCK : schema := dict [
  F "SF020R" "Orbit radial correction";
  F "SF020A" "Orbit along-track correction";
  F "SF020C" "Orbit cross-track correction";
  F "SF021" "Satellite yaw";
  F "SF022" "IODE continuity";
  F "SF020" "Clock correction";
  F "SF024" "User range error" ].

Definition PHAS_BIAS_BLOCK : schema := dict [
  F "SF023" "Fix flag";
  F "SF015" "Continuity indicator";
  F "SF020PB" "Phase bias correction" ].

Definition AREA_DATA_BLOCK : schema := dict [
  F "SF031" "Area ID";
  F "SF039" "Number of grid points present";
  F "SF040T" "Tropo blocks indicator";
  F "SF040i" "Iono blocks indicator" ].

Definition TROP_DATA_BLOCK : schema := dict [
  KV "optSF040T-12" (Opt (OneOf "SF040T" [1; 2]) (dict [
    F "SF041" "Troposhere equation type";
    F "SF042" "Troposphere quality";
    F "SF043" "Area average vertical hydrostatic delay";
    F "SF044" "Troposphere polynomial coefficient size indicator";
    KV "optSF044-0" (Opt (Equals "SF044" 0) (dict [
      F "SF045" "Troposphere coefficient T00";
      KV "optSF041-12" (Opt (OneOf "SF041" [1; 2]) (dict [
        F "SF046a" "Troposphere coefficient T01";
        F "SF046b" "Troposphere coefficient T10" ]));
      KV "optSF041-2" (Opt (Equals "SF041" 2) (dict [
        F "SF047" "Troposphere coefficient T11" ])) ]));
    KV "optSF044-1" (Opt (Equals "SF044" 1) (dict [
      F "SF048" "Troposphere coefficient T00";
      KV "optSF041-12" (Opt (OneOf "SF041" [1; 2]) (dict [
        F "SF049a" "Troposphere coefficient T01";
        F "SF049b" "Troposphere coefficient T10" ]));
      KV "optSF041-2" (Opt (Equals "SF041" 2) (dict [
        F "SF050" "Troposphere coefficient T11" ])) ])) ]));
  KV "optSF040T-2" (Opt (Equals "SF040T" 2) (dict [
    F "SF051" "Troposphere residual field size";
    KV "optSF051-0" (Opt (Equals "SF051" 0) (dict [
      F "SF052" "Troposphere grid residuals" ]));
    KV "optSF051-1" (Opt (Equals "SF051" 1) (dict [
      F "SF053" "Troposphere grid residuals" ])) ])) ].

Definition ION_SAT_BLOCK : schema := dict [
  KV "optSF040I-12" (Opt (OneOf "SF041I" [1; 2]) (dict [
    F "SF055" "Ionosphere quality";
    F "SF056" "Ionosphere polynomial coefficient size indicator";
    KV "optSF064-0" (Opt (Equals "SF056" 0) (dict [
      F "SF057" "Ionosphere coefficient C00";
      KV "optSF054-12" (Opt (OneOf "SF054" [1; 2]) (dict [
        F "SF058a" "Ionosphere coefficient C01";
        F "SF058b" "Ionosphere coefficient C10" ]));
      KV "optSF054-2" (Opt (Equals "SF054" 2) (dict [
        F "SF059" "Ionosphere coefficient C11" ])) ]));
    KV "optSF056-1" (Opt (Equals "SF056" 1) (dict [
      F "SF060" "Ionosphere coefficient C00";
      KV "optSF054-12" (Opt (OneOf "SF045" [1; 2]) (dict [
        F "SF061a" "Ionosphere coefficient C01";
        F "SF061b" "Ionosphere coefficient C10" ]));
      KV "optSF054-2" (Opt (Equals "SF054" 2) (dict [
        F "SF062" "Ionosphere coefficient C11" ])) ])) ]));
  KV "optSF040I-2" (Opt (Equals "SF041I" 2) (dict [
    F "SF063" "Ionosphere residual field size";
    KV "optSF063-0" (Opt (Equals "SF063" 0) (dict [
      F "SF064" "Ionosphere grid residuals" ]));
    KV "optSF063-1" (Opt (Equals "SF063" 1) (dict [
      F "SF065" "Ionosphere grid residuals" ]));
    KV "optSF063-2" (Opt (Equals "SF063" 2) (dict [
      F "SF066" "Ionosphere grid residuals" ]));
    KV "optSF063-3" (Opt (Equals "SF063" 3) (dict [
      F "SF067" "Ionosphere grid residuals" ])) ])) ].

(** The five OCB schemas differ in seven identifiers and their texts. *)
Definition OCB_GPS : schema := dict [
  Splat OCB_HDR;
  F "SF016" "GPS Ephemeris type";
  F NSATMASK "Satellite mask length";
  F "SF011" "GPS Satellite mask";
  KV "groupSat" (Group (Name NSAT) (dict [
    F "SF013" "Do not use (DNU)";
    F "SF014" "OCB present flags";
    F "SF015" "Continuity indicator";
    F "SF018" "GPS IODE";
    Splat ORBCLK_BLOCK;
    F NPHABIASMASK "Phase bias mask length";
    F "SF025" "GPS phase bias mask";
    KV "groupSF025-BITS" (Group (Bits "SF025") (dict [
      Splat PHAS_BIAS_BLOCK ]));
    F NCODBIASMASK "Code bias mask length";
    F "SF027" "GPS code bias mask";
    KV "groupSF027-BITS" (Group (Bits "SF027") (dict [
      F "SF029" "Code bias correction" ])) ])) ].

Definition OCB_GLO : schema := dict [
  Splat OCB_HDR;
  F "SF017" "GLO Ephemeris type";
  F NSATMASK "Satellite mask length";
  F "SF012" "GLO Satellite mask";
  KV "groupSat" (Group (Name NSAT) (dict [
    F "SF013" "Do not use (DNU)";
    F "SF014" "OCB present flags";
    F "SF015" "Continuity indicator";
    F "SF019" "GLONASS IODE";
    Splat ORBCLK_BLOCK;
    F NPHABIASMASK "Phase bias mask length";
    F "SF026" "GLONASS phase bias mask";
    KV "groupSF026-BITS" (Group (Bits "SF026") (dict [
      Splat PHAS_BIAS_BLOCK ]));
    F NCODBIASMASK "Code bias mask length";
    F "SF028" "GLONASScode bias mask";
    KV "groupSF028-BITS" (Group (Bits "SF028") (dict [
      F "SF029" "Code bias correction" ])) ])) ].

Definition OCB_GAL : schema := dict [
  Splat OCB_HDR;
  F "SF096" "GALILEO Ephemeris type";
  F NSATMASK "Satellite mask length";
  F "SF093" "GALILEO Satellite mask";
  KV "groupSat" (Group (Name NSAT) (dict [
    F "SF013" "Do not use (DNU)";
    F "SF014" "OCB present flags";
    F "SF015" "Continuity indicator";
    F "SF099" "GALILEO IODE";
    Splat ORBCLK_BLOCK;
    F NPHABIASMASK "Phase bias mask length";
    F "SF0102" "GALILEO phase bias mask";
    KV "groupSF102-BITS" (Group (Bits "SF102") (dict [
      Splat PHAS_BIAS_BLOCK ]));
    F NCODBIASMASK "Code bias mask length";
    F "SF0105" "GALILEO code bias mask";
    KV "groupSF105-BITS" (Group (Bits "SF105") (dict [
      F "SF029" "Code bias correction" ])) ])) ].

Definition OCB_BEI : schema := dict [
  Splat OCB_HDR;
  F "SF097" "BEIDOU Ephemeris type";
  F NSATMASK "Satellite mask length";
  F "SF094" "BEIDOU Satellite mask";
  KV "groupSat" (Group (Name NSAT) (dict [
    F "SF013" "Do not use (DNU)";
    F "SF014" "OCB present flags";
    F "SF015" "Continuity indicator";
    F "SF0100" "BEIDOU IODE";
    Splat ORBCLK_BLOCK;
    F NPHABIASMASK "Phase bias mask length";
    F "SF0103" "BEIDOU phase bias mask";
    KV "groupSF103-BITS" (Group (Bits "SF103") (dict [
      Splat PHAS_BIAS_BLOCK ]));
    F NCODBIASMASK "Code bias mask length";
    F "SF0106" "BEIDOU code bias mask";
    KV "groupSF106-BITS" (Group (Bits "SF106") (dict [
      F "SF029" "Code bias correction" ])) ])) ].

Definition OCB_QZS : schema := dict [
  Splat OCB_HDR;
  F "SF098" "QZSS Ephemeris type";
  F NSATMASK "Satellite mask length";
  F "SF095" "QZSS Satellite mask";
  KV "groupSat" (Group (Name NSAT) (dict [
    F "SF013" "Do not use (DNU)";
    F "SF014" "OCB present flags";
    F "SF015" "Continuity indicator";
    F "SF0101" "QZSS IODE";
    Splat ORBCLK_BLOCK;
    F NPHABIASMASK "Phase bias mask length";
    F "SF0104" "QZSS phase bias mask";
    KV "groupSF104-BITS" (Group (Bits "SF104") (dict [
      Splat PHAS_BIAS_BLOCK ]));
    F NCODBIASMASK "Code bias mask length";
    F "SF0107" "QZSS code bias mask";
    KV "groupSF107-BITS" (Group (Bits "SF107") (dict [
      F "SF029" "Code bias correction" ])) ])) ].

(** The five HPAC schemas differ in the satellite mask: its identifier,
    its text and the key of its group. *)
Definition HPAC (mask description group : string) : schema := dict [
  Splat HPAC_HDR;
  KV "groupAtm" (Group (Name "SF030") (dict [
    Splat AREA_DATA_BLOCK;
    Splat TROP_DATA_BLOCK;
    KV "optSF040I-12" (Opt (OneOf "SF040I" [1; 2]) (dict [
      F "SF054" "Ionosphere equation type";
      F mask description;
      KV group (Group (Name NSAT) (dict [
        Splat ION_SAT_BLOCK ])) ])) ])) ].

Definition GAD : schema := dict [
  F "SF005" "Solution issue of updated (SIOU)";
  F "SF068" "Area issue of update (AIOU)";
  F "SF069" "Reserved";
  F "SF030" "Area Count";
  KV "group" (Group (Name "SF030") (dict [
    F "SF031" "Area ID";
    F "SF032" "Area reference latitude";
    F "SF033" "Area reference longitude";
    F "SF034" "Are latitude grid node count";
    F "SF035" "Area longitude grid node count";
    F "SF036" "Area latitude grid node spacing";
    F "SF037" "Area longitude grid node spacing" ])) ].

(** [SPARTN_PAYLOADS_GET], lines 197-512 *)
Definition SPARTN_PAYLOADS_GET : list (string * schema) := [
  ("SPARTN-1X-OCB-GPS", OCB_GPS);
  ("SPARTN-1X-OCB-GLO", OCB_GLO);
  ("SPARTN-1X-OCB-GAL", OCB_GAL);
  ("SPARTN-1X-OCB-BEI", OCB_BEI);
  ("SPARTN-1X-OCB-QZS", OCB_QZS);
  ("SPARTN-1X-HPAC-GPS", HPAC "SF011" "GPS Satellite mask" "groupSF011");
  ("SPARTN-1X-HPAC-GLO", HPAC "SF012" "GLONASS Satellite mask" "groupSF012");
  ("SPARTN-1X-HPAC-GAL", HPAC "SF093" "GALILEO Satellite mask" "groupSF093");
  ("SPARTN-1X-HPAC-BEI", HPAC "SF094" "BEIDOU Satellite mask" "groupSF094");
  ("SPARTN-1X-HPAC-QZS", HPAC "SF095" "QZSS Satellite mask" "groupSF095");
  ("SPARTN-1X-GAD", GAD);
  ("SPARTN-1X-BPAC", dict []);
  ("SPARTN-1X-EAS-DYN", dict []);
  ("SPARTN-1X-EAS-GRP", dict []) ].

(** *** The scoping of predicates and counts *)

Local Open Scope list_scope.

Definition mem (s : string) (l : list string) : bool :=
  existsb (String.eqb s) l.

(** The field a conditional or a group refers to, if it names one that
    must have been decoded: the field of a predicate, the field of a
    [(fieldId, NB)] count. *)
Definition referenced (e : entry) : option string :=
  match e with
  | Field _ => None
  | Opt (Equals f _) _ | Opt (OneOf f _) _ => Some f
  | Group (Bits f) _ => Some f
  | Group (Name _) _ => None
  end.

(** One reference that is out of scope: the key of the block and the
    identifier it names. *)
Definition violation : Type := string * string.

Definition check (k : string) (e : entry) (seen : list string)
  : list violation :=
  match referenced e with
  | Some f => if mem f seen then [] else [(k, f)]
  | None => []
  end.

(** The references of a dictionary that do not name a plain field key
    standing earlier in the same dictionary. *)
Fixpoint scope_violations_entry (e : entry) : list violation :=
  let walk :=
    fix walk (seen : list string) (d : list (string * entry))
      : list violation :=
      match d with
      | [] => []
      | (k, e') :: d' =>
          check k e' seen ++ scope_violations_entry e'
            ++ walk (match e' with Field _ => k :: seen | _ => seen end) d'
      end in
  match e with
  | Field _ => []
  | Opt _ sub | Group _ sub => walk [] sub
  end.

Definition scope_violations (d : schema) : list violation :=
  scope_violations_entry (Group (Name "") d).

(** The weakest reading: the references that name no plain field key
    standing anywhere earlier in the schema, whatever the nesting.  The
    walk returns the violations and the field keys met so far. *)
Fixpoint order_violations_entry (k : string) (e : entry) (seen : list string)
  : list violation * list string :=
  let walk :=
    fix walk (seen : list string) (d : list (string * entry))
      : list violation * list string :=
      match d with
      | [] => ([], seen)
      | (k', e') :: d' =>
          let '(v1, seen1) := order_violations_entry k' e' seen in
          let '(v2, seen2) := walk seen1 d' in
          (v1 ++ v2, seen2)
      end in
  match e with
  | Field _ => ([], k :: seen)
  | Opt _ sub | Group _ sub =>
      let '(v, seen') := walk seen sub in
      (check k e seen ++ v, seen')
  end.

Definition order_violations (d : schema) : list violation :=
  fst (order_violations_entry "" (Group (Name "") d) []).

(** The invariant over the registry, under each reading. *)
Definition registry_scoped : bool :=
  forallb (fun nd => match scope_violations (snd nd) with
                     | [] => true
                     | _ => false
                     end) SPARTN_PAYLOADS_GET.

Definition registry_ordered : bool :=
  forallb (fun nd => match order_violations (snd nd) with
                     | [] => true
                     | _ => false
                     end) SPARTN_PAYLOADS_GET.

End Schema.

(* ===================================================================== *)
(** ** Judgments on runs of the readers *)
(* ===================================================================== *)

(** [m], started on the stream [st] with the log [el], ends with [r] and
    leaves [st'] and [el'], whatever [bitsval] calls were recorded. *)
Definition runs {A} (m : M A) (st : bytes) (el : list logged)
    (r : outcome A) (st' : bytes) (el' : list logged) : Prop :=
  forall bc, exists bc', m (RState st bc el) = (r, RState st' bc' el').

(** The same for a run of an iteration. *)
Definition generates {I} (g : rstate -> list I * outcome unit * rstate)
    (st : bytes) (el : list logged)
    (items : list I) (r : outcome unit) (st' : bytes) (el' : list logged)
  : Prop :=
  forall bc, exists bc', g (RState st bc el) = (items, r, RState st' bc' el').

(** A [bitsval] call as the framing makes them: within its buffer, which
    is the 3-byte frame start or the 4-, 6- or 8-byte payload descriptor. *)
Definition framing_call (c : bitcall) : Prop :=
  in_range c /\ In (bc_buflen c) [3; 4; 6; 8].

(** The call does not take the failure branch of [bitsval]. *)
Definition call_succeeds (c : bitcall) : Prop :=
  forall b : bytes, len b = bc_buflen c ->
    bitsval b (bc_offset c) (bc_width c) = inr (bits b (bc_offset c) (bc_width c)).

(** What holds of every run of a framing stage [m], on any stream: the
    [bitsval] calls it adds are framing calls, it only consumes the stream,
    it logs nothing, it ends, and its result satisfies [Q]. *)
Definition keeps_in_range {A} (m : M A) (Q : A -> Prop) : Prop :=
  forall s,
    (exists calls, bitcalls (snd (m s)) = bitcalls s ++ calls /\
                   Forall framing_call calls) /\
    (List.length (stream (snd (m s))) <= List.length (stream s))%nat /\
    errlog (snd (m s)) = errlog s /\
    fst (m s) <> OutOfFuel /\
    match fst (m s) with
    | Ret a => Q a
    | _ => True
    end.

(** What the payload-descriptor stage comes to on a stream: the
    descriptor and the rest of the stream, or nothing when the stream is
    too short for the length the header bits announce. *)
Definition payDesc_split (eaf : Z) (st : bytes) : option (bytes * bytes) :=
  if len st <? 4 then None
  else
    let n := payDesc_len eaf (bits st 4 1) in
    if len st <? n then None
    else Some (firstn (Z.to_nat n) st, skipn (Z.to_nat n) st).

(** The local variables after the stage; [a0] is [authInd] when the frame
    is not encrypted. *)
Definition payDesc_info (a0 : option Z) (eaf : Z) (pd : bytes) : payDescInfo :=
  let timeTagtype := bits pd 4 1 in
  PayDescInfo pd timeTagtype
    (if truthy eaf then Some (bits pd (Late.authInd_pos timeTagtype) 3) else a0)
    (if truthy eaf then Some (bits pd (Late.embAuthLen_pos timeTagtype) 3)
     else None).

Definition payDesc_result (a0 : option Z) (eaf : Z) (st : bytes)
  : outcome payDescInfo :=
  match payDesc_split eaf st with
  | Some (pd, _) => Ret (payDesc_info a0 eaf pd)
  | None => Raise EOFError
  end.

Definition payDesc_rest (eaf : Z) (st : bytes) : bytes :=
  match payDesc_split eaf st with
  | Some (_, rest) => rest
  | None => []
  end.

(** What [_parse_spartn] makes of a well-formed frame once it is read:
    the CRC check when it is enabled, then the message class. *)
Definition late_frame_outcome `{Collaborators} (self : Late.SPARTNReader)
    (f : frame) : outcome (bytes * SPARTNMessage) :=
  let crc := int_from_bytes_big (f_crcb f) in
  if truthy (Z.land (Late._validate self) VALCRC)
     && negb (valid_crc (frame_core f) crc (f_crcType f))
  then Raise (SPARTNParseError (InvalidCRCText crc))
  else match new_message_transport (frame_bytes f) (Late._decrypt self)
               (Late._key self) (Late._validate self) with
       | inr m => Ret (frame_bytes f, m)
       | inl e => Raise e
       end.

Definition early_frame_outcome `{Collaborators} (f : frame)
  : outcome (bytes * SPARTNMessage) :=
  match new_message_payload (frame_bytes f) with
  | inr m => Ret (frame_bytes f, m)
  | inl e => Raise e
  end.

(** What the later reader logs for an error text it does not raise. *)
Definition late_logged (self : Late.SPARTNReader) (t : errtext)
  : list logged :=
  if Late._quitonerror self =? ERRLOG
  then [if Late._errorhandler self then Handled t else Printed t]
  else [].

(** The exceptions the [except] clause of the later [read] handles. *)
Definition late_caught (e : exn) : bool :=
  match e with
  | SPARTNParseError _ | SPARTNMessageError _ | SPARTNTypeError _ => true
  | _ => false
  end.

(* ===================================================================== *)
(** ** An instance of the collaborators, and sample frames *)
(* ===================================================================== *)

(** Modelled from the spec: the CRC algorithms of section 4.2, which
    [valid_crc] of pyspartn/spartnhelpers.py (not among the sources)
    selects by [crcType]: CRC-8 (polynomial 0x07), CRC-16-CCITT (0x1021),
    CRC-24Q (0x1864CFB), each with initial value 0 and most significant bit
    first, and CRC-32 (0x04C11DB7, reflected, initial value 0xFFFFFFFF).
    The register is updated bit by bit. *)
Definition msb_first (b : byte) : list bool :=
  match Byte.to_bits b with
  | (b0, (b1, (b2, (b3, (b4, (b5, (b6, b7))))))) =>
      [b7; b6; b5; b4; b3; b2; b1; b0]
  end.

Definition lsb_first (b : byte) : list bool :=
  match Byte.to_bits b with
  | (b0, (b1, (b2, (b3, (b4, (b5, (b6, b7))))))) =>
      [b0; b1; b2; b3; b4; b5; b6; b7]
  end.

Definition crc_bit (w poly crc : N) (bit : bool) : N :=
  let mask := (2 ^ w - 1)%N in
  let shifted := N.land (N.shiftl crc 1) mask in
  if xorb (N.testbit crc (w - 1)) bit
  then N.lxor shifted (N.land poly mask)
  else shifted.

Definition crc_byte (w poly crc : N) (b : byte) : N :=
  fold_left (crc_bit w poly) (msb_first b) crc.

Definition crc_msb_first (w poly init : N) (data : bytes) : N :=
  fold_left (crc_byte w poly) data init.

Definition crc_bit_reflected (rpoly crc : N) (bit : bool) : N :=
  let shifted := N.shiftr crc 1 in
  if xorb (N.testbit crc 0) bit then N.lxor shifted rpoly else shifted.

Definition crc_byte_reflected (rpoly crc : N) (b : byte) : N :=
  fold_left (crc_bit_reflected rpoly) (lsb_first b) crc.

Definition crc_table (crcType : Z) (data : bytes) : Z :=
  Z.of_N
    match crcType with
    | 0 => crc_msb_first 8 0x07 0 data
    | 1 => crc_msb_first 16 0x1021 0 data
    | 2 => crc_msb_first 24 0x1864CFB 0 data
    | _ => fold_left (crc_byte_reflected 0xEDB88320) data 0xFFFFFFFF%N
    end.

(** A message class that accepts every frame and keeps its bytes. *)
Definition sample_collaborators : Collaborators := {|
  SPARTNMessage := bytes;
  new_message_payload := fun message => inr message;
  new_message_transport := fun message _ _ _ => inr message;
  crc_compute := crc_table
|}.

(** [z.to_bytes(n, "big")] for [0 <= z < 256 ^ n] *)
Fixpoint int_to_bytes_big (n : nat) (z : Z) : bytes :=
  match n with
  | O => []
  | S n' =>
      int_to_bytes_big n' (z / 256)
        ++ [match Byte.of_N (Z.to_N (z mod 256)) with
            | Some b => b
            | None => x00
            end]
  end.

(** A frame over the given parts, closed by the CRC of its core. *)
Definition with_crc (fs pd pl ea : bytes) : frame :=
  let crcType := bits fs 18 2 in
  Frame fs pd pl ea
        (int_to_bytes_big (Z.to_nat (crcType + 1))
           (crc_table crcType (fs ++ pd ++ pl ++ ea))).

(** msgType 0, nData 1, eaf 0, crcType 0; timeTagtype 0; one payload byte. *)
Definition plain_frame : frame :=
  with_crc [x00; x00; x80] [x00; x00; x00; x00] [xab] [].

(** msgType 0, nData 2, eaf 0, crcType 1; timeTagtype 1. *)
Definition timetag_frame : frame :=
  with_crc [x00; x01; x10] [x08; x00; x00; x00; x00; x00] [x01; x02] [].

(** msgType 0, nData 0, eaf 1, crcType 0; timeTagtype 0, authInd 2,
    embAuthLen 1: twelve bytes of embedded authentication data. *)
Definition auth_frame : frame :=
  with_crc [x00; x00; x40] [x00; x00; x00; x00; x00; x11] []
           [x01; x02; x03; x04; x05; x06; x07; x08; x09; x0a; x0b; x0c].

(** The same header with sixteen bytes, as the earlier reader expects. *)
Definition auth_frame_early : frame :=
  with_crc [x00; x00; x40] [x00; x00; x00; x00; x00; x11] []
           [x01; x02; x03; x04; x05; x06; x07; x08; x09; x0a; x0b; x0c;
            x0d; x0e; x0f; x10].

(** The later reader with its default arguments, and with errors ignored
    and raised. *)
Definition late_reader (quitonerror : Z) : Late.SPARTNReader :=
  {| Late._validate := VALCRC; Late._quitonerror := quitonerror;
     Late._errorhandler := false; Late._decrypt := false;
     Late._key := None |}.

Definition start (st : bytes) : rstate := RState st [] [].

(** [plain_frame] with its CRC byte flipped by the mask 0xFF. *)
Definition bad_crc_frame : frame := flip_crc plain_frame [xff].




(** The CRC bytes of [f] are not the CRC of its core. *)
Definition crc_mismatch `{Collaborators} (f : frame) : Prop :=
  int_from_bytes_big (f_crcb f) <> crc_compute (f_crcType f) (frame_core f).

(* ===================================================================== *)
(** ** Calls of [read] on any stream *)
(* ===================================================================== *)

Unset Implicit Arguments.

(** A call of the later [read], turn by turn of its loop: started on the
    stream [st] with the log [el], it ends with [r] and leaves [st'] and
    [el'].  A turn meets the end of the stream, a byte that is not the
    preamble, a stream that ends inside the frame its header announces, or
    a whole frame, which the CRC check and the message class accept or
    reject.  Lemmas [late_reads_runs] and [late_reads_total] show that
    [read] runs so on every stream. *)
Inductive late_reads `{Collaborators} (self : Late.SPARTNReader)
  : bytes -> list logged -> outcome (option bytes * option parsed)
    -> bytes -> list logged -> Prop :=
| LR_end el :
    late_reads self [] el (Ret (None, None)) [] el
| LR_garbage_raise b st el :
    b <> x73 -> Late._quitonerror self = ERRRAISE ->
    late_reads self (b :: st) el
      (Raise (SPARTNParseError (UnknownProtocolText [b]))) st el
| LR_garbage_skip b st el r st' el' :
    b <> x73 -> Late._quitonerror self <> ERRRAISE ->
    late_reads self st (el ++ late_logged self (UnknownProtocolText [b]))
      r st' el' ->
    late_reads self (b :: st) el r st' el'
| LR_truncated f p q el :
    well_formed embAuth_table f -> p ++ q = frame_body f -> q <> [] ->
    late_reads self (x73 :: p) el (Ret (None, None)) [] el
| LR_frame f m rest el :
    valid_late self f m ->
    late_reads self (frame_bytes f ++ rest) el
      (Ret (Some (frame_bytes f), Some (Record_ m))) rest el
| LR_frame_eof f rest el :
    well_formed embAuth_table f ->
    late_frame_outcome self f = Raise EOFError ->
    late_reads self (frame_bytes f ++ rest) el (Ret (None, None)) rest el
| LR_frame_raise f e rest el :
    well_formed embAuth_table f ->
    late_frame_outcome self f = Raise e -> late_caught e = true ->
    Late._quitonerror self = ERRRAISE ->
    late_reads self (frame_bytes f ++ rest) el
      (Raise (SPARTNParseError (str e))) rest el
| LR_frame_skip f e rest el r st' el' :
    well_formed embAuth_table f ->
    late_frame_outcome self f = Raise e -> late_caught e = true ->
    Late._quitonerror self <> ERRRAISE ->
    late_reads self rest (el ++ late_logged self (str e)) r st' el' ->
    late_reads self (frame_bytes f ++ rest) el r st' el'
| LR_frame_uncaught f e rest el :
    well_formed embAuth_table f ->
    late_frame_outcome self f = Raise e -> late_caught e = false ->
    e <> EOFError ->
    late_reads self (frame_bytes f ++ rest) el (Raise e) rest el.

(** The same for the earlier [read], which logs nothing. *)
Inductive early_reads `{Collaborators} (self : Early.SPARTNReader)
  : bytes -> outcome (option bytes * option parsed) -> bytes -> Prop :=
| ER_end :
    early_reads self [] (Ret (None, None)) []
| ER_garbage_raise b st :
    b <> x73 -> Early._quitonerror self = 2 ->
    early_reads self (b :: st)
      (Raise (SPARTNStreamError (UnknownProtocolDotText [b]))) st
| ER_garbage_text b st :
    b <> x73 -> Early._quitonerror self = 1 ->
    early_reads self (b :: st)
      (Ret (Some [b], Some (Text (UnknownHeaderText [b])))) st
| ER_garbage_skip b st r st' :
    b <> x73 -> Early._quitonerror self <> 2 -> Early._quitonerror self <> 1 ->
    early_reads self st r st' ->
    early_reads self (b :: st) r st'
| ER_truncated f p q :
    well_formed Early.aln f -> p ++ q = frame_body f -> q <> [] ->
    early_reads self (x73 :: p) (Ret (None, None)) []
| ER_frame f m rest :
    valid_early f m ->
    early_reads self (frame_bytes f ++ rest)
      (Ret (Some (frame_bytes f), Some (Record_ m))) rest
| ER_frame_eof f rest :
    well_formed Early.aln f ->
    new_message_payload (frame_bytes f) = inl EOFError ->
    early_reads self (frame_bytes f ++ rest) (Ret (None, None)) rest
| ER_frame_raise f e rest :
    well_formed Early.aln f ->
    new_message_payload (frame_bytes f) = inl e -> e <> EOFError ->
    early_reads self (frame_bytes f ++ rest) (Raise e) rest.

(** The exceptions the [except] clause of the earlier [iterate] handles. *)
Definition early_caught (e : exn) : bool :=
  match e with
  | SPARTNMessageError _ | SPARTNParseError _ | SPARTNStreamError _ => true
  | _ => false
  end.

(** What the earlier [iterate] logs for an error it does not raise. *)
Definition early_logged (quitonerror : Z) (errorhandler : bool) (t : errtext)
  : list logged :=
  if quitonerror =? 1
  then [if errorhandler then Handled t else Printed t]
  else [].

(** The raw bytes of an item the later reader yields. *)
Definition late_raw `{Collaborators} (it : option bytes * option parsed)
  : bytes :=
  match fst it with
  | Some raw => raw
  | None => []
  end.

(** An item of the later reader that is a valid frame and its record. *)
Definition late_item_valid `{Collaborators} (self : Late.SPARTNReader)
    (it : option bytes * option parsed) : Prop :=
  exists f m, it = (Some (frame_bytes f), Some (Record_ m)) /\
              valid_late self f m.

(** The byte strings [raws] stand in the stream [st] in this order, one
    after the other, with any bytes before, between and after them. *)
Fixpoint slices_of (raws : list bytes) (st : bytes) : Prop :=
  match raws with
  | [] => True
  | raw :: raws' =>
      exists skipped rest, st = skipped ++ raw ++ rest /\ slices_of raws' rest
  end.

(** A stream cut off inside a frame: empty, or the preamble and a proper
    prefix of what follows it in a frame laid out under [aln]. *)
Definition truncated_frame (aln : Z -> Z) (tail : bytes) : Prop :=
  tail = [] \/
  exists f p q, tail = x73 :: p /\ well_formed aln f /\
                p ++ q = frame_body f /\ q <> [].

(** A message class that rejects every frame with the exception [e]. *)
Definition rejecting_collaborators (e : exn) : Collaborators := {|
  SPARTNMessage := bytes;
  new_message_payload := fun _ => inl e;
  new_message_transport := fun _ _ _ _ => inl e;
  crc_compute := crc_table
|}.

(** The later reader with the given [validate] and [quitonerror]. *)
Definition late_reader_with (validate quitonerror : Z) (errorhandler : bool)
  : Late.SPARTNReader :=
  {| Late._validate := validate; Late._quitonerror := quitonerror;
     Late._errorhandler := errorhandler; Late._decrypt := false;
     Late._key := None |}.

(** The earlier reader with the given [quitonerror]. *)
Definition early_reader (quitonerror : Z) : Early.SPARTNReader :=
  Early.__init__ (Some quitonerror).

(** What the later [read] passes over before a frame it returns: a byte
    that is not the preamble, or a whole frame that [_parse_spartn]
    rejects with an exception [e] that [read] handles. *)
Inductive passed_over : Type :=
| UnknownByte (b : byte)
| RejectedFrame (f : frame) (e : exn).

Definition passed_bytes (x : passed_over) : bytes :=
  match x with
  | UnknownByte b => [b]
  | RejectedFrame f _ => frame_bytes f
  end.

(** The text of the error [read] handles for it. *)
Definition passed_text (x : passed_over) : errtext :=
  match x with
  | UnknownByte b => UnknownProtocolText [b]
  | RejectedFrame _ e => str e
  end.

Definition passed_ok `{Collaborators} (self : Late.SPARTNReader)
    (x : passed_over) : Prop :=
  match x with
  | UnknownByte b => b <> x73
  | RejectedFrame f e =>
      well_formed embAuth_table f /\
      late_frame_outcome self f = Raise e /\ late_caught e = true
  end.

Unset Implicit Arguments.

(* ===================================================================== *)
(** ** Lists, bits and bytes *)
(* ===================================================================== *)

Lemma len_app {A} (a b : list A) : len (a ++ b) = len a + len b.
Proof. unfold len. rewrite length_app. lia. Qed.

Lemma len_nonneg {A} (a : list A) : 0 <= len a.
Proof. unfold len. lia. Qed.

Lemma len_nil {A} : len (@nil A) = 0.
Proof. reflexivity. Qed.

Lemma len_cons {A} (x : A) (a : list A) : len (x :: a) = 1 + len a.
Proof. unfold len. simpl List.length. lia. Qed.

Lemma firstn_len_app {A} (a b : list A) n :
  len a = n -> firstn (Z.to_nat n) (a ++ b) = a.
Proof.
  unfold len. intros <-. rewrite Nat2Z.id.
  rewrite firstn_app, Nat.sub_diag, firstn_all. simpl. apply app_nil_r.
Qed.

Lemma skipn_len_app {A} (a b : list A) n :
  len a = n -> skipn (Z.to_nat n) (a ++ b) = b.
Proof.
  unfold len. intros <-. rewrite Nat2Z.id.
  rewrite skipn_app, Nat.sub_diag, skipn_all. reflexivity.
Qed.

(** A prefix that is long enough contains the first part. *)
Lemma app_eq_split {A} (p q a r : list A) :
  p ++ q = a ++ r -> len a <= len p ->
  exists p', p = a ++ p' /\ p' ++ q = r.
Proof.
  unfold len. revert a. induction p as [|x p IH]; intros [|y a] E L;
    simpl in *; try lia.
  - exists []. split; auto.
  - exists (x :: p). split; auto.
  - injection E as -> E. destruct (IH a E) as (p' & -> & <-); [lia|].
    exists p'. split; reflexivity.
Qed.

Lemma byte_bits_length b : List.length (byte_bits b) = 8%nat.
Proof. reflexivity. Qed.

Lemma bits_of_bytes_app a b :
  bits_of_bytes (a ++ b) = bits_of_bytes a ++ bits_of_bytes b.
Proof. unfold bits_of_bytes. apply flat_map_app. Qed.

Lemma bits_of_bytes_length bs :
  List.length (bits_of_bytes bs) = (8 * List.length bs)%nat.
Proof.
  induction bs as [|b bs IH]; [reflexivity|].
  change (bits_of_bytes (b :: bs)) with (byte_bits b ++ bits_of_bytes bs).
  rewrite length_app, IH, byte_bits_length. simpl List.length. lia.
Qed.

(** A bit range that lies in a prefix of the buffer reads the prefix. *)
Lemma bits_app a b p w :
  0 <= p -> 0 <= w -> p + w <= 8 * len a ->
  bits (a ++ b) p w = bits a p w.
Proof.
  intros Hp Hw Hr. unfold bits. f_equal.
  rewrite bits_of_bytes_app, skipn_app, firstn_app.
  assert (L : (Z.to_nat p + Z.to_nat w <= List.length (bits_of_bytes a))%nat).
  { rewrite bits_of_bytes_length. unfold len in Hr. lia. }
  rewrite length_skipn.
  replace (Z.to_nat w - (List.length (bits_of_bytes a) - Z.to_nat p))%nat
    with 0%nat by lia.
  rewrite firstn_O, app_nil_r. reflexivity.
Qed.

Lemma bits_firstn st k p w :
  0 <= p -> 0 <= w -> p + w <= 8 * k -> k <= len st ->
  bits (firstn (Z.to_nat k) st) p w = bits st p w.
Proof.
  intros Hp Hw Hr Hk.
  rewrite <- (firstn_skipn (Z.to_nat k) st) at 2.
  symmetry. apply bits_app; auto.
  unfold len in *. rewrite length_firstn. lia.
Qed.

Lemma bitsval_in_range b p w :
  p + w <= 8 * len b -> bitsval b p w = inr (bits b p w).
Proof.
  intros Hr. unfold bitsval.
  destruct (Z.gtb_spec (p + w) (8 * len b)); [lia | reflexivity].
Qed.

(** [bitsval] fails exactly on the calls that are out of range. *)
Lemma bitsval_fails_iff b p w :
  (exists e, bitsval b p w = inl e) <-> ~ in_range (BitCall (len b) p w).
Proof.
  unfold bitsval, in_range. cbn [bc_offset bc_width bc_buflen].
  destruct (Z.gtb_spec (p + w) (8 * len b)); split.
  - intros _. lia.
  - intros _. eexists. reflexivity.
  - intros [e E]. discriminate.
  - intros N. lia.
Qed.

Lemma uint_of_bits_bound l :
  0 <= uint_of_bits l < 2 ^ Z.of_nat (List.length l).
Proof.
  unfold uint_of_bits.
  assert (G : forall l acc n, 0 <= acc < 2 ^ Z.of_nat n ->
            0 <= fold_left (fun acc b => 2 * acc + Z.b2z b) l acc
              < 2 ^ Z.of_nat (n + List.length l)).
  { clear l. induction l as [|b l IH]; intros acc n Ha;
      cbn [fold_left List.length].
    - rewrite Nat.add_0_r. exact Ha.
    - replace (n + S (List.length l))%nat with (S n + List.length l)%nat by lia.
      apply IH. rewrite Nat2Z.inj_succ, Z.pow_succ_r by lia.
      destruct b; cbn [Z.b2z]; lia. }
  apply (G l 0 0%nat). simpl. lia.
Qed.

(** The value of a [w]-bit field. *)
Lemma bits_bound b p w : 0 <= w -> 0 <= bits b p w < 2 ^ w.
Proof.
  intros Hw. unfold bits.
  pose proof (uint_of_bits_bound
                (firstn (Z.to_nat w) (skipn (Z.to_nat p) (bits_of_bytes b)))) as B.
  rewrite length_firstn in B.
  assert (2 ^ Z.of_nat (Nat.min (Z.to_nat w)
            (List.length (skipn (Z.to_nat p) (bits_of_bytes b)))) <= 2 ^ w).
  { apply Z.pow_le_mono_r; lia. }
  lia.
Qed.



(* ===================================================================== *)
(** ** Running the reader monad *)
(* ===================================================================== *)

Lemma read_bytes_eq n st bc el :
  _read_bytes n (RState st bc el) =
  if len st <? n then (Raise EOFError, RState [] bc el)
  else (Ret (firstn (Z.to_nat n) st), RState (skipn (Z.to_nat n) st) bc el).
Proof.
  unfold _read_bytes, bind, stream_read, raise, ret. cbn [stream bitcalls errlog].
  unfold len. destruct (Z.ltb_spec (Z.of_nat (List.length st)) n) as [L|L].
  - rewrite firstn_all2 by lia. rewrite skipn_all2 by lia.
    destruct (Z.ltb_spec (Z.of_nat (List.length st)) n); [reflexivity | lia].
  - rewrite length_firstn.
    destruct (Z.ltb_spec (Z.of_nat (Nat.min (Z.to_nat n) (List.length st))) n);
      [lia | reflexivity].
Qed.

Section Runs.
Context {A B : Type}.

Lemma runs_ret (a : A) st el : runs (ret a) st el (Ret a) st el.
Proof. intros bc. exists bc. reflexivity. Qed.

Lemma runs_raise e st el : runs (@raise A e) st el (Raise e) st el.
Proof. intros bc. exists bc. reflexivity. Qed.

Lemma runs_bind (m : M A) (k : A -> M B) st el a st1 el1 r st2 el2 :
  runs m st el (Ret a) st1 el1 ->
  runs (k a) st1 el1 r st2 el2 ->
  runs (bind m k) st el r st2 el2.
Proof.
  intros Hm Hk bc. destruct (Hm bc) as [bc1 E1]. destruct (Hk bc1) as [bc2 E2].
  exists bc2. unfold bind. rewrite E1. exact E2.
Qed.

Lemma runs_bind_raise (m : M A) (k : A -> M B) st el e st1 el1 :
  runs m st el (Raise e) st1 el1 ->
  runs (bind m k) st el (Raise e) st1 el1.
Proof.
  intros Hm bc. destruct (Hm bc) as [bc1 E1].
  exists bc1. unfold bind. rewrite E1. reflexivity.
Qed.

(** A run has one result. *)
Lemma runs_fun (m : M A) st el r st' el' r2 st2 el2 :
  runs m st el r st' el' -> runs m st el r2 st2 el2 ->
  r = r2 /\ st' = st2 /\ el' = el2.
Proof.
  intros H1 H2. destruct (H1 []) as [b1 E1]. destruct (H2 []) as [b2 E2].
  rewrite E1 in E2. injection E2 as -> -> _ ->. auto.
Qed.

End Runs.

Lemma runs_read_bytes n a rest el :
  len a = n -> runs (_read_bytes n) (a ++ rest) el (Ret a) rest el.
Proof.
  intros L bc. exists bc. rewrite read_bytes_eq.
  rewrite len_app. pose proof (len_nonneg rest).
  destruct (Z.ltb_spec (len a + len rest) n); [lia|].
  rewrite firstn_len_app, skipn_len_app by assumption. reflexivity.
Qed.

Lemma runs_read_bytes_eof n st el :
  len st < n -> runs (_read_bytes n) st el (Raise EOFError) [] el.
Proof.
  intros L bc. exists bc. rewrite read_bytes_eq.
  destruct (Z.ltb_spec (len st) n); [reflexivity | lia].
Qed.

Lemma runs_call_bitsval b p w st el :
  p + w <= 8 * len b ->
  runs (call_bitsval b p w) st el (Ret (bits b p w)) st el.
Proof.
  intros Hr bc. eexists. unfold call_bitsval.
  rewrite bitsval_in_range by assumption. reflexivity.
Qed.

Lemma runs_log l st el : runs (log l) st el (Ret tt) st (el ++ [l]).
Proof. intros bc. exists bc. reflexivity. Qed.

Lemma runs_lift_ok {A} (a : A) st el :
  runs (lift_exn (inr a)) st el (Ret a) st el.
Proof. apply runs_ret. Qed.

Lemma runs_try_ret {A} (m : M A) h st el a st' el' :
  runs m st el (Ret a) st' el' -> runs (try_except m h) st el (Ret a) st' el'.
Proof.
  intros Hm bc. destruct (Hm bc) as [bc1 E]. exists bc1.
  unfold try_except. rewrite E. reflexivity.
Qed.

Lemma runs_try_caught {A} (m : M A) h k st el e st1 el1 r st2 el2 :
  runs m st el (Raise e) st1 el1 -> h e = Some k ->
  runs k st1 el1 r st2 el2 ->
  runs (try_except m h) st el r st2 el2.
Proof.
  intros Hm Hh Hk bc. destruct (Hm bc) as [bc1 E]. destruct (Hk bc1) as [bc2 E2].
  exists bc2. unfold try_except. rewrite E, Hh. exact E2.
Qed.

Lemma runs_try_uncaught {A} (m : M A) h st el e st1 el1 :
  runs m st el (Raise e) st1 el1 -> h e = None ->
  runs (try_except m h) st el (Raise e) st1 el1.
Proof.
  intros Hm Hh bc. destruct (Hm bc) as [bc1 E]. exists bc1.
  unfold try_except. rewrite E, Hh. reflexivity.
Qed.

(* ===================================================================== *)
(** ** The payload-descriptor stage *)
(* ===================================================================== *)

Lemma payDesc_len_bounds eaf t : 4 <= payDesc_len eaf t <= 8.
Proof. unfold payDesc_len. destruct (truthy t), (truthy eaf); lia. Qed.

Lemma read_bytes_cases n (st : bytes) :
  0 <= n -> len st < n \/ exists a rest, st = a ++ rest /\ len a = n.
Proof.
  intros Hn. destruct (Z.lt_ge_cases (len st) n) as [L|L]; [left; exact L|].
  right. exists (firstn (Z.to_nat n) st), (skipn (Z.to_nat n) st).
  split; [symmetry; apply firstn_skipn|].
  unfold len in *. rewrite length_firstn. lia.
Qed.

Lemma payDesc_split_some eaf pd rest :
  len pd = payDesc_len eaf (bits pd 4 1) ->
  payDesc_split eaf (pd ++ rest) = Some (pd, rest).
Proof.
  intros L. pose proof (payDesc_len_bounds eaf (bits pd 4 1)) as B.
  pose proof (len_nonneg rest) as R.
  unfold payDesc_split. rewrite len_app.
  destruct (Z.ltb_spec (len pd + len rest) 4); [lia|].
  rewrite bits_app by lia. cbv zeta. rewrite <- L.
  destruct (Z.ltb_spec (len pd + len rest) (len pd)); [lia|].
  rewrite firstn_len_app, skipn_len_app by reflexivity. reflexivity.
Qed.

Lemma payDesc_split_short eaf st :
  len st < 4 \/ len st < payDesc_len eaf (bits st 4 1) ->
  payDesc_split eaf st = None.
Proof.
  intros L. unfold payDesc_split.
  destruct (Z.ltb_spec (len st) 4); [reflexivity|]. cbv zeta.
  destruct (Z.ltb_spec (len st) (payDesc_len eaf (bits st 4 1)));
    [reflexivity | lia].
Qed.

Lemma payDesc_result_some a0 eaf pd rest :
  len pd = payDesc_len eaf (bits pd 4 1) ->
  payDesc_result a0 eaf (pd ++ rest) = Ret (payDesc_info a0 eaf pd) /\
  payDesc_rest eaf (pd ++ rest) = rest.
Proof.
  intros L. unfold payDesc_result, payDesc_rest.
  rewrite payDesc_split_some by assumption. auto.
Qed.

Lemma payDesc_result_short a0 eaf st :
  len st < 4 \/ len st < payDesc_len eaf (bits st 4 1) ->
  payDesc_result a0 eaf st = Raise EOFError /\ payDesc_rest eaf st = [].
Proof.
  intros L. unfold payDesc_result, payDesc_rest.
  rewrite payDesc_split_short by assumption. auto.
Qed.

Lemma positions_agree t :
  Early.authInd_pos t = Late.authInd_pos t /\
  Early.embAuthLen_pos t = Late.embAuthLen_pos t.
Proof.
  unfold Early.authInd_pos, Early.embAuthLen_pos, Early.pos,
    Late.authInd_pos, Late.embAuthLen_pos, Late.gtlen.
  destruct (truthy t); split; reflexivity.
Qed.

Lemma late_positions t :
  (truthy t = true /\ Late.authInd_pos t = 58 /\ Late.embAuthLen_pos t = 61) \/
  (truthy t = false /\ Late.authInd_pos t = 42 /\ Late.embAuthLen_pos t = 45).
Proof.
  unfold Late.authInd_pos, Late.embAuthLen_pos, Late.gtlen.
  destruct (truthy t); [left | right]; auto.
Qed.

(** Rewriting the goal of a stage lemma to the outcome it names. *)
Ltac stage_eof :=
  match goal with
  | |- runs _ _ _ (payDesc_result ?a0 ?eaf ?st) _ _ =>
      let R := fresh in
      destruct (@payDesc_result_short a0 eaf st) as [R ->];
      [ | rewrite R ]
  end.

Lemma late_pull_payDesc_runs `{Collaborators} eaf st el :
  runs (Late.pull_payDesc eaf) st el
       (payDesc_result (Some 0) eaf st) (payDesc_rest eaf st) el.
Proof.
  unfold Late.pull_payDesc.
  destruct (read_bytes_cases 4 st) as [L | (a & st1 & -> & La)]; [lia | |].
  { stage_eof; [left; exact L|].
    apply runs_bind_raise, runs_read_bytes_eof; exact L. }
  assert (Ta : bits (a ++ st1) 4 1 = bits a 4 1) by (apply bits_app; lia).
  eapply runs_bind; [apply runs_read_bytes; exact La|].
  eapply runs_bind; [apply runs_call_bitsval; lia|].
  destruct (truthy (bits a 4 1)) eqn:T.
  - destruct (read_bytes_cases 2 st1) as [L | (b & st2 & -> & Lb)]; [lia | |].
    { stage_eof.
      - right. rewrite Ta. unfold payDesc_len. rewrite T, len_app.
        destruct (truthy eaf); lia.
      - apply runs_bind_raise, runs_bind_raise, runs_read_bytes_eof; exact L. }
    eapply runs_bind;
      [eapply runs_bind; [apply runs_read_bytes; exact Lb | apply runs_ret]|].
    cbv zeta. destruct (truthy eaf) eqn:E.
    + destruct (read_bytes_cases 2 st2) as [L | (c & st3 & -> & Lc)]; [lia | |].
      { stage_eof.
        - right. rewrite Ta. unfold payDesc_len. rewrite T, E, !len_app. lia.
        - apply runs_bind_raise, runs_read_bytes_eof; exact L. }
      assert (Lp : len ((a ++ b) ++ c) = payDesc_len eaf (bits ((a ++ b) ++ c) 4 1)).
      { rewrite <- !app_assoc, (bits_app a) by lia.
        unfold payDesc_len. rewrite T, E, !len_app. lia. }
      replace (a ++ b ++ c ++ st3) with (((a ++ b) ++ c) ++ st3)
        by (rewrite <- !app_assoc; reflexivity).
      destruct (@payDesc_result_some (Some 0) eaf _ st3 Lp) as [-> ->].
      replace (((a ++ b) ++ c) ++ st3) with (a ++ b ++ c ++ st3)
        by (rewrite <- !app_assoc; reflexivity).
      assert (Tp : bits ((a ++ b) ++ c) 4 1 = bits a 4 1).
      { rewrite <- !app_assoc. apply bits_app; lia. }
      eapply runs_bind; [apply runs_read_bytes; exact Lc|].
      pose proof (late_positions (bits a 4 1)) as [(_ & P1 & P2) | (T' & _)];
        [|congruence].
      eapply runs_bind; [apply runs_call_bitsval; rewrite P1, !len_app; lia|].
      eapply runs_bind; [apply runs_call_bitsval; rewrite P2, !len_app; lia|].
      unfold payDesc_info. rewrite Tp, E. apply runs_ret.
    + assert (Lp : len (a ++ b) = payDesc_len eaf (bits (a ++ b) 4 1)).
      { rewrite (bits_app a) by lia.
        unfold payDesc_len. rewrite T, E, !len_app. lia. }
      replace (a ++ b ++ st2) with ((a ++ b) ++ st2)
        by (rewrite <- !app_assoc; reflexivity).
      destruct (@payDesc_result_some (Some 0) eaf _ st2 Lp) as [-> ->].
      unfold payDesc_info. rewrite (bits_app a) by lia. rewrite E.
      apply runs_ret.
  - eapply runs_bind; [apply runs_ret|].
    cbv zeta. destruct (truthy eaf) eqn:E.
    + destruct (read_bytes_cases 2 st1) as [L | (c & st3 & -> & Lc)]; [lia | |].
      { stage_eof.
        - right. rewrite Ta. unfold payDesc_len. rewrite T, E, !len_app. lia.
        - apply runs_bind_raise, runs_read_bytes_eof; exact L. }
      assert (Lp : len (a ++ c) = payDesc_len eaf (bits (a ++ c) 4 1)).
      { rewrite (bits_app a) by lia.
        unfold payDesc_len. rewrite T, E, !len_app. lia. }
      replace (a ++ c ++ st3) with ((a ++ c) ++ st3)
        by (rewrite <- !app_assoc; reflexivity).
      destruct (@payDesc_result_some (Some 0) eaf _ st3 Lp) as [-> ->].
      replace ((a ++ c) ++ st3) with (a ++ c ++ st3)
        by (rewrite <- !app_assoc; reflexivity).
      eapply runs_bind; [apply runs_read_bytes; exact Lc|].
      pose proof (late_positions (bits a 4 1)) as [(T' & _) | (_ & P1 & P2)];
        [congruence|].
      eapply runs_bind; [apply runs_call_bitsval; rewrite P1, !len_app; lia|].
      eapply runs_bind; [apply runs_call_bitsval; rewrite P2, !len_app; lia|].
      unfold payDesc_info. rewrite (bits_app a c 4 1) by lia. rewrite E.
      apply runs_ret.
    + assert (Lp : len a = payDesc_len eaf (bits a 4 1)).
      { unfold payDesc_len. rewrite T, E. lia. }
      destruct (@payDesc_result_some (Some 0) eaf _ st1 Lp) as [-> ->].
      unfold payDesc_info. rewrite E. apply runs_ret.
Qed.

Lemma early_gtlen t :
  (truthy t = true /\ Early.gtlen t = 32) \/
  (truthy t = false /\ Early.gtlen t = 16).
Proof. unfold Early.gtlen. destruct (truthy t); auto. Qed.

Lemma early_pull_payDesc_runs `{Collaborators} eaf st el :
  runs (Early.pull_payDesc eaf) st el
       (payDesc_result None eaf st) (payDesc_rest eaf st) el.
Proof.
  unfold Early.pull_payDesc. cbv zeta.
  destruct (truthy eaf) eqn:E.
  - destruct (read_bytes_cases 6 st) as [L | (a & st1 & -> & La)]; [lia | |].
    { stage_eof.
      - right. unfold payDesc_len. rewrite E.
        destruct (truthy (bits st 4 1)); lia.
      - apply runs_bind_raise, runs_read_bytes_eof; exact L. }
    assert (Ta : bits (a ++ st1) 4 1 = bits a 4 1) by (apply bits_app; lia).
    eapply runs_bind; [apply runs_read_bytes; exact La|].
    eapply runs_bind; [apply runs_call_bitsval; lia|].
    eapply runs_bind; [apply runs_call_bitsval; lia|].
    destruct (positions_agree (bits a 4 1)) as [-> ->].
    destruct (truthy (bits a 4 1)) eqn:T.
    + destruct (read_bytes_cases 2 st1) as [L | (c & st3 & -> & Lc)]; [lia | |].
      { stage_eof.
        - right. rewrite Ta. unfold payDesc_len. rewrite T, E, !len_app. lia.
        - apply runs_bind_raise, runs_bind_raise, runs_read_bytes_eof; exact L. }
      assert (Tp : bits (a ++ c) 4 1 = bits a 4 1) by (apply bits_app; lia).
      assert (Lp : len (a ++ c) = payDesc_len eaf (bits (a ++ c) 4 1)).
      { rewrite Tp. unfold payDesc_len. rewrite T, E, !len_app. lia. }
      replace (a ++ c ++ st3) with ((a ++ c) ++ st3)
        by (rewrite <- !app_assoc; reflexivity).
      destruct (payDesc_result_some None eaf _ st3 Lp) as [-> ->].
      eapply runs_bind;
        [eapply runs_bind; [apply runs_read_bytes; exact Lc | apply runs_ret]|].
      pose proof (early_gtlen (bits a 4 1)) as [(_ & G) | (T' & _)];
        [|congruence].
      pose proof (late_positions (bits a 4 1)) as [(_ & P1 & P2) | (T' & _)];
        [|congruence].
      eapply runs_bind; [apply runs_call_bitsval; rewrite G, !len_app; lia|].
      eapply runs_bind; [apply runs_call_bitsval; rewrite P1, !len_app; lia|].
      eapply runs_bind; [apply runs_call_bitsval; rewrite P2, !len_app; lia|].
      unfold payDesc_info. rewrite Tp, E. apply runs_ret.
    + assert (Lp : len a = payDesc_len eaf (bits a 4 1)).
      { unfold payDesc_len. rewrite T, E. lia. }
      destruct (payDesc_result_some None eaf _ st1 Lp) as [-> ->].
      eapply runs_bind; [apply runs_ret|].
      pose proof (early_gtlen (bits a 4 1)) as [(T' & _) | (_ & G)];
        [congruence|].
      pose proof (late_positions (bits a 4 1)) as [(T' & _) | (_ & P1 & P2)];
        [congruence|].
      eapply runs_bind; [apply runs_call_bitsval; rewrite G; lia|].
      eapply runs_bind; [apply runs_call_bitsval; rewrite P1; lia|].
      eapply runs_bind; [apply runs_call_bitsval; rewrite P2; lia|].
      unfold payDesc_info. rewrite E. apply runs_ret.
  - destruct (read_bytes_cases 4 st) as [L | (a & st1 & -> & La)]; [lia | |].
    { stage_eof; [left; exact L|].
      apply runs_bind_raise, runs_read_bytes_eof; exact L. }
    assert (Ta : bits (a ++ st1) 4 1 = bits a 4 1) by (apply bits_app; lia).
    eapply runs_bind; [apply runs_read_bytes; exact La|].
    eapply runs_bind; [apply runs_call_bitsval; lia|].
    eapply runs_bind; [apply runs_call_bitsval; lia|].
    destruct (truthy (bits a 4 1)) eqn:T.
    + destruct (read_bytes_cases 2 st1) as [L | (c & st3 & -> & Lc)]; [lia | |].
      { stage_eof.
        - right. rewrite Ta. unfold payDesc_len. rewrite T, E, !len_app. lia.
        - apply runs_bind_raise, runs_bind_raise, runs_read_bytes_eof; exact L. }
      assert (Tp : bits (a ++ c) 4 1 = bits a 4 1) by (apply bits_app; lia).
      assert (Lp : len (a ++ c) = payDesc_len eaf (bits (a ++ c) 4 1)).
      { rewrite Tp. unfold payDesc_len. rewrite T, E, !len_app. lia. }
      replace (a ++ c ++ st3) with ((a ++ c) ++ st3)
        by (rewrite <- !app_assoc; reflexivity).
      destruct (payDesc_result_some None eaf _ st3 Lp) as [-> ->].
      eapply runs_bind;
        [eapply runs_bind; [apply runs_read_bytes; exact Lc | apply runs_ret]|].
      pose proof (early_gtlen (bits a 4 1)) as [(_ & G) | (T' & _)];
        [|congruence].
      eapply runs_bind; [apply runs_call_bitsval; rewrite G, !len_app; lia|].
      unfold payDesc_info. rewrite Tp, E. apply runs_ret.
    + assert (Lp : len a = payDesc_len eaf (bits a 4 1)).
      { unfold payDesc_len. rewrite T, E. lia. }
      destruct (payDesc_result_some None eaf _ st1 Lp) as [-> ->].
      eapply runs_bind; [apply runs_ret|].
      pose proof (early_gtlen (bits a 4 1)) as [(T' & _) | (_ & G)];
        [congruence|].
      eapply runs_bind; [apply runs_call_bitsval; rewrite G; lia|].
      unfold payDesc_info. rewrite E. apply runs_ret.
Qed.

(* ===================================================================== *)
(** ** The [bitsval] calls of the framing *)
(* ===================================================================== *)

Section KeepsInRange.
Context {A B : Type}.

Lemma kir_ret (a : A) (Q : A -> Prop) : Q a -> keeps_in_range (ret a) Q.
Proof.
  intros q s. cbn. repeat split; auto; try discriminate.
  exists []. rewrite app_nil_r. auto.
Qed.

Lemma kir_raise e (Q : A -> Prop) : keeps_in_range (raise e) Q.
Proof.
  intros s. cbn. repeat split; auto; try discriminate.
  exists []. rewrite app_nil_r. auto.
Qed.

Lemma kir_bind (m : M A) (k : A -> M B) (P : A -> Prop) (Q : B -> Prop) :
  keeps_in_range m P ->
  (forall a, P a -> keeps_in_range (k a) Q) ->
  keeps_in_range (bind m k) Q.
Proof.
  intros Hm Hk s. unfold bind.
  destruct (Hm s) as ((c1 & E1 & F1) & L1 & G1 & N1 & P1).
  destruct (m s) as [[a|e|] s1]; cbn [fst snd] in *.
  - destruct (Hk a P1 s1) as ((c2 & E2 & F2) & L2 & G2 & N2 & P2).
    repeat split; auto; try lia; try congruence.
    exists (c1 ++ c2). rewrite E2, E1, app_assoc. split; [reflexivity|].
    apply Forall_app; auto.
  - repeat split; auto; try discriminate. exists c1. auto.
  - congruence.
Qed.

Lemma kir_weaken (m : M A) (P Q : A -> Prop) :
  keeps_in_range m P -> (forall a, P a -> Q a) -> keeps_in_range m Q.
Proof.
  intros Hm PQ s. destruct (Hm s) as (C & L & G & N & Pa).
  repeat split; auto. destruct (fst (m s)); auto.
Qed.

Lemma kir_lift (r : exn + A) : keeps_in_range (lift_exn r) (fun _ => True).
Proof. destruct r; [apply kir_raise | apply kir_ret; exact I]. Qed.

Lemma kir_deref (v : option A) : keeps_in_range (deref v) (fun _ => True).
Proof. destruct v; [apply kir_ret; exact I | apply kir_raise]. Qed.

End KeepsInRange.

Lemma kir_read_bytes n :
  keeps_in_range (_read_bytes n) (fun d => 0 <= n -> len d = n).
Proof.
  intros [st bc el]. rewrite read_bytes_eq.
  destruct (Z.ltb_spec (len st) n); cbn [fst snd bitcalls stream errlog];
    repeat split; auto; try discriminate;
    try (exists []; rewrite app_nil_r; auto; fail).
  - cbn. lia.
  - rewrite length_skipn. lia.
  - intros Hn. unfold len in *. rewrite length_firstn. lia.
Qed.

(** A successful read of [n > 0] bytes shortens the stream. *)
Lemma read_bytes_shortens n s a s' :
  0 < n -> _read_bytes n s = (Ret a, s') ->
  (List.length (stream s') < List.length (stream s))%nat.
Proof.
  destruct s as [st bc el]. intros Hn. rewrite read_bytes_eq.
  destruct (Z.ltb_spec (len st) n); [discriminate|].
  intros [= <- <-]. cbn [stream]. rewrite length_skipn. unfold len in *. lia.
Qed.

Lemma kir_call_bitsval b p w :
  p + w <= 8 * len b -> In (len b) [3; 4; 6; 8] ->
  keeps_in_range (call_bitsval b p w) (fun _ => True).
Proof.
  intros Hr Hb s. unfold call_bitsval.
  assert (F : Forall framing_call [BitCall (len b) p w]).
  { constructor; [|constructor]. split; [exact Hr | exact Hb]. }
  destruct (bitsval b p w); cbn [fst snd bitcalls stream errlog];
    repeat split; auto; try discriminate; eexists; split; eauto.
Qed.

Lemma framing_call_succeeds c : framing_call c -> call_succeeds c.
Proof.
  intros [Hr _] b Hb. apply bitsval_in_range.
  unfold in_range in Hr. rewrite Hb. exact Hr.
Qed.

(** One step of a stage: a [bitsval] call on a buffer of known length. *)
Ltac kir_bits :=
  eapply kir_bind;
  [ apply kir_call_bitsval;
    [ rewrite ?len_app; lia
    | rewrite ?len_app;
      repeat match goal with H : len _ = _ |- _ => rewrite H end;
      cbn; tauto ]
  | intros ? _ ].

Ltac kir_read x L :=
  eapply kir_bind; [apply kir_read_bytes | intros x L; specialize (L ltac:(lia))].

Lemma kir_early_framestart `{Collaborators} :
  keeps_in_range Early.pull_framestart (fun _ => True).
Proof.
  unfold Early.pull_framestart.
  kir_read framestart L. do 5 kir_bits. apply kir_ret. exact I.
Qed.

Lemma kir_late_framestart `{Collaborators} :
  keeps_in_range Late.pull_framestart (fun _ => True).
Proof.
  unfold Late.pull_framestart.
  kir_read framestart L. do 3 kir_bits. apply kir_ret. exact I.
Qed.

Lemma kir_early_payDesc `{Collaborators} eaf :
  keeps_in_range (Early.pull_payDesc eaf) (fun _ => True).
Proof.
  unfold Early.pull_payDesc. cbv zeta.
  eapply kir_bind; [apply kir_read_bytes|]. intros payDesc L.
  assert (L' : len payDesc = if truthy eaf then 6 else 4)
    by (apply L; destruct (truthy eaf); lia).
  clear L.
  eapply kir_bind;
    [apply kir_call_bitsval;
     [destruct (truthy eaf); lia | rewrite L'; destruct (truthy eaf); cbn; tauto]
    | intros msgSubtype _].
  eapply kir_bind;
    [apply kir_call_bitsval;
     [destruct (truthy eaf); lia | rewrite L'; destruct (truthy eaf); cbn; tauto]
    | intros timeTagtype _].
  eapply kir_bind with
    (P := fun pd : bytes =>
            len pd = (if truthy eaf then 6 else 4)
                     + (if truthy timeTagtype then 2 else 0)).
  { destruct (truthy timeTagtype).
    - kir_read extra Le. apply kir_ret. rewrite len_app. lia.
    - apply kir_ret. lia. }
  intros pd Lp. unfold Early.authInd_pos, Early.embAuthLen_pos, Early.pos,
    Early.gtlen.
  destruct (truthy eaf), (truthy timeTagtype);
    repeat kir_bits; apply kir_ret; exact I.
Qed.

Lemma kir_late_payDesc `{Collaborators} eaf :
  keeps_in_range (Late.pull_payDesc eaf) (fun _ => True).
Proof.
  unfold Late.pull_payDesc. cbv zeta.
  kir_read payDesc L. kir_bits. rename a into timeTagtype.
  eapply kir_bind with
    (P := fun pd : bytes =>
            len pd = 4 + (if truthy timeTagtype then 2 else 0)).
  { destruct (truthy timeTagtype).
    - kir_read extra Le. apply kir_ret. rewrite len_app. lia.
    - apply kir_ret. lia. }
  intros pd Lp. unfold Late.authInd_pos, Late.embAuthLen_pos, Late.gtlen.
  destruct (truthy eaf), (truthy timeTagtype);
    try (apply kir_ret; exact I);
    (kir_read extra Le; repeat kir_bits; apply kir_ret; exact I).
Qed.

Lemma kir_read_any n : keeps_in_range (_read_bytes n) (fun _ => True).
Proof. eapply kir_weaken; [apply kir_read_bytes | auto]. Qed.

Lemma kir_early_embAuth `{Collaborators} eaf a l :
  keeps_in_range (Early.pull_embAuth eaf a l) (fun _ => True).
Proof.
  unfold Early.pull_embAuth. destruct (truthy eaf); [|apply kir_ret; exact I].
  eapply kir_bind; [apply kir_deref|]. intros v _.
  destruct (v >? 1); [|apply kir_ret; exact I].
  eapply kir_bind; [apply kir_deref|]. intros; apply kir_read_any.
Qed.

Lemma kir_late_embAuth `{Collaborators} a l :
  keeps_in_range (Late.pull_embAuth a l) (fun _ => True).
Proof.
  unfold Late.pull_embAuth.
  eapply kir_bind; [apply kir_deref|]. intros v _.
  destruct (v >? 1); [|apply kir_ret; exact I].
  eapply kir_bind; [apply kir_deref|]. intros; apply kir_read_any.
Qed.

Lemma kir_early_parse_spartn `{Collaborators} preamble :
  keeps_in_range (Early._parse_spartn preamble) (fun _ => True).
Proof.
  unfold Early._parse_spartn.
  eapply kir_bind; [apply kir_early_framestart|].
  intros [[[framestart nData] eaf] crcType] _.
  eapply kir_bind; [apply kir_early_payDesc|]. intros pd _. cbv zeta.
  eapply kir_bind; [apply kir_read_any|]. intros payload _.
  eapply kir_bind; [apply kir_early_embAuth|]. intros embAuth _.
  eapply kir_bind; [apply kir_read_any|]. intros crc _.
  eapply kir_bind; [apply kir_lift|]. intros m _.
  apply kir_ret. exact I.
Qed.

Lemma kir_late_parse_spartn `{Collaborators} self preamble :
  keeps_in_range (Late._parse_spartn self preamble) (fun _ => True).
Proof.
  unfold Late._parse_spartn.
  eapply kir_bind; [apply kir_late_framestart|].
  intros [[[framestart nData] eaf] crcType] _.
  eapply kir_bind; [apply kir_late_payDesc|]. intros pd _. cbv zeta.
  eapply kir_bind; [apply kir_read_any|]. intros payload _.
  eapply kir_bind; [apply kir_late_embAuth|]. intros embAuth _.
  eapply kir_bind; [apply kir_read_any|]. intros crcb _.
  eapply kir_bind with (P := fun _ => True).
  { destruct (truthy _); [|apply kir_ret; exact I].
    destruct (negb _); [apply kir_raise | apply kir_ret; exact I]. }
  intros _ _.
  eapply kir_bind; [apply kir_lift|]. intros m _.
  apply kir_ret. exact I.
Qed.

(* ===================================================================== *)
(** ** Reading a well-formed frame *)
(* ===================================================================== *)

Lemma late_aln_table l : Late.aln l = embAuth_table l.
Proof.
  unfold Late.aln.
  destruct (Z.eqb_spec l 0) as [->|N0]; [reflexivity|].
  destruct (Z.eqb_spec l 1) as [->|N1]; [reflexivity|].
  destruct (Z.eqb_spec l 2) as [->|N2]; [reflexivity|].
  destruct (Z.eqb_spec l 3) as [->|N3]; [reflexivity|].
  destruct (Z.eqb_spec l 4) as [->|N4]; [reflexivity|].
  destruct l as [|p|p]; [congruence | | reflexivity].
  do 3 (try destruct p as [p|p|]); try reflexivity; congruence.
Qed.

Lemma runs_late_framestart `{Collaborators} fs rest el :
  len fs = 3 ->
  runs Late.pull_framestart (fs ++ rest) el
       (Ret (fs, bits fs 7 10, bits fs 17 1, bits fs 18 2)) rest el.
Proof.
  intros L. unfold Late.pull_framestart.
  eapply runs_bind; [apply runs_read_bytes; exact L|].
  do 3 (eapply runs_bind; [apply runs_call_bitsval; lia|]).
  apply runs_ret.
Qed.

Lemma runs_early_framestart `{Collaborators} fs rest el :
  len fs = 3 ->
  runs Early.pull_framestart (fs ++ rest) el
       (Ret (fs, bits fs 7 10, bits fs 17 1, bits fs 18 2)) rest el.
Proof.
  intros L. unfold Early.pull_framestart.
  eapply runs_bind; [apply runs_read_bytes; exact L|].
  do 5 (eapply runs_bind; [apply runs_call_bitsval; lia|]).
  apply runs_ret.
Qed.

Lemma runs_late_embAuth `{Collaborators} f rest el :
  len (f_embAuth f) = embAuth_len embAuth_table f ->
  runs (Late.pull_embAuth
          (pd_authInd (payDesc_info (Some 0) (f_eaf f) (f_payDesc f)))
          (pd_embAuthLen (payDesc_info (Some 0) (f_eaf f) (f_payDesc f))))
       (f_embAuth f ++ rest) el (Ret (f_embAuth f)) rest el.
Proof.
  unfold embAuth_len, payDesc_info, Late.pull_embAuth, f_authInd, f_embAuthLen,
    f_timeTagtype.
  cbn [pd_authInd pd_embAuthLen]. intros L.
  destruct (truthy (f_eaf f)); cbn [andb deref] in *.
  - eapply runs_bind; [apply runs_ret|].
    destruct (_ >? 1).
    + eapply runs_bind; [apply runs_ret|].
      apply runs_read_bytes. rewrite late_aln_table. exact L.
    + destruct (f_embAuth f); [apply runs_ret | discriminate].
  - eapply runs_bind; [apply runs_ret|]. cbn.
    destruct (f_embAuth f); [apply runs_ret | discriminate].
Qed.

Lemma runs_early_embAuth `{Collaborators} f rest el :
  len (f_embAuth f) = embAuth_len Early.aln f ->
  runs (Early.pull_embAuth (f_eaf f)
          (pd_authInd (payDesc_info None (f_eaf f) (f_payDesc f)))
          (pd_embAuthLen (payDesc_info None (f_eaf f) (f_payDesc f))))
       (f_embAuth f ++ rest) el (Ret (f_embAuth f)) rest el.
Proof.
  unfold embAuth_len, payDesc_info, Early.pull_embAuth, f_authInd, f_embAuthLen,
    f_timeTagtype.
  cbn [pd_authInd pd_embAuthLen]. intros L.
  destruct (truthy (f_eaf f)); cbn [andb deref] in *.
  - eapply runs_bind; [apply runs_ret|].
    destruct (_ >? 1).
    + eapply runs_bind; [apply runs_ret|].
      apply runs_read_bytes. exact L.
    + destruct (f_embAuth f); [apply runs_ret | discriminate].
  - destruct (f_embAuth f); [apply runs_ret | discriminate].
Qed.

Lemma runs_lift {A} (r : exn + A) st el :
  runs (lift_exn r) st el
       (match r with inr a => Ret a | inl e => Raise e end) st el.
Proof. destruct r; [apply runs_raise | apply runs_ret]. Qed.

Lemma frame_body_assoc f rest :
  frame_body f ++ rest =
  f_framestart f ++ f_payDesc f ++ f_payload f ++ f_embAuth f ++ f_crcb f ++ rest.
Proof. unfold frame_body, frame_core. rewrite <- !app_assoc. reflexivity. Qed.

(** The later [_parse_spartn] on a stream that starts with the body of a
    well-formed frame. *)
Lemma late_parse_frame `{Collaborators} self f rest el :
  well_formed embAuth_table f ->
  runs (Late._parse_spartn self SPARTN_PREB) (frame_body f ++ rest) el
       (late_frame_outcome self f) rest el.
Proof.
  intros [Wfs Wpd Wpl Wea Wcrc]. rewrite frame_body_assoc.
  unfold Late._parse_spartn.
  eapply runs_bind; [apply runs_late_framestart; exact Wfs|]. cbv beta iota.
  fold (f_eaf f) (f_nData f) (f_crcType f).
  destruct (payDesc_result_some (Some 0) (f_eaf f) (f_payDesc f)
              (f_payload f ++ f_embAuth f ++ f_crcb f ++ rest) Wpd) as [R1 R2].
  eapply runs_bind.
  { pose proof (late_pull_payDesc_runs (f_eaf f)
                  (f_payDesc f ++ f_payload f ++ f_embAuth f ++ f_crcb f ++ rest) el)
      as P.
    rewrite R1, R2 in P. exact P. }
  cbv zeta.
  eapply runs_bind; [apply runs_read_bytes; exact Wpl|].
  eapply runs_bind; [apply runs_late_embAuth; exact Wea|].
  eapply runs_bind; [apply runs_read_bytes; exact Wcrc|].
  change (pd_bytes (payDesc_info (Some 0) (f_eaf f) (f_payDesc f)))
    with (f_payDesc f).
  fold (frame_core f). fold (frame_bytes f). unfold late_frame_outcome.
  destruct (truthy (Z.land (Late._validate self) VALCRC)); cbn [andb].
  - destruct (negb (valid_crc _ _ _)).
    + apply runs_bind_raise, runs_raise.
    + eapply runs_bind; [apply runs_ret|].
      destruct (new_message_transport _ _ _ _) eqn:E; unfold Late.parse; rewrite E.
      * apply runs_bind_raise, runs_raise.
      * eapply runs_bind; [apply runs_ret | apply runs_ret].
  - eapply runs_bind; [apply runs_ret|].
    destruct (new_message_transport _ _ _ _) eqn:E; unfold Late.parse; rewrite E.
    + apply runs_bind_raise, runs_raise.
    + eapply runs_bind; [apply runs_ret | apply runs_ret].
Qed.

(** The earlier [_parse_spartn] on a stream that starts with the body of a
    frame laid out as that reader delimits it. *)
Lemma early_parse_frame `{Collaborators} f rest el :
  well_formed Early.aln f ->
  runs (Early._parse_spartn SPARTN_PREB) (frame_body f ++ rest) el
       (early_frame_outcome f) rest el.
Proof.
  intros [Wfs Wpd Wpl Wea Wcrc]. rewrite frame_body_assoc.
  unfold Early._parse_spartn.
  eapply runs_bind; [apply runs_early_framestart; exact Wfs|]. cbv beta iota.
  fold (f_eaf f) (f_nData f) (f_crcType f).
  destruct (payDesc_result_some None (f_eaf f) (f_payDesc f)
              (f_payload f ++ f_embAuth f ++ f_crcb f ++ rest) Wpd) as [R1 R2].
  eapply runs_bind.
  { pose proof (early_pull_payDesc_runs (f_eaf f)
                  (f_payDesc f ++ f_payload f ++ f_embAuth f ++ f_crcb f ++ rest) el)
      as P.
    rewrite R1, R2 in P. exact P. }
  cbv zeta.
  eapply runs_bind; [apply runs_read_bytes; exact Wpl|].
  eapply runs_bind; [apply runs_early_embAuth; exact Wea|].
  eapply runs_bind; [apply runs_read_bytes; exact Wcrc|].
  change (pd_bytes (payDesc_info None (f_eaf f) (f_payDesc f)))
    with (f_payDesc f).
  unfold early_frame_outcome.
  change (SPARTN_PREB ++ f_framestart f ++ f_payDesc f ++ f_payload f
            ++ f_embAuth f ++ f_crcb f)
    with (SPARTN_PREB ++ (f_framestart f ++ f_payDesc f ++ f_payload f
            ++ f_embAuth f ++ f_crcb f)).
  replace (f_framestart f ++ f_payDesc f ++ f_payload f
            ++ f_embAuth f ++ f_crcb f) with (frame_core f ++ f_crcb f)
    by (unfold frame_core; rewrite <- !app_assoc; reflexivity).
  fold (frame_bytes f).
  destruct (new_message_payload _) eqn:E; unfold Early.parse; rewrite E.
  - apply runs_bind_raise, runs_raise.
  - eapply runs_bind; [apply runs_ret | apply runs_ret].
Qed.

(* ===================================================================== *)
(** ** The later [read] *)
(* ===================================================================== *)

Section LateRead.
Context `{Collaborators}.
Variable self : Late.SPARTNReader.

Lemma late_read_loop_locals fuel a b :
  Late.read_loop self fuel a b = Late.read_loop self fuel None None.
Proof. destruct fuel; reflexivity. Qed.

Lemma late_handle_eq (t : errtext) st bc el :
  ((if truthy (Late._quitonerror self) then Late._do_error self t else ret tt)
     (RState st bc el)) =
  if Late._quitonerror self =? ERRRAISE
  then (Raise (SPARTNParseError t), RState st bc el)
  else (Ret tt, RState st bc (el ++ late_logged self t)).
Proof.
  unfold Late._do_error, late_logged, truthy, ERRRAISE, ERRLOG.
  destruct (Z.eqb_spec (Late._quitonerror self) 0) as [E0|N0]; cbn [negb].
  - rewrite E0. cbn. rewrite app_nil_r. reflexivity.
  - destruct (Z.eqb_spec (Late._quitonerror self) 2); [reflexivity|].
    destruct (Z.eqb_spec (Late._quitonerror self) 1).
    + destruct (Late._errorhandler self); reflexivity.
    + cbn. rewrite app_nil_r. reflexivity.
Qed.

Lemma kir_late_read_try :
  keeps_in_range (Late.read_try self) (fun _ => True).
Proof.
  unfold Late.read_try.
  eapply kir_bind; [apply kir_read_any|]. intros byte1 _.
  destruct (negb _); [apply kir_raise|].
  eapply kir_bind; [apply kir_late_parse_spartn|]. intros [raw m] _.
  apply kir_ret. exact I.
Qed.

(** A turn of the loop ends at the end of the stream or shortens it. *)
Lemma late_read_try_cases s :
  fst (Late.read_try self s) <> OutOfFuel /\
  errlog (snd (Late.read_try self s)) = errlog s /\
  (fst (Late.read_try self s) = Raise EOFError \/
   (List.length (stream (snd (Late.read_try self s)))
    < List.length (stream s))%nat).
Proof.
  destruct (kir_late_read_try s) as (_ & _ & G & N & _).
  split; [exact N|]. split; [exact G|].
  unfold Late.read_try, bind.
  destruct (_read_bytes 1 s) as [[byte1|e|] s1] eqn:R.
  - right. apply read_bytes_shortens in R; [|lia].
    set (k := if negb (bytes_eqb byte1 SPARTN_PREB) then _ else _).
    assert (K : keeps_in_range k (fun _ => True)).
    { subst k. destruct (negb _); [apply kir_raise|].
      eapply kir_bind; [apply kir_late_parse_spartn|]. intros [raw m] _.
      apply kir_ret. exact I. }
    destruct (K s1) as (_ & L & _). lia.
  - left. destruct s as [st bc el]. rewrite read_bytes_eq in R.
    destruct (len st <? 1); inversion R. reflexivity.
  - destruct s as [st bc el]. rewrite read_bytes_eq in R.
    destruct (len st <? 1); inversion R.
Qed.

(** One turn of the loop of [read]. *)
Lemma late_read_loop_step fuel a b s :
  Late.read_loop self (S fuel) a b s =
  match Late.read_try self s with
  | (Ret v, s1) => (Ret v, s1)
  | (OutOfFuel, s1) => (OutOfFuel, s1)
  | (Raise EOFError, s1) => (Ret (None, None), s1)
  | (Raise e, s1) =>
      if late_caught e then
        if Late._quitonerror self =? ERRRAISE
        then (Raise (SPARTNParseError (str e)), s1)
        else Late.read_loop self fuel None None
               (RState (stream s1) (bitcalls s1)
                       (errlog s1 ++ late_logged self (str e)))
      else (Raise e, s1)
  end.
Proof.
  cbn [Late.read_loop]. unfold try_except.
  destruct (Late.read_try self s) as [[v|e|] [st1 bc1 el1]]; try reflexivity.
  destruct e; try reflexivity; cbn [late_caught stream bitcalls errlog];
    unfold bind; rewrite late_handle_eq;
    (destruct (_ =? ERRRAISE); [reflexivity|]);
    rewrite late_read_loop_locals; reflexivity.
Qed.

(** The loop of [read] ends within as many turns as the stream has bytes,
    and one more. *)
Lemma late_read_loop_ends fuel a b s :
  (List.length (stream s) < fuel)%nat ->
  fst (Late.read_loop self fuel a b s) <> OutOfFuel.
Proof.
  revert a b s. induction fuel as [|fuel IH]; intros a b s L; [lia|].
  rewrite late_read_loop_step.
  destruct (late_read_try_cases s) as (N & G & C).
  destruct (Late.read_try self s) as [[v|e|] s1]; cbn [fst snd] in *;
    [discriminate | | congruence].
  destruct e; cbn [late_caught]; try discriminate;
    (destruct C as [C|C]; [discriminate|]);
    (destruct (_ =? ERRRAISE); [cbn; discriminate|]);
    (apply IH; cbn [stream]; lia).
Qed.

(** More turns than needed change nothing. *)
Lemma late_read_loop_mono n m a b s :
  (n <= m)%nat -> fst (Late.read_loop self n a b s) <> OutOfFuel ->
  Late.read_loop self m a b s = Late.read_loop self n a b s.
Proof.
  revert m a b s. induction n as [|n IH]; intros m a b s L N.
  - cbn in N. congruence.
  - destruct m as [|m]; [lia|]. rewrite !late_read_loop_step in *.
    destruct (Late.read_try self s) as [[v|e|] s1]; try reflexivity.
    destruct e; try reflexivity; cbn [late_caught] in *;
      (destruct (_ =? ERRRAISE); [reflexivity|]);
      (apply IH; [lia | exact N]).
Qed.

Lemma late_read_ends s : fst (Late.read self s) <> OutOfFuel.
Proof. unfold Late.read. apply late_read_loop_ends. lia. Qed.

Lemma bytes_eqb_refl a : bytes_eqb a a = true.
Proof.
  induction a as [|x a IH]; [reflexivity|]. cbn.
  rewrite (Byte.byte_dec_lb (eq_refl x)), IH. reflexivity.
Qed.

Lemma bytes_eqb_eq a b : bytes_eqb a b = true -> a = b.
Proof.
  revert b. induction a as [|x a IH]; intros [|y b] E; cbn in E;
    try discriminate; [reflexivity|].
  apply andb_prop in E as [E1 E2].
  apply Byte.byte_dec_bl in E1. apply IH in E2. congruence.
Qed.

Lemma bytes_eqb_neq a b : a <> b -> bytes_eqb a b = false.
Proof.
  intros N. destruct (bytes_eqb a b) eqn:E; [|reflexivity].
  apply bytes_eqb_eq in E. contradiction.
Qed.

Lemma read_one b st bc el :
  _read_bytes 1 (RState (b :: st) bc el) = (Ret [b], RState st bc el).
Proof.
  rewrite read_bytes_eq, len_cons. pose proof (len_nonneg st).
  destruct (Z.ltb_spec (1 + len st) 1); [lia | reflexivity].
Qed.

Lemma read_none bc el :
  _read_bytes 1 (RState [] bc el) = (Raise EOFError, RState [] bc el).
Proof. reflexivity. Qed.

(** A byte that is not the preamble is discarded, and logged or not. *)
Lemma late_read_garbage b st bc el :
  b <> x73 -> Late._quitonerror self <> ERRRAISE ->
  Late.read self (RState (b :: st) bc el) =
  Late.read self
    (RState st bc (el ++ late_logged self (UnknownProtocolText [b]))).
Proof.
  intros Hb Hq. unfold Late.read. cbn [stream List.length].
  rewrite late_read_loop_step.
  unfold Late.read_try at 1. unfold bind at 1. rewrite read_one.
  rewrite bytes_eqb_neq by (unfold SPARTN_PREB; congruence).
  cbn [negb raise str late_caught stream bitcalls errlog].
  destruct (Z.eqb_spec (Late._quitonerror self) ERRRAISE); [contradiction|].
  reflexivity.
Qed.

Lemma late_read_empty el :
  runs (Late.read self) [] el (Ret (None, None)) [] el.
Proof. intros bc. exists bc. reflexivity. Qed.

(** A turn that starts at a well-formed frame. *)
Lemma late_read_try_frame f rest el :
  well_formed embAuth_table f ->
  runs (Late.read_try self) (frame_bytes f ++ rest) el
       (match late_frame_outcome self f with
        | Ret (raw, m) => Ret (Some raw, Some (Record_ m))
        | Raise e => Raise e
        | OutOfFuel => OutOfFuel
        end) rest el.
Proof.
  intros W bc. destruct (late_parse_frame self f rest el W bc) as [bc' E].
  exists bc'. unfold Late.read_try, bind.
  change (frame_bytes f ++ rest) with (x73 :: (frame_body f ++ rest)).
  rewrite read_one, bytes_eqb_refl. cbn [negb].
  change [x73] with SPARTN_PREB. rewrite E.
  destruct (late_frame_outcome self f) as [[raw m]| |]; reflexivity.
Qed.

Lemma frame_bytes_length f rest :
  List.length (frame_bytes f ++ rest) = S (List.length (frame_body f ++ rest)).
Proof. reflexivity. Qed.

Lemma late_read_frame_ok f rest el raw m :
  well_formed embAuth_table f ->
  late_frame_outcome self f = Ret (raw, m) ->
  runs (Late.read self) (frame_bytes f ++ rest) el
       (Ret (Some raw, Some (Record_ m))) rest el.
Proof.
  intros W O bc. destruct (late_read_try_frame f rest el W bc) as [bc' E].
  rewrite O in E. exists bc'. unfold Late.read. cbn [stream].
  rewrite frame_bytes_length, late_read_loop_step, E. reflexivity.
Qed.

(** A frame [_parse_spartn] rejects with a handled exception is raised to
    the caller or passed over. *)
Lemma late_read_frame_err f rest el e :
  well_formed embAuth_table f ->
  late_frame_outcome self f = Raise e -> late_caught e = true ->
  if Late._quitonerror self =? ERRRAISE
  then runs (Late.read self) (frame_bytes f ++ rest) el
            (Raise (SPARTNParseError (str e))) rest el
  else forall bc, exists bc',
      Late.read self (RState (frame_bytes f ++ rest) bc el) =
      Late.read self (RState rest bc' (el ++ late_logged self (str e))).
Proof.
  intros W O C.
  assert (S1 : forall bc, exists bc',
    Late.read self (RState (frame_bytes f ++ rest) bc el) =
    if Late._quitonerror self =? ERRRAISE
    then (Raise (SPARTNParseError (str e)), RState rest bc' el)
    else Late.read_loop self (S (List.length (frame_body f ++ rest))) None None
           (RState rest bc' (el ++ late_logged self (str e)))).
  { intros bc. destruct (late_read_try_frame f rest el W bc) as [bc' E].
    rewrite O in E. exists bc'. unfold Late.read. cbn [stream].
    rewrite frame_bytes_length, late_read_loop_step, E, C.
    destruct e; try discriminate; reflexivity. }
  destruct (Late._quitonerror self =? ERRRAISE).
  - intros bc. destruct (S1 bc) as [bc' E]. exists bc'. exact E.
  - intros bc. destruct (S1 bc) as [bc' E]. exists bc'. rewrite E.
    unfold Late.read. cbn [stream].
    apply late_read_loop_mono; [rewrite length_app; lia|].
    apply late_read_loop_ends. cbn [stream]. lia.
Qed.

End LateRead.

(* ===================================================================== *)
(** ** The earlier [read] *)
(* ===================================================================== *)

Section EarlyRead.
Context `{Collaborators}.
Variable self : Early.SPARTNReader.

(** A turn of the loop on a byte that is not the preamble. *)
Lemma early_read_loop_garbage fuel b st bc el :
  b <> x73 ->
  Early.read_loop self (S fuel) (RState (b :: st) bc el) =
  if Early._quitonerror self =? 2
  then (Raise (SPARTNStreamError (UnknownProtocolDotText [b])), RState st bc el)
  else if Early._quitonerror self =? 1
       then (Ret (Some [b], Some (Text (UnknownHeaderText [b]))),
             RState st bc el)
       else Early.read_loop self fuel (RState st bc el).
Proof.
  intros Hb. cbn [Early.read_loop]. unfold bind at 1. rewrite read_one.
  rewrite bytes_eqb_neq by (unfold SPARTN_PREB; congruence).
  destruct (_ =? 2); [reflexivity|]. destruct (_ =? 1); reflexivity.
Qed.

Lemma early_read_garbage b st bc el :
  b <> x73 ->
  Early.read self (RState (b :: st) bc el) =
  if Early._quitonerror self =? 2
  then (Raise (SPARTNStreamError (UnknownProtocolDotText [b])), RState st bc el)
  else if Early._quitonerror self =? 1
       then (Ret (Some [b], Some (Text (UnknownHeaderText [b]))),
             RState st bc el)
       else Early.read self (RState st bc el).
Proof.
  intros Hb. unfold Early.read, try_except. cbn [stream List.length].
  rewrite early_read_loop_garbage by assumption.
  destruct (_ =? 2); [reflexivity|]. destruct (_ =? 1); reflexivity.
Qed.

Lemma early_read_empty el :
  runs (Early.read self) [] el (Ret (None, None)) [] el.
Proof. intros bc. exists bc. reflexivity. Qed.

(** A turn that starts at a frame laid out as this reader delimits it. *)
Lemma early_read_frame f rest el :
  well_formed Early.aln f ->
  runs (Early.read self) (frame_bytes f ++ rest) el
       (match early_frame_outcome f with
        | Ret (raw, m) => Ret (Some raw, Some (Record_ m))
        | Raise EOFError => Ret (None, None)
        | Raise e => Raise e
        | OutOfFuel => OutOfFuel
        end) rest el.
Proof.
  intros W bc. destruct (early_parse_frame f rest el W bc) as [bc' E].
  exists bc'. unfold Early.read, try_except. cbn [stream].
  rewrite frame_bytes_length. cbn [Early.read_loop]. unfold bind at 1.
  change (frame_bytes f ++ rest) with (x73 :: (frame_body f ++ rest)).
  rewrite read_one, bytes_eqb_refl. unfold bind.
  change [x73] with SPARTN_PREB. rewrite E.
  destruct (early_frame_outcome f) as [[raw m]|e|]; try reflexivity.
  destruct e; reflexivity.
Qed.

Lemma early_read_loop_ends fuel s :
  (List.length (stream s) < fuel)%nat ->
  fst (Early.read_loop self fuel s) <> OutOfFuel.
Proof.
  revert s. induction fuel as [|fuel IH]; intros s L; [lia|].
  cbn [Early.read_loop]. unfold bind at 1.
  destruct (_read_bytes 1 s) as [[byte1|e|] s1] eqn:R.
  - apply read_bytes_shortens in R; [|lia].
    destruct (bytes_eqb byte1 SPARTN_PREB).
    + assert (K : keeps_in_range
                    ('(raw_data, parsed_data) <- Early._parse_spartn byte1 ;;
                     ret (Some raw_data, Some (Record_ parsed_data)))
                    (fun _ => True)).
      { eapply kir_bind; [apply kir_early_parse_spartn|]. intros [raw m] _.
        apply kir_ret. exact I. }
      destruct (K s1) as (_ & _ & _ & N & _). exact N.
    + destruct (_ =? 2); [cbn; discriminate|].
      destruct (_ =? 1); [cbn; discriminate|].
      apply IH. lia.
  - cbn. discriminate.
  - destruct s as [st bc el]. rewrite read_bytes_eq in R.
    destruct (len st <? 1); inversion R.
Qed.

Lemma early_read_ends s : fst (Early.read self s) <> OutOfFuel.
Proof.
  unfold Early.read, try_except.
  pose proof (early_read_loop_ends (S (List.length (stream s))) s
                ltac:(lia)) as N.
  destruct (Early.read_loop self _ s) as [[v|e|] s1]; cbn [fst] in *;
    try discriminate; [|congruence].
  destruct e; cbn; discriminate.
Qed.

End EarlyRead.

(* ===================================================================== *)
(** ** Iterating over a stream of frames *)
(* ===================================================================== *)

Lemma valid_late_outcome `{Collaborators} self f m :
  valid_late self f m -> late_frame_outcome self f = Ret (frame_bytes f, m).
Proof.
  intros [W C M]. unfold late_frame_outcome. rewrite M.
  destruct (truthy (Z.land (Late._validate self) VALCRC)); [|reflexivity].
  specialize (C eq_refl). unfold crc_ok in C. unfold valid_crc.
  rewrite C, Z.eqb_refl. reflexivity.
Qed.

Lemma valid_early_outcome `{Collaborators} f m :
  valid_early f m -> early_frame_outcome f = Ret (frame_bytes f, m).
Proof. intros [W M]. unfold early_frame_outcome. rewrite M. reflexivity. Qed.

(** The stream made of the given frames, and what iterating yields. *)
Lemma frames_length `{Collaborators} (fms : list (frame * SPARTNMessage)) :
  (List.length fms
   <= List.length (List.concat (map (fun fm => frame_bytes (fst fm)) fms)))%nat.
Proof.
  induction fms as [|[f m] fms IH]; [cbn; lia|].
  cbn [map List.concat fst]. rewrite length_app.
  change (frame_bytes f) with (x73 :: frame_body f). cbn [List.length]. lia.
Qed.

Lemma late_for_loop_frames `{Collaborators} self
    (fms : list (frame * SPARTNMessage)) :
  Forall (fun fm => valid_late self (fst fm) (snd fm)) fms ->
  forall fuel el, (List.length fms < fuel)%nat ->
  generates (Late.for_loop self fuel)
    (List.concat (map (fun fm => frame_bytes (fst fm)) fms)) el
    (map (fun fm => (Some (frame_bytes (fst fm)), Some (Record_ (snd fm)))) fms)
    (Ret tt) [] el.
Proof.
  induction 1 as [|[f m] fms V _ IH]; intros fuel el L bc;
    (destruct fuel as [|fuel]; [cbn in L; lia|]).
  - exists bc. reflexivity.
  - cbn [map List.concat fst snd List.length] in *.
    destruct (late_read_frame_ok self f
                (List.concat (map (fun fm => frame_bytes (fst fm)) fms)) el
                (frame_bytes f) m (vl_wf V) (valid_late_outcome _ _ _ V) bc)
      as [bc1 E1].
    destruct (IH fuel el ltac:(lia) bc1) as [bc2 E2].
    exists bc2. cbn [Late.for_loop]. unfold Late.__next__, Late.__iter__, bind.
    rewrite E1. cbn [ret]. rewrite E2. reflexivity.
Qed.

Lemma early_for_loop_frames `{Collaborators} self q eh
    (fms : list (frame * SPARTNMessage)) :
  Forall (fun fm => valid_early (fst fm) (snd fm)) fms ->
  forall fuel el, (List.length fms < fuel)%nat ->
  generates (Early.iterate_loop self q eh fuel)
    (List.concat (map (fun fm => frame_bytes (fst fm)) fms)) el
    (map (fun fm => (frame_bytes (fst fm), Some (Record_ (snd fm)))) fms)
    (Ret tt) [] el.
Proof.
  induction 1 as [|[f m] fms V _ IH]; intros fuel el L bc;
    (destruct fuel as [|fuel]; [cbn in L; lia|]).
  - exists bc. reflexivity.
  - cbn [map List.concat fst snd List.length] in *.
    destruct (early_read_frame self f
                (List.concat (map (fun fm => frame_bytes (fst fm)) fms)) el
                (ve_wf V) bc) as [bc1 E1].
    rewrite (valid_early_outcome _ _ V) in E1.
    destruct (IH fuel el ltac:(lia) bc1) as [bc2 E2].
    exists bc2. cbn [Early.iterate_loop]. unfold Early.__next__, bind.
    rewrite E1. cbn [ret]. rewrite E2. reflexivity.
Qed.

(* ===================================================================== *)
(** ** A stream that ends inside a frame *)
(* ===================================================================== *)

Lemma read_bytes_zero s : _read_bytes 0 s = ret [] s.
Proof.
  destruct s as [st bc el]. rewrite read_bytes_eq.
  pose proof (len_nonneg st). destruct (Z.ltb_spec (len st) 0); [lia|].
  reflexivity.
Qed.

Lemma late_embAuth_as_read `{Collaborators} f s :
  Late.pull_embAuth
    (pd_authInd (payDesc_info (Some 0) (f_eaf f) (f_payDesc f)))
    (pd_embAuthLen (payDesc_info (Some 0) (f_eaf f) (f_payDesc f))) s =
  _read_bytes (embAuth_len embAuth_table f) s.
Proof.
  unfold embAuth_len, payDesc_info, Late.pull_embAuth, f_authInd, f_embAuthLen,
    f_timeTagtype.
  cbn [pd_authInd pd_embAuthLen].
  destruct (truthy (f_eaf f)); cbn [andb deref]; unfold bind, ret.
  - destruct (_ >? 1).
    + rewrite late_aln_table. reflexivity.
    + symmetry. apply read_bytes_zero.
  - cbn. symmetry. apply read_bytes_zero.
Qed.

Lemma early_embAuth_as_read `{Collaborators} f s :
  Early.pull_embAuth (f_eaf f)
    (pd_authInd (payDesc_info None (f_eaf f) (f_payDesc f)))
    (pd_embAuthLen (payDesc_info None (f_eaf f) (f_payDesc f))) s =
  _read_bytes (embAuth_len Early.aln f) s.
Proof.
  unfold embAuth_len, payDesc_info, Early.pull_embAuth, f_authInd, f_embAuthLen,
    f_timeTagtype.
  cbn [pd_authInd pd_embAuthLen].
  destruct (truthy (f_eaf f)); cbn [andb deref]; unfold bind, ret.
  - destruct (_ >? 1).
    + reflexivity.
    + symmetry. apply read_bytes_zero.
  - symmetry. apply read_bytes_zero.
Qed.

(** Reading the next part [a] of a frame from a stream [p] that ends
    before the frame does: the stream ends inside [a], or [a] is read and
    the stream still ends before the frame does. *)
Lemma read_prefix_cases {B} n (a r p q : bytes) el (k : bytes -> M B) :
  len a = n -> p ++ q = a ++ r ->
  (forall p', p = a ++ p' -> p' ++ q = r ->
              runs (k a) p' el (Raise EOFError) [] el) ->
  runs (bind (_read_bytes n) k) p el (Raise EOFError) [] el.
Proof.
  intros La E K. destruct (Z.lt_ge_cases (len p) n) as [L|L].
  - apply runs_bind_raise, runs_read_bytes_eof. exact L.
  - destruct (app_eq_split p q a r E ltac:(lia)) as (p' & -> & E').
    eapply runs_bind; [apply runs_read_bytes; exact La|].
    apply K; auto.
Qed.

Lemma runs_ext {A} (m m' : M A) st el r st' el' :
  (forall s, m s = m' s) -> runs m' st el r st' el' -> runs m st el r st' el'.
Proof. intros E R bc. rewrite E. apply R. Qed.

Lemma bind_ext {A B} (m m' : M A) (k : A -> M B) s :
  (forall s, m s = m' s) -> bind m k s = bind m' k s.
Proof. intros E. unfold bind. rewrite E. reflexivity. Qed.

Lemma bind_assoc {A B C} (m : M A) (k : A -> M B) (k' : B -> M C) s :
  bind (bind m k) k' s = bind m (fun a => bind (k a) k') s.
Proof. unfold bind. destruct (m s) as [[a|e|] s1]; reflexivity. Qed.

(** The payload-descriptor stage on a stream that ends before the frame. *)
Lemma payDesc_prefix_cases a0 eaf pd r p q :
  len pd = payDesc_len eaf (bits pd 4 1) -> p ++ q = pd ++ r ->
  (payDesc_result a0 eaf p = Raise EOFError /\ payDesc_rest eaf p = []) \/
  (exists p', p = pd ++ p' /\ p' ++ q = r /\
              payDesc_result a0 eaf p = Ret (payDesc_info a0 eaf pd) /\
              payDesc_rest eaf p = p').
Proof.
  intros L E. pose proof (payDesc_len_bounds eaf (bits pd 4 1)) as B.
  destruct (Z.lt_ge_cases (len p) (len pd)) as [S|S].
  - left. apply payDesc_result_short.
    destruct (Z.lt_ge_cases (len p) 4) as [S4|S4]; [left; exact S4 | right].
    symmetry in E.
    destruct (app_eq_split pd r p q E ltac:(lia)) as (x & -> & _).
    rewrite bits_app in L by lia. rewrite <- L. exact S.
  - right. destruct (app_eq_split p q pd r E ltac:(lia)) as (p' & -> & E').
    exists p'. destruct (payDesc_result_some a0 eaf pd p' L) as [R1 R2].
    auto.
Qed.

Lemma late_parse_prefix `{Collaborators} self f p q el :
  well_formed embAuth_table f -> p ++ q = frame_body f -> q <> [] ->
  runs (Late._parse_spartn self SPARTN_PREB) p el (Raise EOFError) [] el.
Proof.
  intros [Wfs Wpd Wpl Wea Wcrc] E Q.
  rewrite <- (app_nil_r (frame_body f)), frame_body_assoc in E.
  unfold Late._parse_spartn, Late.pull_framestart.
  eapply runs_ext; [intros s; apply bind_assoc|].
  eapply read_prefix_cases; [exact Wfs | exact E |]. intros p1 -> E1.
  eapply runs_bind.
  { do 3 (eapply runs_bind; [apply runs_call_bitsval; lia|]). apply runs_ret. }
  cbv beta iota. fold (f_eaf f) (f_nData f) (f_crcType f).
  pose proof (late_pull_payDesc_runs (f_eaf f) p1 el) as P.
  destruct (payDesc_prefix_cases (Some 0) (f_eaf f) (f_payDesc f) _ p1 q Wpd E1)
    as [[R1 R2] | (p2 & -> & E2 & R1 & R2)]; rewrite R1, R2 in P.
  { apply runs_bind_raise. exact P. }
  eapply runs_bind; [exact P|].
  eapply read_prefix_cases; [exact Wpl | exact E2 |]. intros p3 -> E3.
  eapply runs_ext; [intros s; apply bind_ext; intros s'; apply late_embAuth_as_read|].
  eapply read_prefix_cases; [exact Wea | exact E3 |]. intros p4 -> E4.
  eapply read_prefix_cases; [exact Wcrc | exact E4 |]. intros p5 -> E5.
  apply app_eq_nil in E5 as [_ E5]. contradiction.
Qed.

Lemma early_parse_prefix `{Collaborators} f p q el :
  well_formed Early.aln f -> p ++ q = frame_body f -> q <> [] ->
  runs (Early._parse_spartn SPARTN_PREB) p el (Raise EOFError) [] el.
Proof.
  intros [Wfs Wpd Wpl Wea Wcrc] E Q.
  rewrite <- (app_nil_r (frame_body f)), frame_body_assoc in E.
  unfold Early._parse_spartn, Early.pull_framestart.
  eapply runs_ext; [intros s; apply bind_assoc|].
  eapply read_prefix_cases; [exact Wfs | exact E |]. intros p1 -> E1.
  eapply runs_bind.
  { do 5 (eapply runs_bind; [apply runs_call_bitsval; lia|]). apply runs_ret. }
  cbv beta iota. fold (f_eaf f) (f_nData f) (f_crcType f).
  pose proof (early_pull_payDesc_runs (f_eaf f) p1 el) as P.
  destruct (payDesc_prefix_cases None (f_eaf f) (f_payDesc f) _ p1 q Wpd E1)
    as [[R1 R2] | (p2 & -> & E2 & R1 & R2)]; rewrite R1, R2 in P.
  { apply runs_bind_raise. exact P. }
  eapply runs_bind; [exact P|].
  eapply read_prefix_cases; [exact Wpl | exact E2 |]. intros p3 -> E3.
  eapply runs_ext;
    [intros s; apply bind_ext; intros s'; apply early_embAuth_as_read|].
  eapply read_prefix_cases; [exact Wea | exact E3 |]. intros p4 -> E4.
  eapply read_prefix_cases; [exact Wcrc | exact E4 |]. intros p5 -> E5.
  apply app_eq_nil in E5 as [_ E5]. contradiction.
Qed.

(** [read] on a stream that ends inside a frame, after its preamble. *)
Lemma late_read_prefix `{Collaborators} self f p q el :
  well_formed embAuth_table f -> p ++ q = frame_body f -> q <> [] ->
  runs (Late.read self) (x73 :: p) el (Ret (None, None)) [] el.
Proof.
  intros W E Q bc. destruct (late_parse_prefix self f p q el W E Q bc) as [bc' P].
  exists bc'. unfold Late.read. cbn [stream List.length].
  rewrite late_read_loop_step. unfold Late.read_try, bind.
  rewrite read_one, bytes_eqb_refl. cbn [negb].
  change [x73] with SPARTN_PREB. rewrite P. reflexivity.
Qed.

Lemma early_read_prefix `{Collaborators} self f p q el :
  well_formed Early.aln f -> p ++ q = frame_body f -> q <> [] ->
  runs (Early.read self) (x73 :: p) el (Ret (None, None)) [] el.
Proof.
  intros W E Q bc. destruct (early_parse_prefix f p q el W E Q bc) as [bc' P].
  exists bc'. unfold Early.read, try_except. cbn [stream List.length].
  cbn [Early.read_loop]. unfold bind at 1.
  rewrite read_one, bytes_eqb_refl. unfold bind.
  change [x73] with SPARTN_PREB. rewrite P. reflexivity.
Qed.

(* ===================================================================== *)
(** ** Flipping the CRC bytes *)
(* ===================================================================== *)












(* ===================================================================== *)
(** ** The iterations end *)
(* ===================================================================== *)


(** Unless it stops at the end of the stream, the later [read] leaves a
    shorter stream. *)
Lemma late_read_loop_shortens `{Collaborators} self fuel a b s :
  fst (Late.read_loop self fuel a b s) = Ret (None, None) \/
  fst (Late.read_loop self fuel a b s) = OutOfFuel \/
  (List.length (stream (snd (Late.read_loop self fuel a b s)))
   < List.length (stream s))%nat.
Proof.
  revert a b s. induction fuel as [|fuel IH]; intros a b s; [right; left; reflexivity|].
  rewrite late_read_loop_step.
  destruct (late_read_try_cases self s) as (N & _ & C).
  destruct (Late.read_try self s) as [[v|e|] s1] eqn:E; cbn [fst snd] in *.
  - right; right. destruct C as [C|C]; [discriminate | exact C].
  - destruct e; try (right; right; destruct C as [C|C];
                     [discriminate | exact C]);
      try (left; reflexivity);
      cbn [late_caught];
      (destruct C as [C|C]; [discriminate|]);
      (destruct (_ =? ERRRAISE); [right; right; exact C|]);
      match goal with
      | |- context [Late.read_loop self fuel None None ?st] =>
          destruct (IH None None st) as [R|[R|R]];
          [left; exact R | right; left; exact R
           | right; right; cbn [stream] in R; lia]
      end.
  - congruence.
Qed.

Lemma late_for_loop_ends `{Collaborators} self fuel s :
  (List.length (stream s) < fuel)%nat ->
  snd (fst (Late.for_loop self fuel s)) <> OutOfFuel.
Proof.
  revert s. induction fuel as [|fuel IH]; intros s L; [lia|].
  cbn [Late.for_loop]. unfold Late.__next__, Late.__iter__, bind.
  pose proof (late_read_ends self s) as N.
  pose proof (late_read_loop_shortens self (S (List.length (stream s)))
                None None s) as C.
  fold (Late.read self s) in C.
  destruct (Late.read self s) as [[[raw p]|e|] s1]; cbn [fst snd] in *;
    [ | destruct e; cbn; discriminate | congruence].
  destruct C as [C|[C|C]]; [injection C as -> -> | discriminate | ].
  - cbn. discriminate.
  - assert (G : snd (fst (let '(items, r, s'') := Late.for_loop self fuel s1 in
                          ((raw, p) :: items, r, s''))) <> OutOfFuel).
    { specialize (IH s1 ltac:(lia)).
      destruct (Late.for_loop self fuel s1) as [[items r] s2]. exact IH. }
    destruct raw as [raw|], p as [p|]; cbn [ret raise]; try exact G.
    cbn. discriminate.
Qed.

(** Iterating the later reader ends. *)
Lemma late_iterating_ends `{Collaborators} self s :
  snd (fst (Late.iterating self s)) <> OutOfFuel.
Proof. unfold Late.iterating. apply late_for_loop_ends. lia. Qed.

Lemma early_read_loop_shortens `{Collaborators} self fuel s :
  fst (Early.read_loop self fuel s) = Raise EOFError \/
  fst (Early.read_loop self fuel s) = OutOfFuel \/
  (List.length (stream (snd (Early.read_loop self fuel s)))
   < List.length (stream s))%nat.
Proof.
  revert s. induction fuel as [|fuel IH]; intros s; [right; left; reflexivity|].
  remember (Early.read_loop self (S fuel) s) as r eqn:Er.
  cbn [Early.read_loop] in Er. unfold bind at 1 in Er.
  destruct (_read_bytes 1 s) as [[byte1|e|] s1] eqn:R.
  - apply read_bytes_shortens in R; [|lia].
    destruct (bytes_eqb byte1 SPARTN_PREB).
    + assert (K : keeps_in_range
                    ('(raw_data, parsed_data) <- Early._parse_spartn byte1 ;;
                     ret (Some raw_data, Some (Record_ parsed_data)))
                    (fun _ => True)).
      { eapply kir_bind; [apply kir_early_parse_spartn|]. intros [raw m] _.
        apply kir_ret. exact I. }
      destruct (K s1) as (_ & L & _). subst r. right; right. lia.
    + destruct (_ =? 2); [subst r; right; right; exact R|].
      destruct (_ =? 1); [subst r; right; right; exact R|].
      subst r.
      destruct (IH s1) as [C|[C|C]]; [left; exact C | right; left; exact C
                                     | right; right; lia].
  - subst r. left. destruct s as [st bc el]. rewrite read_bytes_eq in R.
    destruct (len st <? 1); inversion R. reflexivity.
  - destruct s as [st bc el]. rewrite read_bytes_eq in R.
    destruct (len st <? 1); inversion R.
Qed.

(** Unless it stops at the end of the stream, the earlier [read] leaves
    a shorter stream. *)
Lemma early_read_shortens `{Collaborators} self s :
  fst (Early.read self s) = Ret (None, None) \/
  (List.length (stream (snd (Early.read self s))) < List.length (stream s))%nat.
Proof.
  pose proof (early_read_loop_ends self (S (List.length (stream s))) s
                ltac:(lia)) as N.
  pose proof (early_read_loop_shortens self (S (List.length (stream s))) s) as C.
  unfold Early.read, try_except.
  destruct (Early.read_loop self _ s) as [[v|e|] s1]; cbn [fst snd] in *.
  - right. destruct C as [C|[C|C]]; [discriminate | discriminate | exact C].
  - destruct e; cbn; try (left; reflexivity);
      (destruct C as [C|[C|C]]; [discriminate | discriminate | right; exact C]).
  - congruence.
Qed.

Lemma early_iterate_loop_ends `{Collaborators} self q eh fuel s :
  (List.length (stream s) < fuel)%nat ->
  snd (fst (Early.iterate_loop self q eh fuel s)) <> OutOfFuel.
Proof.
  revert s. induction fuel as [|fuel IH]; intros s L; [lia|].
  cbn [Early.iterate_loop]. unfold Early.__next__, bind.
  pose proof (early_read_ends self s) as N.
  pose proof (early_read_shortens self s) as C.
  destruct (Early.read self s) as [[[raw p]|e|] s1]; cbn [fst snd] in *;
    [ | | congruence].
  - destruct C as [C|C]; [injection C as -> ->; cbn; discriminate|].
    destruct raw as [raw|]; cbn [ret raise]; [|cbn; discriminate].
    specialize (IH s1 ltac:(lia)).
    destruct (Early.iterate_loop self q eh fuel s1) as [[items r] s2]. exact IH.
  - destruct C as [C|C]; [discriminate|].
    destruct e; try (cbn; discriminate);
      (destruct (q =? 2); [cbn; discriminate|]);
      apply IH; destruct (q =? 1); cbn [log snd stream]; lia.
Qed.

(** The generator [iterate] of the earlier reader ends. *)
Lemma early_iterate_ends `{Collaborators} self quitonerror errorhandler s :
  snd (fst (Early.iterate self quitonerror errorhandler s)) <> OutOfFuel.
Proof. unfold Early.iterate. apply early_iterate_loop_ends. lia. Qed.

(* ===================================================================== *)
(** ** The payload descriptor in the two variants *)
(* ===================================================================== *)

Lemma payDesc_split_inv eaf st pd rest :
  payDesc_split eaf st = Some (pd, rest) ->
  st = pd ++ rest /\ len pd = payDesc_len eaf (bits pd 4 1).
Proof.
  unfold payDesc_split.
  destruct (Z.ltb_spec (len st) 4) as [|L4]; [discriminate|]. cbv zeta.
  destruct (Z.ltb_spec (len st) (payDesc_len eaf (bits st 4 1))) as [|Ln];
    [discriminate|].
  intros [= <- <-]. pose proof (payDesc_len_bounds eaf (bits st 4 1)) as B.
  split; [symmetry; apply firstn_skipn|].
  assert (Lf : len (firstn (Z.to_nat (payDesc_len eaf (bits st 4 1))) st)
               = payDesc_len eaf (bits st 4 1)).
  { unfold len in *. rewrite length_firstn. lia. }
  rewrite Lf. rewrite bits_firstn by lia. reflexivity.
Qed.

(** C7: on every stream and for every value of [eaf] and of the
    [timeTagtype] bit, the payload-descriptor stages of the earlier and of
    the later reader end the same way (both at end of file, or both with a
    descriptor), leave the same stream, assemble the same descriptor bytes
    -- 4, plus 2 when [timeTagtype] is set, plus 2 when [eaf] is set, taken
    from the front of the stream -- and, when [eaf] is set, read [authInd]
    and [embAuthLen] as the same 3-bit fields at the same bit positions. *)
Theorem payDesc_variants_agree `{Collaborators} (eaf : Z) (s : rstate) :
  let e := Early.pull_payDesc eaf s in
  let l := Late.pull_payDesc eaf s in
  stream (snd e) = stream (snd l) /\
  match fst e, fst l with
  | Ret pe, Ret pl =>
      let t := pd_timeTagtype pl in
      pd_bytes pe = pd_bytes pl /\
      stream s = pd_bytes pl ++ stream (snd l) /\
      len (pd_bytes pl) =
        4 + (if truthy t then 2 else 0) + (if truthy eaf then 2 else 0) /\
      pd_timeTagtype pe = t /\
      t = bits (pd_bytes pl) 4 1 /\
      Early.authInd_pos t = Late.authInd_pos t /\
      Early.embAuthLen_pos t = Late.embAuthLen_pos t /\
      if truthy eaf then
        pd_authInd pe = Some (bits (pd_bytes pl) (Early.authInd_pos t) 3) /\
        pd_authInd pl = Some (bits (pd_bytes pl) (Late.authInd_pos t) 3) /\
        pd_embAuthLen pe = Some (bits (pd_bytes pl) (Early.embAuthLen_pos t) 3) /\
        pd_embAuthLen pl = Some (bits (pd_bytes pl) (Late.embAuthLen_pos t) 3)
      else True
  | Raise EOFError, Raise EOFError => stream (snd l) = []
  | _, _ => False
  end.
Proof.
  destruct s as [st bc el]. cbv zeta.
  destruct (early_pull_payDesc_runs eaf st el bc) as [bc1 ->].
  destruct (late_pull_payDesc_runs eaf st el bc) as [bc2 ->].
  cbn [fst snd stream]. split; [reflexivity|].
  unfold payDesc_result, payDesc_rest.
  destruct (payDesc_split eaf st) as [[pd rest]|] eqn:S; [|reflexivity].
  apply payDesc_split_inv in S as [-> L].
  unfold payDesc_info. cbn [pd_bytes pd_timeTagtype pd_authInd pd_embAuthLen].
  destruct (positions_agree (bits pd 4 1)) as [P1 P2].
  repeat split; try assumption; try reflexivity.
  rewrite P1, P2. destruct (truthy eaf); auto.
Qed.

(* ===================================================================== *)
(** ** The [bitsval] calls of the framing stay in range *)
(* ===================================================================== *)

(** C10: in both reader variants, on every stream (so for every value of
    the header bits and every byte content), each [bitsval] call that
    [_parse_spartn] makes reads a bit range inside the buffer it is given
    -- the 3-byte frame start or the 4-, 6- or 8-byte payload descriptor
    as assembled at that point -- and so returns a value: the failure
    branch of [bitsval] is not taken during framing. *)
Theorem framing_bitsval_calls_in_range `{Collaborators}
    (self : Late.SPARTNReader) (preamble st : bytes) (el : list logged) :
  let framed (c : bitcall) :=
    bc_offset c + bc_width c <= 8 * bc_buflen c /\
    In (bc_buflen c) [3; 4; 6; 8] /\
    call_succeeds c in
  Forall framed
    (bitcalls (snd (Early._parse_spartn preamble (RState st [] el)))) /\
  Forall framed
    (bitcalls (snd (Late._parse_spartn self preamble (RState st [] el)))).
Proof.
  cbv zeta.
  assert (G : forall l, Forall framing_call l ->
            Forall (fun c => bc_offset c + bc_width c <= 8 * bc_buflen c /\
                             In (bc_buflen c) [3; 4; 6; 8] /\ call_succeeds c) l).
  { intros l Fl. eapply Forall_impl; [|exact Fl].
    intros c Hc. pose proof (framing_call_succeeds c Hc) as S.
    destruct Hc as [R B]. auto. }
  split; apply G.
  - destruct (kir_early_parse_spartn preamble (RState st [] el))
      as ((calls & -> & Fc) & _). exact Fc.
  - destruct (kir_late_parse_spartn self preamble (RState st [] el))
      as ((calls & -> & Fc) & _). exact Fc.
Qed.

(* ===================================================================== *)
(** ** The constructor and the key *)
(* ===================================================================== *)

(** C9: constructing the later reader with [decrypt] true and no key --
    the [key] argument absent (or passed as [None]) and [MQTTKEY] not in
    the environment -- raises [ParameterError], and leaves the stream and
    the rest of the state as they were: nothing has been read. *)
Theorem init_requires_key (kw : Late.kwargs) (s : rstate) :
  Late.kw_decrypt kw = Some true ->
  Late.kw_key kw = None \/ Late.kw_key kw = Some None ->
  Late.__init__ kw None s = (Raise (ParameterError KeyRequiredText), s).
Proof.
  intros D K. unfold Late.__init__, Late.get. rewrite D.
  destruct K as [-> | ->]; reflexivity.
Qed.

Lemma init_requires_key_witness :
  let kw := {| Late.kw_bufsize := None; Late.kw_validate := None;
               Late.kw_quitonerror := None; Late.kw_errorhandler := false;
               Late.kw_decrypt := Some true; Late.kw_key := None |} in
  Late.kw_decrypt kw = Some true /\
  Late.__init__ kw None (start (frame_bytes plain_frame))
  = (Raise (ParameterError KeyRequiredText), start (frame_bytes plain_frame)).
Proof.
  cbv zeta. split; [reflexivity|].
  apply init_requires_key; [reflexivity | left; reflexivity].
Defined.

(* ===================================================================== *)
(** ** The CRC check *)
(* ===================================================================== *)



Lemma plain_frame_well_formed : well_formed embAuth_table plain_frame.
Proof. constructor; reflexivity. Qed.

Lemma plain_frame_crc_ok : @crc_ok sample_collaborators plain_frame.
Proof. reflexivity. Qed.




(* ===================================================================== *)
(** ** A stream that ends inside a frame *)
(* ===================================================================== *)

Lemma late_read_eof `{Collaborators} self st bc el :
  fst (Late._parse_spartn self SPARTN_PREB (RState st bc el)) = Raise EOFError ->
  fst (Late.read self (RState (x73 :: st) bc el)) = Ret (None, None) /\
  errlog (snd (Late.read self (RState (x73 :: st) bc el))) = el.
Proof.
  intros E.
  destruct (kir_late_parse_spartn self SPARTN_PREB (RState st bc el))
    as (_ & _ & G & _).
  destruct (Late._parse_spartn self SPARTN_PREB (RState st bc el))
    as [r s'] eqn:P.
  cbn [fst snd errlog] in *. subst r.
  assert (R : Late.read self (RState (x73 :: st) bc el)
              = (Ret (None, None), s')).
  { unfold Late.read. cbn [stream List.length].
    rewrite late_read_loop_step. unfold Late.read_try, bind.
    rewrite read_one, bytes_eqb_refl. cbn [negb].
    change [x73] with SPARTN_PREB. rewrite P. reflexivity. }
  rewrite R. auto.
Qed.

Lemma early_read_eof `{Collaborators} self st bc el :
  fst (Early._parse_spartn SPARTN_PREB (RState st bc el)) = Raise EOFError ->
  fst (Early.read self (RState (x73 :: st) bc el)) = Ret (None, None) /\
  errlog (snd (Early.read self (RState (x73 :: st) bc el))) = el.
Proof.
  intros E.
  destruct (kir_early_parse_spartn SPARTN_PREB (RState st bc el))
    as (_ & _ & G & _).
  destruct (Early._parse_spartn SPARTN_PREB (RState st bc el))
    as [r s'] eqn:P.
  cbn [fst snd errlog] in *. subst r.
  assert (R : Early.read self (RState (x73 :: st) bc el)
              = (Ret (None, None), s')).
  { unfold Early.read, try_except. cbn [stream List.length].
    cbn [Early.read_loop]. unfold bind at 1.
    rewrite read_one, bytes_eqb_refl. unfold bind.
    change [x73] with SPARTN_PREB. rewrite P. reflexivity. }
  rewrite R. auto.
Qed.

(** C6: when the stream ends after the preamble of a frame and before the
    last of its frame start, payload descriptor, payload, embedded
    authentication and CRC bytes, [read] returns [(None, None)] and raises
    nothing, in both variants and whatever [quitonerror] is.  First, for
    every stream: if a read of [_parse_spartn] meets the end of the stream
    ([EOFError]), [read] returns [(None, None)] and logs nothing.  Second,
    that is what happens when the stream is 0x73 and then a proper prefix
    [p] of what follows the preamble in a frame whose parts have the
    lengths the reader computes from its header. *)
Theorem read_at_truncated_frame `{Collaborators} (el : list logged) :
  (forall self st bc,
     fst (Late._parse_spartn self SPARTN_PREB (RState st bc el))
     = Raise EOFError ->
     fst (Late.read self (RState (x73 :: st) bc el)) = Ret (None, None) /\
     errlog (snd (Late.read self (RState (x73 :: st) bc el))) = el) /\
  (forall self st bc,
     fst (Early._parse_spartn SPARTN_PREB (RState st bc el)) = Raise EOFError ->
     fst (Early.read self (RState (x73 :: st) bc el)) = Ret (None, None) /\
     errlog (snd (Early.read self (RState (x73 :: st) bc el))) = el) /\
  (forall f p q, p ++ q = frame_body f -> q <> [] ->
     (forall self, well_formed embAuth_table f ->
        runs (Late._parse_spartn self SPARTN_PREB) p el (Raise EOFError) [] el /\
        runs (Late.read self) (x73 :: p) el (Ret (None, None)) [] el) /\
     (forall self, well_formed Early.aln f ->
        runs (Early._parse_spartn SPARTN_PREB) p el (Raise EOFError) [] el /\
        runs (Early.read self) (x73 :: p) el (Ret (None, None)) [] el)).
Proof.
  split; [intros; apply late_read_eof; assumption|].
  split; [intros; apply early_read_eof; assumption|].
  intros f p q E Q. split; intros self W; split.
  - eapply late_parse_prefix; eassumption.
  - eapply late_read_prefix; eassumption.
  - eapply early_parse_prefix; eassumption.
  - eapply early_read_prefix; eassumption.
Qed.

Lemma plain_frame_well_formed_early : well_formed Early.aln plain_frame.
Proof. constructor; reflexivity. Qed.

Lemma read_at_truncated_frame_witness :
  [x00; x00; x80; x00; x00; x00; x00; xab] ++ [xb4] = frame_body plain_frame /\
  [xb4] <> [] /\
  well_formed embAuth_table plain_frame /\
  well_formed Early.aln plain_frame /\
  runs (@Late.read sample_collaborators (late_reader 1))
    [x73; x00; x00; x80; x00; x00; x00; x00; xab] []
    (Ret (None, None)) [] [] /\
  runs (@Early.read sample_collaborators (Early.__init__ None))
    [x73; x00; x00; x80; x00; x00; x00; x00; xab] []
    (Ret (None, None)) [] [].
Proof.
  assert (E : [x00; x00; x80; x00; x00; x00; x00; xab] ++ [xb4]
              = frame_body plain_frame) by reflexivity.
  assert (Q : [xb4] <> []) by discriminate.
  split; [exact E|]. split; [exact Q|].
  split; [exact plain_frame_well_formed|].
  split; [exact plain_frame_well_formed_early|].
  pose proof (proj2 (proj2 (@read_at_truncated_frame sample_collaborators []))
                plain_frame [x00; x00; x80; x00; x00; x00; x00; xab] [xb4] E Q)
    as [L R].
  split; [apply L, plain_frame_well_formed
         | apply R, plain_frame_well_formed_early].
Defined.

(* ===================================================================== *)
(** ** Bytes before the preamble *)
(* ===================================================================== *)

Lemma late_read_skips `{Collaborators} self g st bc el :
  Forall (fun b => b <> x73) g -> Late._quitonerror self <> ERRRAISE ->
  Late.read self (RState (g ++ st) bc el) =
  Late.read self
    (RState st bc
       (el ++ flat_map (fun b => late_logged self (UnknownProtocolText [b])) g)).
Proof.
  intros G Q. revert el. induction G as [|b g Hb _ IH]; intros el.
  - cbn. rewrite app_nil_r. reflexivity.
  - cbn [app flat_map]. rewrite late_read_garbage by assumption.
    rewrite IH, app_assoc. reflexivity.
Qed.

Lemma early_read_skips `{Collaborators} self g st bc el :
  Forall (fun b => b <> x73) g ->
  Early._quitonerror self <> 1 -> Early._quitonerror self <> 2 ->
  Early.read self (RState (g ++ st) bc el) = Early.read self (RState st bc el).
Proof.
  intros G Q1 Q2. induction G as [|b g Hb _ IH]; [reflexivity|].
  cbn [app]. rewrite early_read_garbage by assumption.
  destruct (Z.eqb_spec (Early._quitonerror self) 2); [contradiction|].
  destruct (Z.eqb_spec (Early._quitonerror self) 1); [contradiction|].
  exact IH.
Qed.

(** C4, amended: on a stream [garbage ++ valid_frame ++ rest] whose
    garbage has no 0x73 byte, the later [read] with [quitonerror <= 1]
    discards every garbage byte -- printing "Unknown protocol" for each,
    or handing it to the error handler, when [quitonerror] is 1 -- and
    returns the pair of the valid frame.  The earlier [read] does so when
    [quitonerror] is below 1; when it is 1, each call of the earlier
    [read] returns one garbage byte with the text "<UNKNOWN
    PROTOCOL(header=...)>", and the call that finds the frame at the
    front of the stream returns its pair. *)
Theorem read_resyncs_after_garbage `{Collaborators} (g rest : bytes)
    (el : list logged) :
  Forall (fun b => b <> x73) g ->
  (forall self f m,
     Late._quitonerror self <= 1 -> valid_late self f m ->
     runs (Late.read self) (g ++ frame_bytes f ++ rest) el
          (Ret (Some (frame_bytes f), Some (Record_ m))) rest
          (el ++ flat_map
                   (fun b => late_logged self (UnknownProtocolText [b])) g)) /\
  (forall self f m,
     Early._quitonerror self < 1 -> valid_early f m ->
     runs (Early.read self) (g ++ frame_bytes f ++ rest) el
          (Ret (Some (frame_bytes f), Some (Record_ m))) rest el) /\
  (forall self b st,
     Early._quitonerror self = 1 -> b <> x73 ->
     runs (Early.read self) (b :: st) el
          (Ret (Some [b], Some (Text (UnknownHeaderText [b])))) st el) /\
  (forall self f m,
     valid_early f m ->
     runs (Early.read self) (frame_bytes f ++ rest) el
          (Ret (Some (frame_bytes f), Some (Record_ m))) rest el).
Proof.
  intros G. repeat split.
  - intros self f m Q V bc.
    rewrite late_read_skips by (unfold ERRRAISE; first [assumption | lia]).
    apply late_read_frame_ok; [apply V | apply valid_late_outcome, V].
  - intros self f m Q V bc. rewrite early_read_skips by (assumption || lia).
    pose proof (early_read_frame self f rest el (ve_wf V)) as R.
    rewrite (valid_early_outcome _ _ V) in R. apply R.
  - intros self b st Q Hb bc. exists bc.
    rewrite early_read_garbage by assumption. rewrite Q. reflexivity.
  - intros self f m V.
    pose proof (early_read_frame self f rest el (ve_wf V)) as R.
    rewrite (valid_early_outcome _ _ V) in R. exact R.
Qed.

Lemma plain_frame_valid_late :
  @valid_late sample_collaborators (late_reader 1) plain_frame
    (frame_bytes plain_frame).
Proof.
  constructor;
    [exact plain_frame_well_formed | intros _; exact plain_frame_crc_ok
     | reflexivity].
Qed.

Lemma garbage_has_no_preamble : Forall (fun b => b <> x73) [x00; x01].
Proof. repeat constructor; discriminate. Qed.

Lemma read_resyncs_after_garbage_witness :
  Forall (fun b => b <> x73) [x00; x01] /\
  Late._quitonerror (late_reader 1) <= 1 /\
  @valid_late sample_collaborators (late_reader 1) plain_frame
    (frame_bytes plain_frame) /\
  runs (@Late.read sample_collaborators (late_reader 1))
    ([x00; x01] ++ frame_bytes plain_frame ++ []) []
    (Ret (Some (frame_bytes plain_frame),
          Some (@Record_ sample_collaborators (frame_bytes plain_frame)))) []
    ([] ++ flat_map (fun b => late_logged (late_reader 1)
                                (UnknownProtocolText [b])) [x00; x01]).
Proof.
  assert (Q : Late._quitonerror (late_reader 1) <= 1) by (cbn; lia).
  split; [exact garbage_has_no_preamble|]. split; [exact Q|].
  split; [exact plain_frame_valid_late|].
  exact (proj1 (@read_resyncs_after_garbage sample_collaborators
                  [x00; x01] [] [] garbage_has_no_preamble)
               (late_reader 1) plain_frame (frame_bytes plain_frame)
               Q plain_frame_valid_late).
Defined.

(** C4 as stated fails on the earlier reader with [quitonerror] 1, its
    default: on one garbage byte and a valid frame, [read] returns the
    garbage byte and a text, and leaves the frame in the stream. *)
Lemma early_read_returns_garbage_byte :
  Early._quitonerror (Early.__init__ None) = 1 /\
  @valid_early sample_collaborators plain_frame (frame_bytes plain_frame) /\
  @Early.read sample_collaborators (Early.__init__ None)
    (start (x00 :: frame_bytes plain_frame)) =
  (Ret (Some [x00], Some (@Text sample_collaborators (UnknownHeaderText [x00]))),
   start (frame_bytes plain_frame)).
Proof.
  split; [reflexivity|]. split; [|reflexivity].
  constructor; [exact plain_frame_well_formed_early | reflexivity].
Qed.

(* ===================================================================== *)
(** ** The embedded authentication data *)
(* ===================================================================== *)

(** The later reader follows the table: with [authInd > 1] it pulls 8, 12,
    16, 32 or 64 bytes for [embAuthLen] 0 to 4 and none for another value;
    with [authInd <= 1] it pulls nothing; and [authInd] is 0 when the
    frame is not encrypted. *)
Lemma late_embAuth_follows_table `{Collaborators} (authInd embAuthLen : Z)
    (s : rstate) :
  Late.pull_embAuth (Some authInd) (Some embAuthLen) s =
  (if authInd >? 1 then _read_bytes (embAuth_table embAuthLen) s
   else (Ret [], s)) /\
  (forall eaf, truthy eaf = false ->
     match fst (Late.pull_payDesc eaf s) with
     | Ret pd => pd_authInd pd = Some 0
     | _ => True
     end).
Proof.
  split.
  - unfold Late.pull_embAuth, bind, deref, ret.
    destruct (authInd >? 1); [|reflexivity].
    rewrite late_aln_table. reflexivity.
  - intros eaf E. destruct s as [st bc el].
    destruct (late_pull_payDesc_runs eaf st el bc) as [bc' ->]. cbn [fst].
    unfold payDesc_result. destruct (payDesc_split eaf st) as [[pd r]|]; [|exact I].
    unfold payDesc_info. cbn [pd_authInd]. rewrite E. reflexivity.
Qed.

(** C3 fails on the earlier reader: it takes [(embAuthLen + 1) * 8] bytes.
    For [embAuthLen] 0 to 7 that is 8, 16, 24, 32, 40, 48, 56, 64 where the
    table has 8, 12, 16, 32, 64, 0, 0, 0; on the header of [auth_frame]
    ([eaf] 1, [authInd] 2, [embAuthLen] 1) and sixteen bytes it pulls all
    sixteen, where the later reader pulls twelve. *)
Theorem early_embAuth_length_differs :
  map Early.aln [0; 1; 2; 3; 4; 5; 6; 7] = [8; 16; 24; 32; 40; 48; 56; 64] /\
  map embAuth_table [0; 1; 2; 3; 4; 5; 6; 7] = [8; 12; 16; 32; 64; 0; 0; 0] /\
  map Late.aln [0; 1; 2; 3; 4; 5; 6; 7] = [8; 12; 16; 32; 64; 0; 0; 0] /\
  (f_eaf auth_frame, f_authInd auth_frame, f_embAuthLen auth_frame) = (1, 2, 1) /\
  Early.pull_embAuth 1 (Some 2) (Some 1) (start (f_embAuth auth_frame_early))
  = (Ret (f_embAuth auth_frame_early), start []) /\
  Late.pull_embAuth (Some 2) (Some 1) (start (f_embAuth auth_frame_early))
  = (Ret (f_embAuth auth_frame), start [x0d; x0e; x0f; x10]).
Proof.
  split; [vm_compute; reflexivity|]. split; [vm_compute; reflexivity|].
  split; [vm_compute; reflexivity|]. split; [vm_compute; reflexivity|].
  split; vm_compute; reflexivity.
Qed.

(* ===================================================================== *)
(** ** Iterating over a stream of frames *)
(* ===================================================================== *)

(** The later reader: iterating over the stream of [k] valid frames
    yields [k] pairs, one per frame, and their raw bytes, put end to end,
    are the stream. *)
Lemma late_iterating_roundtrip `{Collaborators} self
    (fms : list (frame * SPARTNMessage)) (el : list logged) :
  Forall (fun fm => valid_late self (fst fm) (snd fm)) fms ->
  exists items,
    generates (Late.iterating self)
      (List.concat (map (fun fm => frame_bytes (fst fm)) fms)) el
      items (Ret tt) [] el /\
    items = map (fun fm => (Some (frame_bytes (fst fm)),
                            Some (Record_ (snd fm)))) fms /\
    List.length items = List.length fms /\
    List.concat (map (fun it => match fst it with
                                | Some raw => raw
                                | None => []
                                end) items)
    = List.concat (map (fun fm => frame_bytes (fst fm)) fms).
Proof.
  intros V. eexists. split; [|split; [reflexivity|split]].
  - intros bc. unfold Late.iterating. cbn [stream].
    apply late_for_loop_frames; [exact V|].
    pose proof (frames_length fms). lia.
  - apply length_map.
  - rewrite map_map. reflexivity.
Qed.

(** The earlier reader, on frames laid out as it delimits them. *)
Lemma early_iterate_roundtrip `{Collaborators} self quitonerror errorhandler
    (fms : list (frame * SPARTNMessage)) (el : list logged) :
  Forall (fun fm => valid_early (fst fm) (snd fm)) fms ->
  generates (Early.iterate self quitonerror errorhandler)
    (List.concat (map (fun fm => frame_bytes (fst fm)) fms)) el
    (map (fun fm => (frame_bytes (fst fm), Some (Record_ (snd fm)))) fms)
    (Ret tt) [] el.
Proof.
  intros V bc. unfold Early.iterate. cbn [stream].
  apply early_for_loop_frames; [exact V|].
  pose proof (frames_length fms). lia.
Qed.

(** C2 fails on the earlier reader, the one with [iterate]: the stream of
    the one frame [auth_frame] -- well formed by the table of the format,
    twelve bytes of embedded authentication data, CRC valid -- yields no
    pair, since that reader waits for sixteen bytes and meets the end of
    the stream; iterating the later reader over it yields the frame. *)
Theorem early_iterate_drops_auth_frame :
  well_formed embAuth_table auth_frame /\
  @crc_ok sample_collaborators auth_frame /\
  fst (fst (@Early.iterate sample_collaborators (Early.__init__ None) None false
              (start (frame_bytes auth_frame)))) = [] /\
  snd (fst (@Early.iterate sample_collaborators (Early.__init__ None) None false
              (start (frame_bytes auth_frame)))) = Ret tt /\
  fst (fst (@Late.iterating sample_collaborators (late_reader 1)
              (start (frame_bytes auth_frame))))
  = [(Some (frame_bytes auth_frame),
      Some (@Record_ sample_collaborators (frame_bytes auth_frame)))].
Proof.
  split; [constructor; vm_compute; reflexivity|].
  split; [vm_compute; reflexivity|].
  split; [vm_compute; reflexivity|].
  split; vm_compute; reflexivity.
Qed.

(* ===================================================================== *)
(** ** Errors that are ignored *)
(* ===================================================================== *)



(* ===================================================================== *)
(** ** The scoping of the payload schemas *)
(* ===================================================================== *)

(** C8 fails on the registry.  In the OCB schemas of Galileo, BeiDou and
    QZSS the bit-count groups name "SF102", "SF105" and the like, while
    the mask fields are keyed "SF0102", "SF0105"; in the HPAC schemas the
    conditionals name "SF040I" and "SF041I", which are keys nowhere (the
    area block has "SF040i").  These violate even the weakest reading of
    the invariant, that the identifier is a plain field key standing
    somewhere earlier in the schema; the GPS and GLONASS OCB schemas and
    the GAD schema satisfy the invariant as stated. *)
Theorem registry_scoping_violations :
  Schema.registry_scoped = false /\
  Schema.registry_ordered = false /\
  map (fun nd => (fst nd, Schema.order_violations (snd nd)))
      Schema.SPARTN_PAYLOADS_GET
  = (let hpac := [("optSF040I-12", "SF040I"); ("optSF040I-12", "SF041I");
                  ("optSF040I-2", "SF041I")] in
    [("SPARTN-1X-OCB-GPS", []);
     ("SPARTN-1X-OCB-GLO", []);
     ("SPARTN-1X-OCB-GAL",
      [("groupSF102-BITS", "SF102"); ("groupSF105-BITS", "SF105")]);
     ("SPARTN-1X-OCB-BEI",
      [("groupSF103-BITS", "SF103"); ("groupSF106-BITS", "SF106")]);
     ("SPARTN-1X-OCB-QZS",
      [("groupSF104-BITS", "SF104"); ("groupSF107-BITS", "SF107")]);
     ("SPARTN-1X-HPAC-GPS", hpac);
     ("SPARTN-1X-HPAC-GLO", hpac);
     ("SPARTN-1X-HPAC-GAL", hpac);
     ("SPARTN-1X-HPAC-BEI", hpac);
     ("SPARTN-1X-HPAC-QZS", hpac);
     ("SPARTN-1X-GAD", []);
     ("SPARTN-1X-BPAC", []);
     ("SPARTN-1X-EAS-DYN", []);
     ("SPARTN-1X-EAS-GRP", [])])%string /\
  map (fun name => Schema.scope_violations
                     (match find (fun nd => String.eqb (fst nd) name)
                                 Schema.SPARTN_PAYLOADS_GET with
                      | Some nd => snd nd
                      | None => []
                      end))
      ["SPARTN-1X-OCB-GPS"; "SPARTN-1X-OCB-GLO"; "SPARTN-1X-GAD"]%string
  = [[]; []; []].
Proof.
  split; [vm_compute; reflexivity|]. split; [vm_compute; reflexivity|].
  split; vm_compute; reflexivity.
Qed.

(* ===================================================================== *)
(** ** Every stream starts with a frame or ends inside one *)
(* ===================================================================== *)

Lemma table_bounds l : 0 <= l < 8 -> 0 <= embAuth_table l <= 64.
Proof.
  intros L.
  assert (C : l = 0 \/ l = 1 \/ l = 2 \/ l = 3 \/ l = 4 \/ l = 5 \/ l = 6 \/ l = 7)
    by lia.
  destruct C as [->|[->|[->|[->|[->|[->|[->| ->]]]]]]]; cbn; lia.
Qed.

Lemma early_aln_bounds l : 0 <= l < 8 -> 0 <= Early.aln l <= 64.
Proof. unfold Early.aln. lia. Qed.

Lemma embAuth_len_bounds aln f :
  (forall l, 0 <= l < 8 -> 0 <= aln l <= 64) -> 0 <= embAuth_len aln f <= 64.
Proof.
  intros A. unfold embAuth_len. destruct (_ && _); [|lia].
  apply A. unfold f_embAuthLen.
  pose proof (bits_bound (f_payDesc f) (Late.embAuthLen_pos (f_timeTagtype f)) 3
                ltac:(lia)) as B.
  change (2 ^ 3) with 8 in B. exact B.
Qed.

(** The length of a frame whose parts have the lengths its header
    announces. *)
Lemma well_formed_length aln f :
  (forall l, 0 <= l < 8 -> 0 <= aln l <= 64) -> well_formed aln f ->
  len (frame_bytes f)
  = 1 + 3 + payDesc_len (f_eaf f) (f_timeTagtype f) + f_nData f
    + embAuth_len aln f + (f_crcType f + 1) /\
  9 <= len (frame_bytes f) <= 1103.
Proof.
  intros A [Wfs Wpd Wpl Wea Wcrc].
  assert (E : len (frame_bytes f)
              = 1 + 3 + payDesc_len (f_eaf f) (f_timeTagtype f) + f_nData f
                + embAuth_len aln f + (f_crcType f + 1)).
  { unfold frame_bytes, frame_core, SPARTN_PREB.
    rewrite !len_app, len_cons, len_nil. lia. }
  split; [exact E|]. rewrite E.
  pose proof (payDesc_len_bounds (f_eaf f) (f_timeTagtype f)).
  pose proof (embAuth_len_bounds aln f A).
  pose proof (bits_bound (f_framestart f) 7 10 ltac:(lia)) as Bn.
  pose proof (bits_bound (f_framestart f) 18 2 ltac:(lia)) as Bc.
  change (2 ^ 10) with 1024 in Bn. change (2 ^ 2) with 4 in Bc.
  unfold f_nData, f_crcType. lia.
Qed.

(** A stream of 1102 bytes or more starts with what follows the preamble
    in a frame. *)
Lemma frame_cut aln st :
  (forall l, 0 <= l < 8 -> 0 <= aln l <= 64) -> 1102 <= len st ->
  exists f rest, st = frame_body f ++ rest /\ well_formed aln f.
Proof.
  intros A L.
  destruct (read_bytes_cases 3 st) as [S | (fs & st1 & -> & Lfs)]; [lia | lia |].
  rewrite len_app in L.
  destruct (payDesc_split (bits fs 17 1) st1) as [[pd st2]|] eqn:S.
  2:{ exfalso. unfold payDesc_split in S.
      pose proof (payDesc_len_bounds (bits fs 17 1) (bits st1 4 1)).
      destruct (Z.ltb_spec (len st1) 4); [lia|]. cbv zeta in S.
      destruct (Z.ltb_spec (len st1) (payDesc_len (bits fs 17 1) (bits st1 4 1)));
        [lia | discriminate]. }
  apply payDesc_split_inv in S as [-> Lpd]. rewrite len_app in L.
  pose proof (payDesc_len_bounds (bits fs 17 1) (bits pd 4 1)).
  pose proof (bits_bound fs 7 10 ltac:(lia)) as Bn.
  pose proof (bits_bound fs 18 2 ltac:(lia)) as Bc.
  change (2 ^ 10) with 1024 in Bn. change (2 ^ 2) with 4 in Bc.
  destruct (read_bytes_cases (bits fs 7 10) st2) as [S | (pl & st3 & -> & Lpl)];
    [lia | lia |].
  rewrite len_app in L.
  pose proof (embAuth_len_bounds aln (Frame fs pd pl [] []) A) as Be.
  destruct (read_bytes_cases (embAuth_len aln (Frame fs pd pl [] [])) st3)
    as [S | (ea & st4 & -> & Lea)]; [lia | lia |].
  rewrite len_app in L.
  destruct (read_bytes_cases (bits fs 18 2 + 1) st4)
    as [S | (crcb & rest & -> & Lcrc)]; [lia | lia |].
  exists (Frame fs pd pl ea crcb), rest. split.
  - rewrite frame_body_assoc. reflexivity.
  - constructor; assumption.
Qed.

(** Any stream starts with what follows the preamble in a frame, or is a
    proper prefix of it. *)
Lemma frame_or_prefix aln st :
  (forall l, 0 <= l < 8 -> 0 <= aln l <= 64) ->
  (exists f rest, st = frame_body f ++ rest /\ well_formed aln f) \/
  (exists f q, well_formed aln f /\ st ++ q = frame_body f /\ q <> []).
Proof.
  intros A.
  destruct (frame_cut aln (st ++ repeat x00 1102) A) as (f & rest & E & W).
  { rewrite len_app. pose proof (len_nonneg st).
    unfold len at 2. rewrite repeat_length. lia. }
  destruct (Z.le_gt_cases (len (frame_body f)) (len st)) as [L|L].
  - left. destruct (app_eq_split st _ (frame_body f) rest E L) as (p' & -> & _).
    exists f, p'. auto.
  - right. symmetry in E.
    destruct (app_eq_split (frame_body f) rest st _ E ltac:(lia))
      as (q & Eq & _).
    exists f, q. split; [exact W|]. split; [symmetry; exact Eq|].
    intros ->. rewrite app_nil_r in Eq. rewrite Eq in L. lia.
Qed.

(** X1: on every stream the later [_parse_spartn] does one of two things.
    Either the stream starts with all that follows the preamble in a frame
    laid out as its header announces (by the table of the embedded
    authentication lengths): then exactly that frame is consumed and the
    result is decided by the CRC check and the message class alone.  Or
    the stream ends inside such a frame: then [EOFError] is raised and the
    stream is left empty.  Nothing is logged, and the framing rejects no
    byte for its content. *)
Theorem late_parse_spartn_frame_or_eof `{Collaborators}
    (self : Late.SPARTNReader) (st : bytes) (el : list logged) :
  (exists f rest,
     st = frame_body f ++ rest /\ well_formed embAuth_table f /\
     runs (Late._parse_spartn self SPARTN_PREB) st el
          (late_frame_outcome self f) rest el) \/
  (exists f q,
     well_formed embAuth_table f /\ st ++ q = frame_body f /\ q <> [] /\
     runs (Late._parse_spartn self SPARTN_PREB) st el (Raise EOFError) [] el).
Proof.
  destruct (frame_or_prefix embAuth_table st table_bounds)
    as [(f & rest & E & W) | (f & q & W & E & Q)].
  - left. exists f, rest. split; [exact E|]. split; [exact W|].
    rewrite E. apply late_parse_frame. exact W.
  - right. exists f, q. split; [exact W|]. split; [exact E|].
    split; [exact Q|]. eapply late_parse_prefix; eassumption.
Qed.

(** X2: the same for the earlier [_parse_spartn], which lays the frame
    out with [(embAuthLen + 1) * 8] bytes of embedded authentication data
    and checks no CRC: a whole frame is consumed and handed to the message
    class, or the stream ends inside the frame and [EOFError] is raised. *)
Theorem early_parse_spartn_frame_or_eof `{Collaborators}
    (st : bytes) (el : list logged) :
  (exists f rest,
     st = frame_body f ++ rest /\ well_formed Early.aln f /\
     runs (Early._parse_spartn SPARTN_PREB) st el
          (early_frame_outcome f) rest el) \/
  (exists f q,
     well_formed Early.aln f /\ st ++ q = frame_body f /\ q <> [] /\
     runs (Early._parse_spartn SPARTN_PREB) st el (Raise EOFError) [] el).
Proof.
  destruct (frame_or_prefix Early.aln st early_aln_bounds)
    as [(f & rest & E & W) | (f & q & W & E & Q)].
  - left. exists f, rest. split; [exact E|]. split; [exact W|].
    rewrite E. apply early_parse_frame. exact W.
  - right. exists f, q. split; [exact W|]. split; [exact E|].
    split; [exact Q|]. eapply early_parse_prefix; eassumption.
Qed.

(* ===================================================================== *)
(** ** The later [read] on any stream *)
(* ===================================================================== *)

Section LateReads.
Context `{Collaborators}.
Variable self : Late.SPARTNReader.

(** What makes [_parse_spartn] raise on a whole frame. *)
Lemma late_frame_outcome_raise f e :
  late_frame_outcome self f = Raise e ->
  (truthy (Z.land (Late._validate self) VALCRC) = true /\
   e = SPARTNParseError (InvalidCRCText (int_from_bytes_big (f_crcb f)))) \/
  new_message_transport (frame_bytes f) (Late._decrypt self) (Late._key self)
    (Late._validate self) = inl e.
Proof.
  unfold late_frame_outcome.
  destruct (truthy (Z.land (Late._validate self) VALCRC)); cbn [andb].
  - destruct (negb _); [intros [= <-]; left; auto|].
    destruct (new_message_transport _ _ _ _); [intros [= <-]; right; reflexivity
                                              | discriminate].
  - destruct (new_message_transport _ _ _ _); [intros [= <-]; right; reflexivity
                                              | discriminate].
Qed.

Lemma late_frame_outcome_ret f raw m :
  well_formed embAuth_table f ->
  late_frame_outcome self f = Ret (raw, m) ->
  raw = frame_bytes f /\ valid_late self f m.
Proof.
  intros W. unfold late_frame_outcome.
  destruct (truthy (Z.land (Late._validate self) VALCRC)) eqn:V; cbn [andb].
  - destruct (valid_crc _ _ _) eqn:C; cbn [negb]; [|discriminate].
    destruct (new_message_transport _ _ _ _) eqn:M; [discriminate|].
    intros [= <- <-]. split; [reflexivity|].
    constructor; [exact W | | exact M].
    intros _. unfold crc_ok. unfold valid_crc in C.
    apply Z.eqb_eq in C. exact C.
  - destruct (new_message_transport _ _ _ _) eqn:M; [discriminate|].
    intros [= <- <-]. split; [reflexivity|].
    constructor; [exact W | | exact M]. intros V'. congruence.
Qed.

Lemma late_frame_outcome_ends f : late_frame_outcome self f <> OutOfFuel.
Proof.
  unfold late_frame_outcome. destruct (_ && _); [discriminate|].
  destruct (new_message_transport _ _ _ _); discriminate.
Qed.

Lemma late_read_garbage_raise b st bc el :
  b <> x73 -> Late._quitonerror self = ERRRAISE ->
  Late.read self (RState (b :: st) bc el) =
  (Raise (SPARTNParseError (UnknownProtocolText [b])), RState st bc el).
Proof.
  intros Hb Hq. unfold Late.read. cbn [stream List.length].
  rewrite late_read_loop_step.
  unfold Late.read_try at 1. unfold bind at 1. rewrite read_one.
  rewrite bytes_eqb_neq by (unfold SPARTN_PREB; congruence).
  cbn [negb raise str late_caught stream bitcalls errlog].
  rewrite Hq. reflexivity.
Qed.

(** A frame [_parse_spartn] rejects with an exception [read] does not
    handle: the end of the iteration for [EOFError], the exception itself
    for another. *)
Lemma late_read_frame_other f rest el e :
  well_formed embAuth_table f ->
  late_frame_outcome self f = Raise e -> late_caught e = false ->
  runs (Late.read self) (frame_bytes f ++ rest) el
       (match e with EOFError => Ret (None, None) | _ => Raise e end) rest el.
Proof.
  intros W O C bc. destruct (late_read_try_frame self f rest el W bc) as [bc' E].
  rewrite O in E. exists bc'. unfold Late.read. cbn [stream].
  rewrite frame_bytes_length, late_read_loop_step, E.
  destruct e; try discriminate C; reflexivity.
Qed.

Lemma late_reads_runs st el r st' el' :
  late_reads self st el r st' el' -> runs (Late.read self) st el r st' el'.
Proof.
  induction 1 as [el | b st el Hb Hq | b st el r st' el' Hb Hq D IH
                 | f p q el W E Q | f m rest el V | f rest el W O
                 | f e rest el W O C Hq | f e rest el r st' el' W O C Hq D IH
                 | f e rest el W O C Ne].
  - apply late_read_empty.
  - intros bc. exists bc. apply late_read_garbage_raise; assumption.
  - intros bc. rewrite late_read_garbage by assumption. apply IH.
  - eapply late_read_prefix; eassumption.
  - apply late_read_frame_ok; [apply V | apply valid_late_outcome, V].
  - apply (late_read_frame_other f rest el EOFError W O eq_refl).
  - pose proof (late_read_frame_err self f rest el e W O C) as R.
    rewrite Hq in R. exact R.
  - pose proof (late_read_frame_err self f rest el e W O C) as R.
    destruct (Z.eqb_spec (Late._quitonerror self) ERRRAISE); [contradiction|].
    intros bc. destruct (R bc) as [bc1 ->]. apply IH.
  - pose proof (late_read_frame_other f rest el e W O C) as R.
    destruct e; try exact R. contradiction.
Qed.

Lemma late_reads_total n st el :
  (List.length st <= n)%nat -> exists r st' el', late_reads self st el r st' el'.
Proof.
  revert st el. induction n as [|n IH]; intros st el L.
  { destruct st; [|cbn in L; lia]. do 3 eexists. apply LR_end. }
  destruct st as [|b st]; [do 3 eexists; apply LR_end|]. cbn in L.
  destruct (Byte.byte_eq_dec b x73) as [->|Hb].
  - destruct (frame_or_prefix embAuth_table st table_bounds)
      as [(f & rest & -> & W) | (f & q & W & E & Q)].
    2:{ do 3 eexists. eapply LR_truncated; eassumption. }
    change (x73 :: frame_body f ++ rest) with (frame_bytes f ++ rest).
    assert (Lr : (List.length rest <= n)%nat) by (rewrite length_app in L; lia).
    destruct (late_frame_outcome self f) as [[raw m]|e|] eqn:O.
    + apply late_frame_outcome_ret in O as [-> V]; [|exact W].
      do 3 eexists. apply LR_frame. exact V.
    + destruct (late_caught e) eqn:C.
      * destruct (Z.eq_dec (Late._quitonerror self) ERRRAISE) as [Hq|Hq].
        -- do 3 eexists. eapply LR_frame_raise; eassumption.
        -- destruct (IH rest (el ++ late_logged self (str e)) Lr)
             as (r & st' & el' & D).
           do 3 eexists. eapply LR_frame_skip; eassumption.
      * destruct e; try discriminate C;
          try (do 3 eexists; eapply LR_frame_uncaught;
               [eassumption | eassumption | exact C | discriminate]).
        do 3 eexists. eapply LR_frame_eof; eassumption.
    + exfalso. exact (late_frame_outcome_ends f O).
  - destruct (Z.eq_dec (Late._quitonerror self) ERRRAISE) as [Hq|Hq].
    + do 3 eexists. apply LR_garbage_raise; assumption.
    + destruct (IH st (el ++ late_logged self (UnknownProtocolText [b]))
                  ltac:(lia)) as (r & st' & el' & D).
      do 3 eexists. eapply LR_garbage_skip; eassumption.
Qed.

(** Every call of [read] runs as [late_reads] tells. *)
Lemma late_read_follows s r s' :
  Late.read self s = (r, s') ->
  late_reads self (stream s) (errlog s) r (stream s') (errlog s').
Proof.
  destruct s as [st bc el]. intros E.
  destruct (late_reads_total (List.length st) st el (le_n _))
    as (r1 & st1 & el1 & D).
  destruct (late_reads_runs _ _ _ _ _ D bc) as [bc1 E1].
  rewrite E1 in E. injection E as <- <-. exact D.
Qed.

(** A call that returns raw bytes returns a valid frame, found in the
    stream after the bytes it passed over. *)
Lemma late_reads_some st el raw p st' el' :
  late_reads self st el (Ret (Some raw, p)) st' el' ->
  exists skipped f m,
    st = skipped ++ raw ++ st' /\ raw = frame_bytes f /\
    p = Some (Record_ m) /\ valid_late self f m.
Proof.
  remember (Ret (Some raw, p)) as r eqn:Er. intros D. revert Er.
  induction D as [el | b st el Hb Hq | b st el r st' el' Hb Hq D IH
                 | f p' q el W E Q | f m rest el V | f rest el W O
                 | f e rest el W O C Hq | f e rest el r st' el' W O C Hq D IH
                 | f e rest el W O C Ne]; intros Er; try discriminate.
  - destruct (IH Er) as (sk & f & m & -> & R & P & V).
    exists (b :: sk), f, m. auto.
  - injection Er as <- <-. exists [], f, m. auto.
  - destruct (IH Er) as (sk & f' & m & -> & R & P & V).
    exists (frame_bytes f ++ sk), f', m. rewrite <- app_assoc. auto.
Qed.

End LateReads.

(** X3: whatever the stream, when the later [read] returns raw bytes they
    are a whole frame as its header lays it out (by the table), of 9 to
    1103 bytes, standing in the stream after the bytes [read] passed over
    and before the bytes it left; the frame passes the CRC check when that
    is enabled, and the second of the pair is the record the message class
    made of these raw bytes. *)
Theorem late_read_returns_valid_frame `{Collaborators}
    (self : Late.SPARTNReader) (s s' : rstate) (raw : bytes)
    (p : option parsed) :
  Late.read self s = (Ret (Some raw, p), s') ->
  exists skipped f m,
    stream s = skipped ++ raw ++ stream s' /\
    raw = frame_bytes f /\ p = Some (Record_ m) /\ valid_late self f m /\
    9 <= len raw <= 1103.
Proof.
  intros E. apply late_read_follows in E.
  apply late_reads_some in E as (sk & f & m & St & R & P & V).
  exists sk, f, m.
  split; [exact St|]. split; [exact R|]. split; [exact P|]. split; [exact V|].
  rewrite R. apply (well_formed_length embAuth_table f table_bounds (vl_wf V)).
Qed.

Lemma late_read_returns_valid_frame_witness :
  let s := start (x00 :: frame_bytes plain_frame ++ [x01]) in
  let r := @Late.read sample_collaborators (late_reader 1) s in
  fst r = Ret (Some (frame_bytes plain_frame),
               Some (@Record_ sample_collaborators (frame_bytes plain_frame))) /\
  exists skipped f m,
    stream s = skipped ++ frame_bytes plain_frame ++ stream (snd r) /\
    frame_bytes plain_frame = frame_bytes f /\
    Some (@Record_ sample_collaborators (frame_bytes plain_frame))
    = Some (Record_ m) /\
    @valid_late sample_collaborators (late_reader 1) f m /\
    9 <= len (frame_bytes plain_frame) <= 1103.
Proof.
  cbv zeta. split; [vm_compute; reflexivity|].
  apply (@late_read_returns_valid_frame sample_collaborators (late_reader 1)
           (start (x00 :: frame_bytes plain_frame ++ [x01]))).
  vm_compute. reflexivity.
Defined.

Section LateReadsMore.
Context `{Collaborators}.
Variable self : Late.SPARTNReader.

(** When the message class does not raise [EOFError], a call that returns
    no raw bytes has met the end of the stream. *)
Lemma late_reads_none st el p st' el' :
  (forall raw d k v, new_message_transport raw d k v <> inl EOFError) ->
  late_reads self st el (Ret (None, p)) st' el' -> p = None /\ st' = [].
Proof.
  intros Hm. remember (Ret (None, p)) as r eqn:Er. intros D. revert Er.
  induction D as [el | b st el Hb Hq | b st el r st' el' Hb Hq D IH
                 | f p' q el W E Q | f m rest el V | f rest el W O
                 | f e rest el W O C Hq | f e rest el r st' el' W O C Hq D IH
                 | f e rest el W O C Ne]; intros Er; try discriminate;
    try (injection Er as <-; auto; fail); try (apply IH; exact Er).
  exfalso. apply late_frame_outcome_raise in O as [[_ O] | O];
    [discriminate | exact (Hm _ _ _ _ O)].
Qed.

(** What a call raises. *)
Lemma late_reads_raise st el e st' el' :
  late_reads self st el (Raise e) st' el' ->
  (exists t, e = SPARTNParseError t /\ Late._quitonerror self = ERRRAISE) \/
  (late_caught e = false /\ e <> EOFError /\
   exists raw, new_message_transport raw (Late._decrypt self) (Late._key self)
                 (Late._validate self) = inl e).
Proof.
  remember (Raise e) as r eqn:Er. intros D. revert Er.
  induction D as [el | b st el Hb Hq | b st el r st' el' Hb Hq D IH
                 | f p' q el W E Q | f m rest el V | f rest el W O
                 | f e' rest el W O C Hq | f e' rest el r st' el' W O C Hq D IH
                 | f e' rest el W O C Ne]; intros Er; try discriminate;
    try (apply IH; exact Er).
  - injection Er as <-. left. eauto.
  - injection Er as <-. left. eauto.
  - injection Er as <-. right.
    apply late_frame_outcome_raise in O as [[_ O] | O].
    + subst e'. discriminate.
    + split; [exact C|]. split; [exact Ne|]. eauto.
Qed.

(** With [quitonerror] not 2 and a message class that raises only what
    [read] handles, a call ends at the end of the stream or returns a
    valid frame. *)
Lemma late_reads_robust st el r st' el' :
  Late._quitonerror self <> ERRRAISE ->
  (forall raw d k v e,
     new_message_transport raw d k v = inl e -> late_caught e = true) ->
  late_reads self st el r st' el' ->
  (r = Ret (None, None) /\ st' = []) \/
  (exists skipped f m,
     r = Ret (Some (frame_bytes f), Some (Record_ m)) /\
     valid_late self f m /\ st = skipped ++ frame_bytes f ++ st').
Proof.
  intros Hq Hm.
  induction 1 as [el | b st el Hb Hq' | b st el r st' el' Hb Hq' D IH
                 | f p' q el W E Q | f m rest el V | f rest el W O
                 | f e rest el W O C Hq' | f e rest el r st' el' W O C Hq' D IH
                 | f e rest el W O C Ne]; try contradiction.
  - left. auto.
  - destruct IH as [[-> ->] | (sk & f & m & -> & V & ->)]; [left; auto|].
    right. exists (b :: sk), f, m. auto.
  - left. auto.
  - right. exists [], f, m. auto.
  - exfalso. apply late_frame_outcome_raise in O as [[_ O] | O];
      [discriminate | apply Hm in O; discriminate].
  - destruct IH as [[-> ->] | (sk & f' & m & -> & V & ->)]; [left; auto|].
    right. exists (frame_bytes f ++ sk), f', m. rewrite <- app_assoc. auto.
  - exfalso. apply late_frame_outcome_raise in O as [[_ O] | O].
    + subst e. discriminate.
    + apply Hm in O. congruence.
Qed.

(** A reader that does not log leaves the log as it is, and a reader
    that logs only adds to it. *)
Lemma late_reads_log st el r st' el' :
  late_reads self st el r st' el' ->
  (exists new, el' = el ++ new) /\
  (Late._quitonerror self <> ERRLOG -> el' = el).
Proof.
  assert (S : forall t, Late._quitonerror self <> ERRLOG ->
                        late_logged self t = []).
  { intros t Q. unfold late_logged.
    destruct (Z.eqb_spec (Late._quitonerror self) ERRLOG);
      [contradiction | reflexivity]. }
  induction 1 as [el | b st el Hb Hq' | b st el r st' el' Hb Hq' D IH
                 | f p' q el W E Q | f m rest el V | f rest el W O
                 | f e rest el W O C Hq' | f e rest el r st' el' W O C Hq' D IH
                 | f e rest el W O C Ne];
    try (split; [exists []; rewrite app_nil_r; reflexivity | reflexivity]).
  - destruct IH as [[new ->] I2]. split.
    + eexists. rewrite <- app_assoc. reflexivity.
    + intros Q. rewrite (I2 Q), (S _ Q). apply app_nil_r.
  - destruct IH as [[new ->] I2]. split.
    + eexists. rewrite <- app_assoc. reflexivity.
    + intros Q. rewrite (I2 Q), (S _ Q). apply app_nil_r.
Qed.

(** One turn of iterating the later reader. *)
Lemma late_for_loop_step fuel s :
  Late.for_loop self (S fuel) s =
  match Late.read self s with
  | (Ret (None, None), s1) => ([], Ret tt, s1)
  | (Ret item, s1) =>
      let '(items, r, s2) := Late.for_loop self fuel s1 in
      (item :: items, r, s2)
  | (Raise StopIteration, s1) => ([], Ret tt, s1)
  | (Raise e, s1) => ([], Raise e, s1)
  | (OutOfFuel, s1) => ([], OutOfFuel, s1)
  end.
Proof.
  cbn [Late.for_loop]. unfold Late.__next__, Late.__iter__, bind.
  destruct (Late.read self s) as [[[[raw|] [p|]]|e|] s1]; reflexivity.
Qed.

End LateReadsMore.

(** X4: when the message class does not raise [EOFError] itself, the
    later [read] returns [(None, None)] only with the stream read to its
    end: it stops at no byte that could still start a frame. *)
Theorem late_read_none_at_end_of_stream `{Collaborators}
    (self : Late.SPARTNReader) (s s' : rstate) (p : option parsed) :
  (forall raw d k v, new_message_transport raw d k v <> inl EOFError) ->
  Late.read self s = (Ret (None, p), s') ->
  p = None /\ stream s' = [].
Proof.
  intros Hm E. apply late_read_follows in E.
  eapply late_reads_none; eassumption.
Qed.

Lemma late_read_none_at_end_of_stream_witness :
  let r := @Late.read sample_collaborators (late_reader 1)
             (start [x00; x73; x00; x00]) in
  fst r = Ret (None, None) /\ stream (snd r) = [].
Proof.
  cbv zeta. split; [vm_compute; reflexivity|].
  refine (proj2 (@late_read_none_at_end_of_stream sample_collaborators
                   (late_reader 1) (start [x00; x73; x00; x00]) _ None _ _)).
  - intros raw d k v. discriminate.
  - vm_compute. reflexivity.
Defined.

(** X5: the later [read] raises only [SPARTNParseError], and only with
    [quitonerror] 2 -- for a byte that is not the preamble, a failed CRC
    check, or a [SPARTNParseError], [SPARTNMessageError] or
    [SPARTNTypeError] of the message class, whose text it keeps -- or an
    exception of another type that the message class raised for a frame.
    It raises no [EOFError] and nothing from the framing itself. *)
Theorem late_read_raises_only `{Collaborators}
    (self : Late.SPARTNReader) (s s' : rstate) (e : exn) :
  Late.read self s = (Raise e, s') ->
  (exists t, e = SPARTNParseError t /\ Late._quitonerror self = ERRRAISE) \/
  (late_caught e = false /\ e <> EOFError /\
   exists raw, new_message_transport raw (Late._decrypt self) (Late._key self)
                 (Late._validate self) = inl e).
Proof.
  intros E. apply late_read_follows in E.
  eapply late_reads_raise. exact E.
Qed.

Lemma late_read_raises_only_witness :
  let r := @Late.read sample_collaborators (late_reader 2)
             (start (frame_bytes bad_crc_frame)) in
  fst r = Raise (SPARTNParseError (InvalidCRCText 75)) /\
  ((exists t, SPARTNParseError (InvalidCRCText 75) = SPARTNParseError t /\
              Late._quitonerror (late_reader 2) = ERRRAISE) \/
   (late_caught (SPARTNParseError (InvalidCRCText 75)) = false /\
    SPARTNParseError (InvalidCRCText 75) <> EOFError /\
    exists raw,
      @new_message_transport sample_collaborators raw
        (Late._decrypt (late_reader 2)) (Late._key (late_reader 2))
        (Late._validate (late_reader 2))
      = inl (SPARTNParseError (InvalidCRCText 75)))).
Proof.
  cbv zeta. split; [vm_compute; reflexivity|].
  apply (@late_read_raises_only sample_collaborators (late_reader 2)
           (start (frame_bytes bad_crc_frame))
           (snd (@Late.read sample_collaborators (late_reader 2)
                   (start (frame_bytes bad_crc_frame))))).
  vm_compute. reflexivity.
Defined.

(** X6: with [quitonerror] 0 or 1 (not 2) and a message class that raises
    only [SPARTNParseError], [SPARTNMessageError] or [SPARTNTypeError],
    iterating the later reader over any bytes whatever raises nothing and
    reads the stream to its end; every item it yields is a valid frame
    with its record, and the frames stand in the stream in the order they
    are yielded, without overlap. *)
Theorem late_iterating_never_raises `{Collaborators}
    (self : Late.SPARTNReader) (st : bytes) (bc : list bitcall)
    (el : list logged) :
  Late._quitonerror self <> ERRRAISE ->
  (forall raw d k v e,
     new_message_transport raw d k v = inl e -> late_caught e = true) ->
  exists items bc' el',
    Late.iterating self (RState st bc el) = (items, Ret tt, RState [] bc' el') /\
    Forall (late_item_valid self) items /\
    slices_of (map late_raw items) st.
Proof.
  intros Hq Hm. unfold Late.iterating. cbn [stream].
  generalize (Nat.lt_succ_diag_r (List.length st)).
  generalize (S (List.length st)) as fuel. intros fuel. revert st bc el.
  induction fuel as [|fuel IH]; intros st bc el L; [lia|].
  rewrite late_for_loop_step.
  destruct (Late.read self (RState st bc el)) as [r [st1 bc1 el1]] eqn:E.
  apply late_read_follows in E. cbn [stream errlog] in E.
  apply late_reads_robust in E as [[-> ->] | (sk & f & m & -> & V & ->)];
    try assumption.
  - exists [], bc1, el1. split; [reflexivity|]. split; [constructor | exact I].
  - destruct (IH st1 bc1 el1) as (items & bc' & el' & -> & F & S).
    { rewrite !length_app in L.
      change (frame_bytes f) with (x73 :: frame_body f) in L. cbn in L. lia. }
    exists ((Some (frame_bytes f), Some (Record_ m)) :: items), bc', el'.
    split; [reflexivity|]. split.
    + constructor; [exists f, m; auto | exact F].
    + cbn [map slices_of]. exists sk, st1. split; [reflexivity | exact S].
Qed.

Lemma late_iterating_never_raises_witness :
  Late._quitonerror (late_reader 1) <> ERRRAISE /\
  exists items bc' el',
    @Late.iterating sample_collaborators (late_reader 1)
      (RState (x00 :: frame_bytes plain_frame ++ frame_bytes bad_crc_frame
                 ++ frame_bytes timetag_frame ++ [x73; x00]) [] [])
    = (items, Ret tt, RState [] bc' el') /\
    Forall (@late_item_valid sample_collaborators (late_reader 1)) items /\
    slices_of (map (@late_raw sample_collaborators) items)
      (x00 :: frame_bytes plain_frame ++ frame_bytes bad_crc_frame
         ++ frame_bytes timetag_frame ++ [x73; x00]).
Proof.
  assert (Q : Late._quitonerror (late_reader 1) <> ERRRAISE)
    by (unfold ERRRAISE; cbn; lia).
  split; [exact Q|].
  apply (@late_iterating_never_raises sample_collaborators (late_reader 1));
    [exact Q|].
  intros raw d k v e E. cbn in E. discriminate E.
Defined.

(* ===================================================================== *)
(** ** Logging does not change what is read *)
(* ===================================================================== *)

Lemma late_frame_outcome_ext `{Collaborators} self1 self2 f :
  Late._validate self1 = Late._validate self2 ->
  Late._decrypt self1 = Late._decrypt self2 ->
  Late._key self1 = Late._key self2 ->
  late_frame_outcome self1 f = late_frame_outcome self2 f.
Proof. intros V D K. unfold late_frame_outcome. rewrite V, D, K. reflexivity. Qed.

Lemma valid_late_ext `{Collaborators} self1 self2 f m :
  Late._validate self1 = Late._validate self2 ->
  Late._decrypt self1 = Late._decrypt self2 ->
  Late._key self1 = Late._key self2 ->
  valid_late self1 f m -> valid_late self2 f m.
Proof.
  intros V D K [W C M]. constructor; [exact W | |].
  - rewrite <- V. exact C.
  - rewrite <- V, <- D, <- K. exact M.
Qed.

(** Two readers that differ in [quitonerror] (neither 2) and in the error
    handler end every call the same way on the same stream. *)
Lemma late_reads_transfer `{Collaborators} self1 self2 st el r st' el' :
  Late._validate self1 = Late._validate self2 ->
  Late._decrypt self1 = Late._decrypt self2 ->
  Late._key self1 = Late._key self2 ->
  Late._quitonerror self1 <> ERRRAISE ->
  Late._quitonerror self2 <> ERRRAISE ->
  late_reads self1 st el r st' el' ->
  forall el2, exists el2', late_reads self2 st el2 r st' el2'.
Proof.
  intros V D K Q1 Q2.
  induction 1 as [el | b st el Hb Hq | b st el r st' el' Hb Hq R IH
                 | f p' q el W E Q | f m rest el Vf | f rest el W O
                 | f e rest el W O C Hq | f e rest el r st' el' W O C Hq R IH
                 | f e rest el W O C Ne]; intros el2.
  - eexists. apply LR_end.
  - contradiction.
  - destruct (IH (el2 ++ late_logged self2 (UnknownProtocolText [b])))
      as [el2' R2].
    eexists. eapply LR_garbage_skip; eassumption.
  - eexists. eapply LR_truncated; eassumption.
  - eexists. apply LR_frame. eapply valid_late_ext; eassumption.
  - eexists. apply LR_frame_eof; [exact W|].
    rewrite <- (late_frame_outcome_ext self1 self2 f V D K). exact O.
  - contradiction.
  - destruct (IH (el2 ++ late_logged self2 (str e))) as [el2' R2].
    eexists. eapply LR_frame_skip; [exact W | | exact C | exact Q2 | exact R2].
    rewrite <- (late_frame_outcome_ext self1 self2 f V D K). exact O.
  - eexists. eapply LR_frame_uncaught; [exact W | | exact C | exact Ne].
    rewrite <- (late_frame_outcome_ext self1 self2 f V D K). exact O.
Qed.

(** X7: [quitonerror] 0 or 1 and the error handler decide what the later
    [read] logs and nothing else.  Two readers with the same [validate],
    [decrypt] and [key], neither with [quitonerror] 2, return the same
    pair (or raise the same exception) and leave the same stream on every
    input; a call only adds to the log, and with [quitonerror] other than
    1 it leaves the log as it was. *)
Theorem late_read_logging_is_transparent `{Collaborators}
    (self1 self2 : Late.SPARTNReader) (s : rstate) :
  Late._validate self1 = Late._validate self2 ->
  Late._decrypt self1 = Late._decrypt self2 ->
  Late._key self1 = Late._key self2 ->
  Late._quitonerror self1 <> ERRRAISE ->
  Late._quitonerror self2 <> ERRRAISE ->
  fst (Late.read self1 s) = fst (Late.read self2 s) /\
  stream (snd (Late.read self1 s)) = stream (snd (Late.read self2 s)) /\
  (exists new, errlog (snd (Late.read self1 s)) = errlog s ++ new) /\
  (Late._quitonerror self1 <> ERRLOG ->
   errlog (snd (Late.read self1 s)) = errlog s).
Proof.
  intros V D K Q1 Q2.
  destruct (Late.read self1 s) as [r1 s1] eqn:E1.
  apply late_read_follows in E1.
  destruct (late_reads_transfer self1 self2 _ _ _ _ _ V D K Q1 Q2 E1 (errlog s))
    as [el2 R2].
  destruct (late_reads_log self1 _ _ _ _ _ E1) as [G S].
  destruct s as [st bc el]. cbn [stream errlog fst snd] in *.
  destruct (late_reads_runs self2 _ _ _ _ _ R2 bc) as [bc2 ->].
  cbn [fst snd stream]. auto.
Qed.

Lemma late_read_logging_is_transparent_witness :
  let s := start (x00 :: frame_bytes bad_crc_frame ++ frame_bytes plain_frame) in
  fst (@Late.read sample_collaborators (late_reader 0) s)
  = fst (@Late.read sample_collaborators (late_reader 1) s) /\
  stream (snd (@Late.read sample_collaborators (late_reader 0) s))
  = stream (snd (@Late.read sample_collaborators (late_reader 1) s)) /\
  (exists new,
     errlog (snd (@Late.read sample_collaborators (late_reader 0) s))
     = errlog s ++ new) /\
  (Late._quitonerror (late_reader 0) <> ERRLOG ->
   errlog (snd (@Late.read sample_collaborators (late_reader 0) s)) = errlog s).
Proof.
  cbv zeta.
  apply (@late_read_logging_is_transparent sample_collaborators
           (late_reader 0) (late_reader 1)); try reflexivity;
    unfold ERRRAISE; cbn; lia.
Defined.

(* ===================================================================== *)
(** ** Frames the message class rejects, and bytes before the preamble *)
(* ===================================================================== *)

(** X8: what the later [read] does with a whole frame that passes the CRC
    check (or is not checked) and that the message class rejects with the
    exception [e].  A [SPARTNParseError], [SPARTNMessageError] or
    [SPARTNTypeError] is raised again as a [SPARTNParseError] with the same
    text when [quitonerror] is 2; otherwise it is logged (when
    [quitonerror] is 1) and [read] goes on with the bytes after the frame.
    An [EOFError] makes [read] return [(None, None)] with the rest of the
    stream unread.  Any other exception is raised as it is, whatever
    [quitonerror]. *)
Theorem late_read_rejected_frame `{Collaborators}
    (self : Late.SPARTNReader) (f : frame) (rest : bytes) (el : list logged)
    (e : exn) :
  well_formed embAuth_table f ->
  (truthy (Z.land (Late._validate self) VALCRC) = true -> crc_ok f) ->
  new_message_transport (frame_bytes f) (Late._decrypt self) (Late._key self)
    (Late._validate self) = inl e ->
  match e with
  | EOFError =>
      runs (Late.read self) (frame_bytes f ++ rest) el (Ret (None, None)) rest el
  | SPARTNParseError t | SPARTNMessageError t | SPARTNTypeError t =>
      if Late._quitonerror self =? ERRRAISE
      then runs (Late.read self) (frame_bytes f ++ rest) el
                (Raise (SPARTNParseError t)) rest el
      else forall bc, exists bc',
          Late.read self (RState (frame_bytes f ++ rest) bc el) =
          Late.read self (RState rest bc' (el ++ late_logged self t))
  | _ => runs (Late.read self) (frame_bytes f ++ rest) el (Raise e) rest el
  end.
Proof.
  intros W C M.
  assert (O : late_frame_outcome self f = Raise e).
  { unfold late_frame_outcome. rewrite M.
    destruct (truthy (Z.land (Late._validate self) VALCRC)); [|reflexivity].
    specialize (C eq_refl). unfold crc_ok in C. unfold valid_crc.
    rewrite C, Z.eqb_refl. reflexivity. }
  destruct e;
    try exact (late_read_frame_other self f rest el _ W O eq_refl);
    exact (late_read_frame_err self f rest el _ W O eq_refl).
Qed.

Lemma late_read_rejected_frame_witness :
  let C := rejecting_collaborators (SPARTNMessageError (OtherText "rejected")) in
  well_formed embAuth_table plain_frame /\
  @crc_ok C plain_frame /\
  runs (@Late.read C (late_reader 2)) (frame_bytes plain_frame ++ [x73]) []
       (Raise (SPARTNParseError (OtherText "rejected"))) [x73] [].
Proof.
  cbv zeta. split; [exact plain_frame_well_formed|].
  split; [reflexivity|].
  exact (@late_read_rejected_frame
           (rejecting_collaborators (SPARTNMessageError (OtherText "rejected")))
           (late_reader 2) plain_frame [x73] []
           (SPARTNMessageError (OtherText "rejected"))
           plain_frame_well_formed (fun _ => eq_refl) eq_refl).
Defined.

(** X9: a byte that is not the preamble, with [quitonerror] 2.  The
    later [read] raises [SPARTNParseError] "Unknown protocol <byte>", the
    earlier one [SPARTNStreamError] "Unknown protocol <byte>."; the byte
    is consumed, the rest of the stream is left untouched and nothing is
    logged, so the next call starts at the byte after it. *)
Theorem read_raises_at_unknown_byte `{Collaborators}
    (b : byte) (st : bytes) (bc : list bitcall) (el : list logged) :
  b <> x73 ->
  (forall self, Late._quitonerror self = ERRRAISE ->
     Late.read self (RState (b :: st) bc el) =
     (Raise (SPARTNParseError (UnknownProtocolText [b])), RState st bc el)) /\
  (forall self, Early._quitonerror self = 2 ->
     Early.read self (RState (b :: st) bc el) =
     (Raise (SPARTNStreamError (UnknownProtocolDotText [b])), RState st bc el)).
Proof.
  intros Hb. split; intros self Hq.
  - apply late_read_garbage_raise; assumption.
  - rewrite early_read_garbage by assumption. rewrite Hq. reflexivity.
Qed.

Lemma read_raises_at_unknown_byte_witness :
  x00 <> x73 /\
  @Late.read sample_collaborators (late_reader 2)
    (RState (x00 :: frame_bytes plain_frame) [] []) =
  (Raise (SPARTNParseError (UnknownProtocolText [x00])),
   RState (frame_bytes plain_frame) [] []) /\
  @Early.read sample_collaborators (early_reader 2)
    (RState (x00 :: frame_bytes plain_frame) [] []) =
  (Raise (SPARTNStreamError (UnknownProtocolDotText [x00])),
   RState (frame_bytes plain_frame) [] []).
Proof.
  assert (Hb : x00 <> x73) by discriminate.
  split; [exact Hb|].
  destruct (@read_raises_at_unknown_byte sample_collaborators x00
              (frame_bytes plain_frame) [] [] Hb) as [L E].
  split; [apply L | apply E]; reflexivity.
Defined.

(* ===================================================================== *)
(** ** The earlier [read] on any stream *)
(* ===================================================================== *)

Section EarlyReads.
Context `{Collaborators}.
Variable self : Early.SPARTNReader.

Lemma early_reads_runs st r st' :
  early_reads self st r st' ->
  forall el, runs (Early.read self) st el r st' el.
Proof.
  induction 1 as [ | b st Hb Hq | b st Hb Hq | b st r st' Hb Hq2 Hq1 D IH
                 | f p q W E Q | f m rest V | f rest W M | f e rest W M Ne];
    intros el.
  - apply early_read_empty.
  - intros bc. exists bc. rewrite early_read_garbage by assumption.
    rewrite Hq. reflexivity.
  - intros bc. exists bc. rewrite early_read_garbage by assumption.
    rewrite Hq. reflexivity.
  - intros bc. rewrite early_read_garbage by assumption.
    destruct (Z.eqb_spec (Early._quitonerror self) 2); [contradiction|].
    destruct (Z.eqb_spec (Early._quitonerror self) 1); [contradiction|].
    apply IH.
  - eapply early_read_prefix; eassumption.
  - pose proof (early_read_frame self f rest el (ve_wf V)) as R.
    rewrite (valid_early_outcome _ _ V) in R. exact R.
  - pose proof (early_read_frame self f rest el W) as R.
    unfold early_frame_outcome in R. rewrite M in R. exact R.
  - pose proof (early_read_frame self f rest el W) as R.
    unfold early_frame_outcome in R. rewrite M in R.
    destruct e; try exact R. contradiction.
Qed.

Lemma early_reads_total n st :
  (List.length st <= n)%nat -> exists r st', early_reads self st r st'.
Proof.
  revert st. induction n as [|n IH]; intros st L.
  { destruct st; [|cbn in L; lia]. do 2 eexists. apply ER_end. }
  destruct st as [|b st]; [do 2 eexists; apply ER_end|]. cbn in L.
  destruct (Byte.byte_eq_dec b x73) as [->|Hb].
  - destruct (frame_or_prefix Early.aln st early_aln_bounds)
      as [(f & rest & -> & W) | (f & q & W & E & Q)].
    2:{ do 2 eexists. eapply ER_truncated; eassumption. }
    change (x73 :: frame_body f ++ rest) with (frame_bytes f ++ rest).
    destruct (new_message_payload (frame_bytes f)) as [e|m] eqn:M.
    + destruct e;
        try (do 2 eexists; eapply ER_frame_raise;
             [eassumption | eassumption | discriminate]).
      do 2 eexists. eapply ER_frame_eof; eassumption.
    + do 2 eexists. apply ER_frame. constructor; eassumption.
  - destruct (Z.eq_dec (Early._quitonerror self) 2) as [Q2|Q2].
    { do 2 eexists. apply ER_garbage_raise; assumption. }
    destruct (Z.eq_dec (Early._quitonerror self) 1) as [Q1|Q1].
    { do 2 eexists. apply ER_garbage_text; assumption. }
    destruct (IH st ltac:(lia)) as (r & st' & D).
    do 2 eexists. eapply ER_garbage_skip; eassumption.
Qed.

(** Every call of the earlier [read] runs as [early_reads] tells, and
    logs nothing. *)
Lemma early_read_follows s r s' :
  Early.read self s = (r, s') ->
  early_reads self (stream s) r (stream s') /\ errlog s' = errlog s.
Proof.
  destruct s as [st bc el]. intros E.
  destruct (early_reads_total (List.length st) st (le_n _)) as (r1 & st1 & D).
  destruct (early_reads_runs _ _ _ D el bc) as [bc1 E1].
  rewrite E1 in E. injection E as <- <-. auto.
Qed.

(** What a call that returns raw bytes returns. *)
Lemma early_reads_some st raw p st' :
  early_reads self st (Ret (Some raw, p)) st' ->
  (exists skipped f m,
     st = skipped ++ raw ++ st' /\ Forall (fun b => b <> x73) skipped /\
     (skipped = [] \/ (Early._quitonerror self <> 1 /\
                       Early._quitonerror self <> 2)) /\
     raw = frame_bytes f /\ p = Some (Record_ m) /\ valid_early f m) \/
  (exists b,
     st = b :: st' /\ b <> x73 /\ raw = [b] /\
     p = Some (Text (UnknownHeaderText [b])) /\ Early._quitonerror self = 1).
Proof.
  remember (Ret (Some raw, p)) as r eqn:Er. intros D. revert Er.
  induction D as [ | b st Hb Hq | b st Hb Hq | b st r st' Hb Hq2 Hq1 D IH
                 | f p' q W E Q | f m rest V | f rest W M | f e rest W M Ne];
    intros Er; try discriminate.
  - injection Er as <- <-. right. exists b. auto.
  - destruct (IH Er) as [(sk & f & m & -> & G & _ & R & P & V)
                        | (b' & _ & _ & _ & _ & Q)]; [|contradiction].
    left. exists (b :: sk), f, m. split; [reflexivity|].
    split; [constructor; assumption|]. split; [right; auto|]. auto.
  - injection Er as <- <-. left. exists [], f, m. split; [reflexivity|].
    split; [constructor|]. split; [left; reflexivity|]. auto.
Qed.

Lemma early_reads_none st p st' :
  (forall raw, new_message_payload raw <> inl EOFError) ->
  early_reads self st (Ret (None, p)) st' -> p = None /\ st' = [].
Proof.
  intros Hm. remember (Ret (None, p)) as r eqn:Er. intros D. revert Er.
  induction D as [ | b st Hb Hq | b st Hb Hq | b st r st' Hb Hq2 Hq1 D IH
                 | f p' q W E Q | f m rest V | f rest W M | f e rest W M Ne];
    intros Er; try discriminate;
    try (injection Er as <-; auto; fail); try (apply IH; exact Er).
  exfalso. exact (Hm _ M).
Qed.

Lemma early_reads_raise st e st' :
  early_reads self st (Raise e) st' ->
  (exists b, e = SPARTNStreamError (UnknownProtocolDotText [b]) /\
             Early._quitonerror self = 2) \/
  (e <> EOFError /\ exists raw, new_message_payload raw = inl e).
Proof.
  remember (Raise e) as r eqn:Er. intros D. revert Er.
  induction D as [ | b st Hb Hq | b st Hb Hq | b st r st' Hb Hq2 Hq1 D IH
                 | f p' q W E Q | f m rest V | f rest W M | f e' rest W M Ne];
    intros Er; try discriminate; try (apply IH; exact Er).
  - injection Er as <-. left. eauto.
  - injection Er as <-. right. eauto.
Qed.

End EarlyReads.

(** X10: whatever the stream, when the earlier [read] returns raw bytes
    they are either a whole frame as that reader lays it out, of 9 to 1103
    bytes, with the record the message class made of it, found after
    bytes that are not the preamble (none of them passed over unless
    [quitonerror] is neither 1 nor 2); or, with [quitonerror] 1, the one
    byte at the front of the stream, which is not the preamble, with the
    text "<UNKNOWN PROTOCOL(header=...)>".  Nothing is logged. *)
Theorem early_read_returns_frame_or_unknown_byte `{Collaborators}
    (self : Early.SPARTNReader) (s s' : rstate) (raw : bytes)
    (p : option parsed) :
  Early.read self s = (Ret (Some raw, p), s') ->
  errlog s' = errlog s /\
  ((exists skipped f m,
      stream s = skipped ++ raw ++ stream s' /\
      Forall (fun b => b <> x73) skipped /\
      (skipped = [] \/ (Early._quitonerror self <> 1 /\
                        Early._quitonerror self <> 2)) /\
      raw = frame_bytes f /\ p = Some (Record_ m) /\ valid_early f m /\
      9 <= len raw <= 1103) \/
   (exists b,
      stream s = b :: stream s' /\ b <> x73 /\ raw = [b] /\
      p = Some (Text (UnknownHeaderText [b])) /\ Early._quitonerror self = 1)).
Proof.
  intros E. apply early_read_follows in E as [D L]. split; [exact L|].
  apply early_reads_some in D as [(sk & f & m & St & G & Q & R & P & V) | D].
  - left. exists sk, f, m.
    split; [exact St|]. split; [exact G|]. split; [exact Q|].
    split; [exact R|]. split; [exact P|]. split; [exact V|].
    rewrite R. apply (well_formed_length Early.aln f early_aln_bounds (ve_wf V)).
  - right. exact D.
Qed.

Lemma early_read_returns_frame_or_unknown_byte_witness :
  let s := start (x00 :: frame_bytes auth_frame_early) in
  let r := @Early.read sample_collaborators (early_reader 0) s in
  fst r = Ret (Some (frame_bytes auth_frame_early),
               Some (@Record_ sample_collaborators
                       (frame_bytes auth_frame_early))) /\
  errlog (snd r) = errlog s /\
  ((exists skipped f m,
      stream s = skipped ++ frame_bytes auth_frame_early ++ stream (snd r) /\
      Forall (fun b => b <> x73) skipped /\
      (skipped = [] \/ (Early._quitonerror (early_reader 0) <> 1 /\
                        Early._quitonerror (early_reader 0) <> 2)) /\
      frame_bytes auth_frame_early = frame_bytes f /\
      Some (@Record_ sample_collaborators (frame_bytes auth_frame_early))
      = Some (Record_ m) /\
      @valid_early sample_collaborators f m /\
      9 <= len (frame_bytes auth_frame_early) <= 1103) \/
   (exists b,
      stream s = b :: stream (snd r) /\ b <> x73 /\
      frame_bytes auth_frame_early = [b] /\
      Some (@Record_ sample_collaborators (frame_bytes auth_frame_early))
      = Some (Text (UnknownHeaderText [b])) /\
      Early._quitonerror (early_reader 0) = 1)).
Proof.
  cbv zeta. split; [vm_compute; reflexivity|].
  apply (@early_read_returns_frame_or_unknown_byte sample_collaborators
           (early_reader 0) (start (x00 :: frame_bytes auth_frame_early))).
  vm_compute. reflexivity.
Defined.

(** X11: when the message class does not raise [EOFError] itself, the
    earlier [read] returns [(None, None)] only with the stream read to
    its end. *)
Theorem early_read_none_at_end_of_stream `{Collaborators}
    (self : Early.SPARTNReader) (s s' : rstate) (p : option parsed) :
  (forall raw, new_message_payload raw <> inl EOFError) ->
  Early.read self s = (Ret (None, p), s') ->
  p = None /\ stream s' = [] /\ errlog s' = errlog s.
Proof.
  intros Hm E. apply early_read_follows in E as [D L].
  destruct (early_reads_none self _ _ _ Hm D) as [P S]. auto.
Qed.

Lemma early_read_none_at_end_of_stream_witness :
  let r := @Early.read sample_collaborators (early_reader 0)
             (start [x00; x73; x00; x00]) in
  fst r = Ret (None, None) /\ stream (snd r) = [].
Proof.
  cbv zeta. split; [vm_compute; reflexivity|].
  refine (proj1 (proj2 (@early_read_none_at_end_of_stream sample_collaborators
                          (early_reader 0) (start [x00; x73; x00; x00])
                          _ None _ _))).
  - intros raw. discriminate.
  - vm_compute. reflexivity.
Defined.

(** X12: the earlier [read] raises only [SPARTNStreamError] "Unknown
    protocol <byte>." -- with [quitonerror] 2, for a byte that is not the
    preamble -- or an exception other than [EOFError] that the message
    class raised for a frame, which it passes on whatever [quitonerror]
    is.  It raises no [EOFError] and nothing from the framing itself. *)
Theorem early_read_raises_only `{Collaborators}
    (self : Early.SPARTNReader) (s s' : rstate) (e : exn) :
  Early.read self s = (Raise e, s') ->
  (exists b, e = SPARTNStreamError (UnknownProtocolDotText [b]) /\
             Early._quitonerror self = 2) \/
  (e <> EOFError /\ exists raw, new_message_payload raw = inl e).
Proof.
  intros E. apply early_read_follows in E as [D _].
  eapply early_reads_raise. exact D.
Qed.

Lemma early_read_raises_only_witness :
  let C := rejecting_collaborators (SPARTNTypeError (OtherText "rejected")) in
  let r := @Early.read C (early_reader 0) (start (frame_bytes plain_frame)) in
  fst r = Raise (SPARTNTypeError (OtherText "rejected")) /\
  ((exists b, SPARTNTypeError (OtherText "rejected")
              = SPARTNStreamError (UnknownProtocolDotText [b]) /\
              Early._quitonerror (early_reader 0) = 2) \/
   (SPARTNTypeError (OtherText "rejected") <> EOFError /\
    exists raw, @new_message_payload C raw
                = inl (SPARTNTypeError (OtherText "rejected")))).
Proof.
  cbv zeta. split; [vm_compute; reflexivity|].
  apply (@early_read_raises_only
           (rejecting_collaborators (SPARTNTypeError (OtherText "rejected")))
           (early_reader 0) (start (frame_bytes plain_frame))
           (snd (@Early.read
                   (rejecting_collaborators
                      (SPARTNTypeError (OtherText "rejected")))
                   (early_reader 0) (start (frame_bytes plain_frame))))).
  vm_compute. reflexivity.
Defined.

(* ===================================================================== *)
(** ** The generator [iterate] of the earlier reader *)
(* ===================================================================== *)

(** One turn of the loop of [iterate]. *)
Lemma early_iterate_loop_step `{Collaborators} self q eh fuel s :
  Early.iterate_loop self q eh (S fuel) s =
  match Early.read self s with
  | (Ret (Some raw, p), s1) =>
      let '(items, r, s2) := Early.iterate_loop self q eh fuel s1 in
      ((raw, p) :: items, r, s2)
  | (Ret (None, _), s1) => ([], Ret tt, s1)
  | (Raise StopIteration, s1) => ([], Ret tt, s1)
  | (Raise e, s1) =>
      if early_caught e then
        if q =? 2 then ([], Raise e, s1)
        else Early.iterate_loop self q eh fuel
               (RState (stream s1) (bitcalls s1)
                       (errlog s1 ++ early_logged q eh (str e)))
      else ([], Raise e, s1)
  | (OutOfFuel, s1) => ([], OutOfFuel, s1)
  end.
Proof.
  cbn [Early.iterate_loop]. unfold Early.__next__, bind.
  destruct (Early.read self s) as [[[[raw|] p]|e|] [st1 bc1 el1]];
    try reflexivity.
  destruct e; try reflexivity; cbn [early_caught stream bitcalls errlog];
    (destruct (q =? 2); [reflexivity|]);
    unfold early_logged; destruct (q =? 1);
    cbn [log snd stream bitcalls errlog]; rewrite ?app_nil_r; reflexivity.
Qed.

(** More turns than needed change nothing. *)
Lemma early_iterate_loop_mono `{Collaborators} self q eh n m s :
  (n <= m)%nat ->
  snd (fst (Early.iterate_loop self q eh n s)) <> OutOfFuel ->
  Early.iterate_loop self q eh m s = Early.iterate_loop self q eh n s.
Proof.
  revert m s. induction n as [|n IH]; intros m s L N.
  { cbn in N. congruence. }
  destruct m as [|m]; [lia|]. rewrite !early_iterate_loop_step in *.
  destruct (Early.read self s) as [[[[raw|] p]|e|] s1]; try reflexivity.
  - specialize (IH m s1 ltac:(lia)).
    destruct (Early.iterate_loop self q eh n s1) as [[items r] s2].
    rewrite IH by exact N. reflexivity.
  - destruct e; try reflexivity; cbn [early_caught] in *;
      (destruct (q =? 2); [reflexivity|]); (apply IH; [lia | exact N]).
Qed.

(** X13: the earlier [iterate] and a byte that is not the preamble, read
    by a reader with [quitonerror] 2, whose [read] raises
    [SPARTNStreamError].  The [quitonerror] argument of [iterate] decides:
    with 2 the generator raises that error and yields nothing more; with
    1 the error is printed (or handed to the error handler given to
    [iterate]) and the generator goes on with the next byte; with another
    value it goes on and logs nothing. *)
Theorem early_iterate_handles_stream_error `{Collaborators}
    (self : Early.SPARTNReader) (q : Z) (eh : bool) (b : byte) (st : bytes)
    (bc : list bitcall) (el : list logged) :
  b <> x73 -> Early._quitonerror self = 2 ->
  Early.iterate self (Some q) eh (RState (b :: st) bc el) =
  if q =? 2
  then ([], Raise (SPARTNStreamError (UnknownProtocolDotText [b])),
        RState st bc el)
  else Early.iterate self (Some q) eh
         (RState st bc (el ++ early_logged q eh (UnknownProtocolDotText [b]))).
Proof.
  intros Hb Hq. unfold Early.iterate. cbn [stream List.length].
  rewrite early_iterate_loop_step, early_read_garbage by exact Hb.
  rewrite Hq. cbn [Z.eqb Pos.eqb early_caught stream bitcalls errlog str].
  reflexivity.
Qed.

Lemma early_iterate_handles_stream_error_witness :
  x00 <> x73 /\ Early._quitonerror (early_reader 2) = 2 /\
  @Early.iterate sample_collaborators (early_reader 2) (Some 1) false
    (RState [x00] [] []) =
  @Early.iterate sample_collaborators (early_reader 2) (Some 1) false
    (RState [] [] [Printed (UnknownProtocolDotText [x00])]).
Proof.
  assert (Hb : x00 <> x73) by discriminate.
  split; [exact Hb|]. split; [reflexivity|].
  exact (@early_iterate_handles_stream_error sample_collaborators
           (early_reader 2) 1 false x00 [] [] [] Hb eq_refl).
Defined.

(** X14: the earlier [iterate] and a whole frame that the message class
    rejects with the exception [e].  A [SPARTNMessageError],
    [SPARTNParseError] or [SPARTNStreamError] is raised by the generator
    when the [quitonerror] of [iterate] is 2, and otherwise logged (when
    it is 1) before the generator goes on with the bytes after the frame.
    A [SPARTNTypeError], like any other exception, is not handled: the
    generator raises it whatever [quitonerror] is.  An [EOFError] or a
    [StopIteration] ends the generator with the rest of the stream
    unread. *)
Theorem early_iterate_rejected_frame `{Collaborators}
    (self : Early.SPARTNReader) (q : Z) (eh : bool) (f : frame)
    (rest : bytes) (el : list logged) (e : exn) :
  well_formed Early.aln f ->
  new_message_payload (frame_bytes f) = inl e ->
  forall bc, exists bc',
    Early.iterate self (Some q) eh (RState (frame_bytes f ++ rest) bc el) =
    match e with
    | EOFError | StopIteration => ([], Ret tt, RState rest bc' el)
    | SPARTNMessageError _ | SPARTNParseError _ | SPARTNStreamError _ =>
        if q =? 2 then ([], Raise e, RState rest bc' el)
        else Early.iterate self (Some q) eh
               (RState rest bc' (el ++ early_logged q eh (str e)))
    | _ => ([], Raise e, RState rest bc' el)
    end.
Proof.
  intros W M bc.
  destruct (early_read_frame self f rest el W bc) as [bc' R].
  unfold early_frame_outcome in R. rewrite M in R.
  exists bc'. unfold Early.iterate. cbn [stream].
  rewrite frame_bytes_length, early_iterate_loop_step, R.
  destruct e; try reflexivity; cbn [early_caught stream bitcalls errlog];
    (destruct (q =? 2); [reflexivity|]);
    (apply early_iterate_loop_mono; [rewrite length_app; lia|]);
    apply early_iterate_loop_ends; cbn [stream]; lia.
Qed.

Lemma early_iterate_rejected_frame_witness :
  let C := rejecting_collaborators (SPARTNTypeError (OtherText "rejected")) in
  well_formed Early.aln plain_frame /\
  forall bc, exists bc',
    @Early.iterate C (early_reader 0) (Some 0) false
      (RState (frame_bytes plain_frame ++ frame_bytes plain_frame) bc []) =
    ([], Raise (SPARTNTypeError (OtherText "rejected")),
     RState (frame_bytes plain_frame) bc' []).
Proof.
  cbv zeta. split; [exact plain_frame_well_formed_early|].
  exact (@early_iterate_rejected_frame
           (rejecting_collaborators (SPARTNTypeError (OtherText "rejected")))
           (early_reader 0) 0 false plain_frame (frame_bytes plain_frame) []
           (SPARTNTypeError (OtherText "rejected"))
           plain_frame_well_formed_early eq_refl).
Defined.

(** X15: with the default [quitonerror] 1 of the reader and a message
    class that accepts every frame, the earlier [iterate] loses no byte:
    on any stream it raises nothing, logs nothing and reads the stream to
    its end, and the raw bytes of the items it yields -- whole frames, and
    single bytes that are not the preamble -- put end to end are the
    stream, up to a last frame that the end of the stream cuts off. *)
Theorem early_iterate_yields_every_byte `{Collaborators}
    (self : Early.SPARTNReader) (quitonerror : option Z) (errorhandler : bool)
    (st : bytes) (bc : list bitcall) (el : list logged) :
  Early._quitonerror self = 1 ->
  (forall raw, exists m, new_message_payload raw = inr m) ->
  exists items bc' tail,
    Early.iterate self quitonerror errorhandler (RState st bc el)
    = (items, Ret tt, RState [] bc' el) /\
    st = List.concat (map fst items) ++ tail /\
    truncated_frame Early.aln tail.
Proof.
  intros Hq Hm. unfold Early.iterate. cbn [stream].
  set (q := match quitonerror with Some q => q | None => _ end). clearbody q.
  generalize (Nat.lt_succ_diag_r (List.length st)).
  generalize (S (List.length st)) as fuel. intros fuel. revert st bc.
  induction fuel as [|fuel IH]; intros st bc L; [lia|].
  rewrite early_iterate_loop_step.
  destruct (Early.read self (RState st bc el)) as [r [st1 bc1 el1]] eqn:E.
  apply early_read_follows in E as [D El]. cbn [stream errlog] in D, El.
  subst el1.
  destruct D as [ | b st Hb Hq' | b st Hb Hq' | b st r st' Hb Hq2 Hq1 D
                | f p q' W E Q | f m rest V | f rest W M | f e rest W M Ne];
    try congruence.
  - exists [], bc1, []. split; [reflexivity|]. split; [reflexivity|].
    left. reflexivity.
  - destruct (IH st bc1 ltac:(cbn in L; lia)) as (items & bc' & tail & -> & -> & T).
    exists (([b], Some (Text (UnknownHeaderText [b]))) :: items), bc', tail.
    split; [reflexivity|]. split; [reflexivity | exact T].
  - exists [], bc1, (x73 :: p). split; [reflexivity|]. split; [reflexivity|].
    right. exists f, p, q'. auto.
  - destruct (IH rest bc1) as (items & bc' & tail & -> & -> & T).
    { rewrite length_app in L.
      change (frame_bytes f) with (x73 :: frame_body f) in L. cbn in L. lia. }
    exists ((frame_bytes f, Some (Record_ m)) :: items), bc', tail.
    split; [reflexivity|]. split; [|exact T].
    cbn [map List.concat fst]. rewrite <- app_assoc. reflexivity.
  - destruct (Hm (frame_bytes f)) as [m M']. congruence.
  - destruct (Hm (frame_bytes f)) as [m M']. congruence.
Qed.

Lemma early_iterate_yields_every_byte_witness :
  Early._quitonerror (Early.__init__ None) = 1 /\
  exists items bc' tail,
    @Early.iterate sample_collaborators (Early.__init__ None) None false
      (RState (x00 :: frame_bytes plain_frame ++ [x01; x73; x00]) [] [])
    = (items, Ret tt, RState [] bc' []) /\
    x00 :: frame_bytes plain_frame ++ [x01; x73; x00]
    = List.concat (map fst items) ++ tail /\
    truncated_frame Early.aln tail.
Proof.
  split; [reflexivity|].
  apply (@early_iterate_yields_every_byte sample_collaborators
           (Early.__init__ None) None false); [reflexivity|].
  intros raw. exists raw. reflexivity.
Defined.

(* ===================================================================== *)
(** ** Reading in pieces *)
(* ===================================================================== *)

Lemma firstn_add {A} (a b : nat) (l : list A) :
  firstn (a + b) l = firstn a l ++ firstn b (skipn a l).
Proof.
  revert l. induction a as [|a IH]; intros l; [reflexivity|].
  destruct l as [|x l]; [rewrite !firstn_nil; reflexivity|].
  cbn [Nat.add firstn skipn app]. rewrite IH. reflexivity.
Qed.

(** X16: [_read_bytes] called for [n] bytes and then for [m] bytes comes
    to [_read_bytes] called once for [n + m] bytes: the same bytes, the
    same stream left, and [EOFError] with the stream emptied in the same
    cases.  (So the payload descriptor read as 4 + 2 bytes by the later
    reader and as 6 bytes by the earlier one is the same.) *)
Theorem read_bytes_compose (n m : Z) (s : rstate) :
  0 <= n -> 0 <= m ->
  (a <- _read_bytes n ;; b <- _read_bytes m ;; ret (a ++ b)) s
  = _read_bytes (n + m) s.
Proof.
  intros Hn Hm. destruct s as [st bc el]. unfold bind at 1.
  rewrite !read_bytes_eq.
  destruct (Z.ltb_spec (len st) n) as [L|L].
  - destruct (Z.ltb_spec (len st) (n + m)); [reflexivity | lia].
  - unfold bind, ret. rewrite read_bytes_eq.
    assert (Ls : len (skipn (Z.to_nat n) st) = len st - n).
    { unfold len in *. rewrite length_skipn. lia. }
    rewrite Ls.
    destruct (Z.ltb_spec (len st - n) m), (Z.ltb_spec (len st) (n + m));
      try lia; [reflexivity|].
    rewrite Z2Nat.inj_add by assumption.
    rewrite firstn_add, skipn_skipn, (Nat.add_comm (Z.to_nat m)). reflexivity.
Qed.

Lemma read_bytes_compose_witness :
  (a <- _read_bytes 4 ;; b <- _read_bytes 2 ;; ret (a ++ b))
    (start (frame_body timetag_frame))
  = _read_bytes 6 (start (frame_body timetag_frame)).
Proof. apply (read_bytes_compose 4 2); lia. Defined.

(* ===================================================================== *)
(** ** Where the two readers agree *)
(* ===================================================================== *)

Lemma embAuth_len_agree f :
  embAuth_len Early.aln f = embAuth_len embAuth_table f <->
  (truthy (f_eaf f) && (f_authInd f >? 1) = false \/
   f_embAuthLen f = 0 \/ f_embAuthLen f = 3).
Proof.
  unfold embAuth_len.
  destruct (truthy (f_eaf f) && (f_authInd f >? 1)); [|tauto].
  pose proof (bits_bound (f_payDesc f) (Late.embAuthLen_pos (f_timeTagtype f)) 3
                ltac:(lia)) as B.
  change (2 ^ 3) with 8 in B. fold (f_embAuthLen f) in B.
  assert (C : f_embAuthLen f = 0 \/ f_embAuthLen f = 1 \/ f_embAuthLen f = 2 \/
              f_embAuthLen f = 3 \/ f_embAuthLen f = 4 \/ f_embAuthLen f = 5 \/
              f_embAuthLen f = 6 \/ f_embAuthLen f = 7) by lia.
  destruct C as [C|[C|[C|[C|[C|[C|[C|C]]]]]]]; rewrite C;
    unfold Early.aln; cbn [embAuth_table]; split;
    try (intros E; exfalso; lia); try (intros [E|[E|E]]; lia);
    try (intros _; reflexivity); auto.
Qed.

(** X17: the two readers lay a frame out alike exactly when it carries no
    embedded authentication data ([eaf] 0 or [authInd] at most 1) or its
    [embAuthLen] is 0 or 3, the two values for which [(embAuthLen + 1) * 8]
    is the length of the table.  On such a frame, valid for the later
    reader and accepted by the message class of the earlier one, both
    [read]s return the same raw bytes and leave the same stream. *)
Theorem readers_agree_on_frame `{Collaborators}
    (lself : Late.SPARTNReader) (eself : Early.SPARTNReader) (f : frame)
    (m1 m2 : SPARTNMessage) (rest : bytes) (el : list logged) :
  valid_late lself f m1 ->
  new_message_payload (frame_bytes f) = inr m2 ->
  let agree :=
    truthy (f_eaf f) && (f_authInd f >? 1) = false \/
    f_embAuthLen f = 0 \/ f_embAuthLen f = 3 in
  (well_formed Early.aln f <-> agree) /\
  (agree ->
   runs (Late.read lself) (frame_bytes f ++ rest) el
        (Ret (Some (frame_bytes f), Some (Record_ m1))) rest el /\
   runs (Early.read eself) (frame_bytes f ++ rest) el
        (Ret (Some (frame_bytes f), Some (Record_ m2))) rest el).
Proof.
  intros V M agree.
  assert (WE : well_formed Early.aln f <-> agree).
  { destruct (vl_wf V) as [Wfs Wpd Wpl Wea Wcrc]. subst agree.
    rewrite <- embAuth_len_agree. split.
    - intros [_ _ _ Wea' _]. congruence.
    - intros E. constructor; try assumption. congruence. }
  split; [exact WE|]. intros A. split.
  - apply late_read_frame_ok; [apply V | apply valid_late_outcome, V].
  - apply WE in A.
    pose proof (early_read_frame eself f rest el A) as R.
    unfold early_frame_outcome in R. rewrite M in R. exact R.
Qed.

Lemma readers_agree_on_frame_witness :
  @valid_late sample_collaborators (late_reader 1) timetag_frame
    (frame_bytes timetag_frame) /\
  (truthy (f_eaf timetag_frame) && (f_authInd timetag_frame >? 1) = false \/
   f_embAuthLen timetag_frame = 0 \/ f_embAuthLen timetag_frame = 3) /\
  well_formed Early.aln timetag_frame /\
  runs (@Late.read sample_collaborators (late_reader 1))
       (frame_bytes timetag_frame ++ [x00]) []
       (Ret (Some (frame_bytes timetag_frame),
             Some (@Record_ sample_collaborators (frame_bytes timetag_frame))))
       [x00] [] /\
  runs (@Early.read sample_collaborators (Early.__init__ None))
       (frame_bytes timetag_frame ++ [x00]) []
       (Ret (Some (frame_bytes timetag_frame),
             Some (@Record_ sample_collaborators (frame_bytes timetag_frame))))
       [x00] [].
Proof.
  assert (V : @valid_late sample_collaborators (late_reader 1) timetag_frame
                (frame_bytes timetag_frame)).
  { constructor; [constructor; reflexivity | intros _; reflexivity
                  | reflexivity]. }
  assert (A : truthy (f_eaf timetag_frame) && (f_authInd timetag_frame >? 1)
              = false \/
              f_embAuthLen timetag_frame = 0 \/ f_embAuthLen timetag_frame = 3)
    by (left; reflexivity).
  split; [exact V|]. split; [exact A|].
  destruct (@readers_agree_on_frame sample_collaborators (late_reader 1)
              (Early.__init__ None) timetag_frame (frame_bytes timetag_frame)
              (frame_bytes timetag_frame) [x00] [] V eq_refl) as [WE R].
  split; [apply WE, A | exact (R A)].
Defined.

(* ===================================================================== *)
(** ** A frame is cut out of a stream in one way only *)
(* ===================================================================== *)

Lemma app_inv_len {A} (a b c d : list A) :
  a ++ b = c ++ d -> len a = len c -> a = c /\ b = d.
Proof.
  intros E L. destruct (app_eq_split a b c d E ltac:(lia)) as (p & -> & E').
  rewrite len_app in L.
  assert (P : p = []).
  { destruct p as [|x p]; [reflexivity|].
    rewrite len_cons in L. pose proof (len_nonneg p). lia. }
  subst p. rewrite app_nil_r. auto.
Qed.

(** X18: the lengths a header announces leave one way only to cut a frame
    out of a stream.  Two frames laid out as the reader lays them out (by
    the table, or by the formula of the earlier reader) that start the
    same stream are the same frame -- the same frame start, payload
    descriptor, payload, embedded authentication data and CRC bytes -- and
    leave the same rest; so the raw bytes [read] returns determine the
    parts [_parse_spartn] took them for. *)
Theorem frame_layout_unambiguous (aln : Z -> Z) (f f' : frame)
    (rest rest' : bytes) :
  well_formed aln f -> well_formed aln f' ->
  frame_bytes f ++ rest = frame_bytes f' ++ rest' ->
  f = f' /\ rest = rest'.
Proof.
  intros [Wfs Wpd Wpl Wea Wcrc] [Wfs' Wpd' Wpl' Wea' Wcrc'] E.
  destruct f as [fs pd pl ea crcb], f' as [fs' pd' pl' ea' crcb'].
  unfold embAuth_len, f_nData, f_eaf, f_crcType, f_timeTagtype, f_authInd,
    f_embAuthLen, f_timeTagtype in *.
  cbn [f_framestart f_payDesc f_payload f_embAuth f_crcb] in *.
  unfold frame_bytes, frame_core, SPARTN_PREB in E.
  cbn [f_framestart f_payDesc f_payload f_embAuth f_crcb] in E.
  rewrite <- !app_assoc in E. cbn [app] in E. injection E as E.
  apply app_inv_len in E as [<- E]; [|congruence].
  pose proof (payDesc_len_bounds (bits fs 17 1) (bits pd 4 1)) as B.
  pose proof (payDesc_len_bounds (bits fs 17 1) (bits pd' 4 1)) as B'.
  assert (T : bits pd 4 1 = bits pd' 4 1).
  { rewrite <- (bits_app pd (pl ++ ea ++ crcb ++ rest) 4 1) by lia.
    rewrite E. apply bits_app; lia. }
  apply app_inv_len in E as [<- E]; [|rewrite Wpd, Wpd', T; reflexivity].
  apply app_inv_len in E as [<- E]; [|congruence].
  apply app_inv_len in E as [<- E]; [|congruence].
  apply app_inv_len in E as [<- E]; [|congruence].
  auto.
Qed.

Lemma frame_layout_unambiguous_witness :
  let f' := Frame [x00; x00; x80] [x00; x00; x00; x00] [xab] [] [xb4] in
  well_formed embAuth_table plain_frame /\
  well_formed embAuth_table f' /\
  frame_bytes plain_frame ++ [x73] = frame_bytes f' ++ [x73] /\
  plain_frame = f' /\ [x73] = [x73].
Proof.
  cbv zeta.
  assert (W' : well_formed embAuth_table
                 (Frame [x00; x00; x80] [x00; x00; x00; x00] [xab] [] [xb4]))
    by (constructor; reflexivity).
  split; [exact plain_frame_well_formed|]. split; [exact W'|].
  split; [reflexivity|].
  exact (frame_layout_unambiguous embAuth_table plain_frame _ [x73] [x73]
           plain_frame_well_formed W' eq_refl).
Defined.

(* ===================================================================== *)
(** ** The [validate] flag *)
(* ===================================================================== *)

Lemma truthy_land_VALCRC v : truthy (Z.land v VALCRC) = Z.odd v.
Proof.
  unfold truthy, VALCRC. change 1 with (Z.ones 1).
  rewrite Z.land_ones by lia. change (2 ^ 1) with 2. rewrite Zmod_odd.
  destruct (Z.odd v); reflexivity.
Qed.

(** X19: [validate] is a set of bit flags of which the later reader tests
    bit 0 ([validate & VALCRC]): the CRC is checked exactly when
    [validate] is odd.  On a whole frame whose CRC bytes are not the CRC
    of its core and that the message class accepts, [_parse_spartn] raises
    "Invalid CRC" for an odd [validate] and returns the frame for an even
    one (0, 2, -2, ...), and so does [read] in the second case. *)
Theorem late_crc_checked_iff_validate_odd `{Collaborators}
    (self : Late.SPARTNReader) (f : frame) (m : SPARTNMessage) (rest : bytes)
    (el : list logged) :
  well_formed embAuth_table f -> crc_mismatch f ->
  new_message_transport (frame_bytes f) (Late._decrypt self) (Late._key self)
    (Late._validate self) = inr m ->
  runs (Late._parse_spartn self SPARTN_PREB) (frame_body f ++ rest) el
       (if Z.odd (Late._validate self)
        then Raise (SPARTNParseError
                      (InvalidCRCText (int_from_bytes_big (f_crcb f))))
        else Ret (frame_bytes f, m)) rest el /\
  (Z.odd (Late._validate self) = false ->
   runs (Late.read self) (frame_bytes f ++ rest) el
        (Ret (Some (frame_bytes f), Some (Record_ m))) rest el).
Proof.
  intros W Mis M.
  assert (O : late_frame_outcome self f =
              if Z.odd (Late._validate self)
              then Raise (SPARTNParseError
                            (InvalidCRCText (int_from_bytes_big (f_crcb f))))
              else Ret (frame_bytes f, m)).
  { unfold late_frame_outcome. rewrite truthy_land_VALCRC, M.
    destruct (Z.odd (Late._validate self)); [|reflexivity].
    unfold valid_crc.
    destruct (Z.eqb_spec (int_from_bytes_big (f_crcb f))
                (crc_compute (f_crcType f) (frame_core f))) as [E|_];
      [contradiction | reflexivity]. }
  split.
  - rewrite <- O. apply late_parse_frame. exact W.
  - intros Odd. rewrite Odd in O.
    apply late_read_frame_ok; assumption.
Qed.

Lemma late_crc_checked_iff_validate_odd_witness :
  well_formed embAuth_table bad_crc_frame /\
  @crc_mismatch sample_collaborators bad_crc_frame /\
  runs (@Late.read sample_collaborators (late_reader_with 2 1 false))
       (frame_bytes bad_crc_frame ++ []) []
       (Ret (Some (frame_bytes bad_crc_frame),
             Some (@Record_ sample_collaborators (frame_bytes bad_crc_frame))))
       [] [].
Proof.
  assert (W : well_formed embAuth_table bad_crc_frame)
    by (constructor; reflexivity).
  assert (Mis : @crc_mismatch sample_collaborators bad_crc_frame)
    by (intros E; vm_compute in E; discriminate E).
  split; [exact W|]. split; [exact Mis|].
  exact (proj2 (@late_crc_checked_iff_validate_odd sample_collaborators
                  (late_reader_with 2 1 false) bad_crc_frame
                  (frame_bytes bad_crc_frame) [] [] W Mis eq_refl) eq_refl).
Defined.

(* ===================================================================== *)
(** ** Iterating over frames with other bytes between them *)
(* ===================================================================== *)

(** X20: iterating the later reader with [quitonerror] 2 over valid
    frames followed by a byte that is not the preamble yields the item of
    every frame before that byte and then raises [SPARTNParseError]
    "Unknown protocol <byte>"; the byte is consumed and the rest of the
    stream is left for a later call. *)
Theorem late_iterating_stops_at_error `{Collaborators}
    (self : Late.SPARTNReader) (fms : list (frame * SPARTNMessage))
    (b : byte) (rest : bytes) (el : list logged) :
  Late._quitonerror self = ERRRAISE ->
  Forall (fun fm => valid_late self (fst fm) (snd fm)) fms ->
  b <> x73 ->
  generates (Late.iterating self)
    (List.concat (map (fun fm => frame_bytes (fst fm)) fms) ++ b :: rest) el
    (map (fun fm => (Some (frame_bytes (fst fm)), Some (Record_ (snd fm)))) fms)
    (Raise (SPARTNParseError (UnknownProtocolText [b]))) rest el.
Proof.
  intros Hq V Hb.
  assert (G : forall fuel bc, (List.length fms < fuel)%nat ->
    exists bc',
      Late.for_loop self fuel
        (RState (List.concat (map (fun fm => frame_bytes (fst fm)) fms)
                   ++ b :: rest) bc el)
      = (map (fun fm => (Some (frame_bytes (fst fm)), Some (Record_ (snd fm))))
             fms,
         Raise (SPARTNParseError (UnknownProtocolText [b])),
         RState rest bc' el)).
  { induction V as [|[f m] fms Vf _ IH]; intros fuel bc L;
      (destruct fuel as [|fuel]; [cbn in L; lia|]);
      rewrite late_for_loop_step.
    - cbn [map List.concat app].
      rewrite late_read_garbage_raise by assumption. exists bc. reflexivity.
    - cbn [map List.concat fst snd List.length] in *. rewrite <- app_assoc.
      destruct (late_read_frame_ok self f
                  (List.concat (map (fun fm => frame_bytes (fst fm)) fms)
                     ++ b :: rest)
                  el (frame_bytes f) m (vl_wf Vf)
                  (valid_late_outcome _ _ _ Vf) bc) as [bc1 ->].
      destruct (IH fuel bc1 ltac:(lia)) as [bc2 ->].
      exists bc2. reflexivity. }
  intros bc. unfold Late.iterating. cbn [stream]. apply G.
  pose proof (frames_length fms). rewrite length_app. lia.
Qed.

Lemma late_iterating_stops_at_error_witness :
  Late._quitonerror (late_reader 2) = ERRRAISE /\
  x00 <> x73 /\
  generates (@Late.iterating sample_collaborators (late_reader 2))
    (List.concat (map (fun fm => frame_bytes (fst fm))
                    [(plain_frame, frame_bytes plain_frame)])
       ++ x00 :: frame_bytes plain_frame) []
    [(Some (frame_bytes plain_frame),
      Some (@Record_ sample_collaborators (frame_bytes plain_frame)))]
    (Raise (SPARTNParseError (UnknownProtocolText [x00])))
    (frame_bytes plain_frame) [].
Proof.
  assert (Hb : x00 <> x73) by discriminate.
  assert (V : @valid_late sample_collaborators (late_reader 2) plain_frame
                (frame_bytes plain_frame)).
  { constructor; [exact plain_frame_well_formed
                 | intros _; exact plain_frame_crc_ok | reflexivity]. }
  split; [reflexivity|]. split; [exact Hb|].
  apply (@late_iterating_stops_at_error sample_collaborators (late_reader 2)
           [(plain_frame, frame_bytes plain_frame)] x00
           (frame_bytes plain_frame) []);
    [reflexivity | constructor; [exact V | constructor] | exact Hb].
Defined.

(** What is passed over is passed over whole: [read] goes on at the
    first byte after it, having logged each error. *)
Lemma late_read_passes `{Collaborators} self gap st el :
  Late._quitonerror self <> ERRRAISE -> Forall (passed_ok self) gap ->
  forall bc, exists bc',
    Late.read self (RState (flat_map passed_bytes gap ++ st) bc el) =
    Late.read self
      (RState st bc'
         (el ++ flat_map (fun x => late_logged self (passed_text x)) gap)).
Proof.
  intros Hq G. revert el.
  induction G as [|[b|f e] gap Ok _ IH]; intros el bc.
  - exists bc. cbn. rewrite app_nil_r. reflexivity.
  - cbn [flat_map passed_bytes passed_text app].
    rewrite late_read_garbage by assumption.
    destruct (IH (el ++ late_logged self (UnknownProtocolText [b])) bc)
      as [bc' ->].
    exists bc'. rewrite app_assoc. reflexivity.
  - cbn [flat_map passed_bytes passed_text]. rewrite <- app_assoc.
    destruct Ok as (W & O & C).
    pose proof (late_read_frame_err self f (flat_map passed_bytes gap ++ st)
                  el e W O C) as R.
    destruct (Z.eqb_spec (Late._quitonerror self) ERRRAISE); [contradiction|].
    destruct (R bc) as [bc1 ->].
    destruct (IH (el ++ late_logged self (str e)) bc1) as [bc' ->].
    exists bc'. rewrite app_assoc. reflexivity.
Qed.

(** X21: errors do not put the later reader out of step.  Iterating with
    [quitonerror] 0 or 1 over valid frames with, before, between and after
    them, bytes that are not the preamble and whole frames that fail the
    CRC check or that the message class rejects with a
    [SPARTNParseError], [SPARTNMessageError] or [SPARTNTypeError], yields
    the item of every valid frame, in order, and nothing else; it raises
    nothing, reads the stream to its end and, with [quitonerror] 1, logs
    one text for each byte and each frame passed over, in the order of the
    stream. *)
Theorem late_iterating_resynchronises `{Collaborators}
    (self : Late.SPARTNReader)
    (chunks : list (list passed_over * frame * SPARTNMessage))
    (gap_end : list passed_over) (el : list logged) :
  Late._quitonerror self <> ERRRAISE ->
  Forall (fun c => Forall (passed_ok self) (fst (fst c)) /\
                   valid_late self (snd (fst c)) (snd c)) chunks ->
  Forall (passed_ok self) gap_end ->
  generates (Late.iterating self)
    (List.concat
       (map (fun c => flat_map passed_bytes (fst (fst c))
                        ++ frame_bytes (snd (fst c))) chunks)
       ++ flat_map passed_bytes gap_end) el
    (map (fun c => (Some (frame_bytes (snd (fst c))), Some (Record_ (snd c))))
         chunks)
    (Ret tt) []
    (el ++ flat_map (fun x => late_logged self (passed_text x))
             (List.concat (map (fun c => fst (fst c)) chunks) ++ gap_end)).
Proof.
  intros Hq V Ge.
  assert (G : forall fuel bc el, (List.length chunks < fuel)%nat ->
    exists bc',
      Late.for_loop self fuel
        (RState (List.concat
                   (map (fun c => flat_map passed_bytes (fst (fst c))
                                    ++ frame_bytes (snd (fst c))) chunks)
                   ++ flat_map passed_bytes gap_end) bc el)
      = (map (fun c => (Some (frame_bytes (snd (fst c))),
                        Some (Record_ (snd c)))) chunks,
         Ret tt,
         RState [] bc'
           (el ++ flat_map (fun x => late_logged self (passed_text x))
                    (List.concat (map (fun c => fst (fst c)) chunks)
                       ++ gap_end)))).
  { clear el. induction V as [|[[g f] m] chunks [Gg Vf] _ IH];
      intros fuel bc el L;
      (destruct fuel as [|fuel]; [cbn in L; lia|]);
      rewrite late_for_loop_step.
    - cbn [map List.concat app].
      destruct (late_read_passes self gap_end [] el Hq Ge bc) as [bc' R].
      rewrite app_nil_r in R. rewrite R.
      exists bc'. reflexivity.
    - cbn [map List.concat fst snd List.length] in *.
      rewrite <- !app_assoc.
      destruct (late_read_passes self g
                  (frame_bytes f
                     ++ List.concat
                          (map (fun c => flat_map passed_bytes (fst (fst c))
                                           ++ frame_bytes (snd (fst c)))
                             chunks) ++ flat_map passed_bytes gap_end)
                  el Hq Gg bc) as [bc0 ->].
      destruct (late_read_frame_ok self f
                  (List.concat
                     (map (fun c => flat_map passed_bytes (fst (fst c))
                                      ++ frame_bytes (snd (fst c))) chunks)
                     ++ flat_map passed_bytes gap_end)
                  (el ++ flat_map (fun x => late_logged self (passed_text x)) g)
                  (frame_bytes f) m (vl_wf Vf)
                  (valid_late_outcome _ _ _ Vf) bc0) as [bc1 ->].
      destruct (IH fuel bc1
                  (el ++ flat_map (fun x => late_logged self (passed_text x)) g)
                  ltac:(lia)) as [bc2 ->].
      exists bc2. rewrite !flat_map_app, !app_assoc. reflexivity. }
  intros bc. unfold Late.iterating. cbn [stream]. apply G.
  clear G. induction V as [|[[g f] m] chunks _ _ IH]; [cbn; lia|].
  cbn [map List.concat fst snd List.length].
  rewrite <- !app_assoc, !length_app. rewrite length_app in IH.
  change (frame_bytes f) with (x73 :: frame_body f). cbn [List.length]. lia.
Qed.

Lemma late_iterating_resynchronises_witness :
  let gap := [UnknownByte x00;
              RejectedFrame bad_crc_frame
                (SPARTNParseError (InvalidCRCText 75))] in
  Late._quitonerror (late_reader 1) <> ERRRAISE /\
  Forall (@passed_ok sample_collaborators (late_reader 1)) gap /\
  generates (@Late.iterating sample_collaborators (late_reader 1))
    (List.concat
       (map (fun c => flat_map passed_bytes (fst (fst c))
                        ++ frame_bytes (snd (fst c)))
          [(gap, plain_frame, frame_bytes plain_frame)])
       ++ flat_map passed_bytes [UnknownByte x01]) []
    [(Some (frame_bytes plain_frame),
      Some (@Record_ sample_collaborators (frame_bytes plain_frame)))]
    (Ret tt) []
    ([] ++ flat_map (fun x => late_logged (late_reader 1) (passed_text x))
             (List.concat
                (map (fun c => fst (fst c))
                   [(gap, plain_frame, frame_bytes plain_frame)])
                ++ [UnknownByte x01])).
Proof.
  cbv zeta.
  assert (Q : Late._quitonerror (late_reader 1) <> ERRRAISE)
    by (unfold ERRRAISE; cbn; lia).
  assert (G : Forall (@passed_ok sample_collaborators (late_reader 1))
                [UnknownByte x00;
                 RejectedFrame bad_crc_frame
                   (SPARTNParseError (InvalidCRCText 75))]).
  { constructor; [cbn; discriminate|]. constructor; [|constructor].
    split; [constructor; reflexivity|]. split; reflexivity. }
  split; [exact Q|]. split; [exact G|].
  apply (@late_iterating_resynchronises sample_collaborators (late_reader 1)
           [([UnknownByte x00;
              RejectedFrame bad_crc_frame
                (SPARTNParseError (InvalidCRCText 75))],
             plain_frame, frame_bytes plain_frame)]
           [UnknownByte x01] []);
    [exact Q
    | constructor;
      [split; [exact G | exact plain_frame_valid_late] | constructor]
    | constructor; [cbn; discriminate | constructor]].
Defined.

(* ===================================================================== *)
(** ** Every call ends *)
(* ===================================================================== *)

Lemma late_reads_suffix `{Collaborators} self st el r st' el' :
  late_reads self st el r st' el' -> exists consumed, st = consumed ++ st'.
Proof.
  induction 1 as [el | b st el Hb Hq | b st el r st' el' Hb Hq D IH
                 | f p q el W E Q | f m rest el V | f rest el W O
                 | f e rest el W O C Hq | f e rest el r st' el' W O C Hq D IH
                 | f e rest el W O C Ne];
    try (exists (frame_bytes f); reflexivity).
  - exists []. reflexivity.
  - exists [b]. reflexivity.
  - destruct IH as [c ->]. exists (b :: c). reflexivity.
  - exists (x73 :: p). rewrite app_nil_r. reflexivity.
  - destruct IH as [c ->]. exists (frame_bytes f ++ c).
    rewrite <- app_assoc. reflexivity.
Qed.

Lemma early_reads_suffix `{Collaborators} self st r st' :
  early_reads self st r st' -> exists consumed, st = consumed ++ st'.
Proof.
  induction 1 as [ | b st Hb Hq | b st Hb Hq | b st r st' Hb Hq2 Hq1 D IH
                 | f p q W E Q | f m rest V | f rest W M | f e rest W M Ne];
    try (exists (frame_bytes f); reflexivity);
    try (exists [b]; reflexivity).
  - exists []. reflexivity.
  - destruct IH as [c ->]. exists (b :: c). reflexivity.
  - exists (x73 :: p). rewrite app_nil_r. reflexivity.
Qed.

(** The later [read] returns both parts of its pair or neither. *)
Lemma late_reads_none_parsed `{Collaborators} self st el p st' el' :
  late_reads self st el (Ret (None, p)) st' el' -> p = None.
Proof.
  remember (Ret (None, p)) as r eqn:Er. intros D. revert Er.
  induction D; intros Er; try discriminate;
    try (injection Er as <-; reflexivity); auto.
Qed.

(** Every item of an iteration of the later reader takes nine bytes or
    more of the stream. *)
Lemma late_for_loop_bound `{Collaborators} self fuel s :
  9 * len (fst (fst (Late.for_loop self fuel s)))
  + len (stream (snd (Late.for_loop self fuel s))) <= len (stream s).
Proof.
  revert s. induction fuel as [|fuel IH]; intros s.
  { cbn. unfold len. lia. }
  rewrite late_for_loop_step.
  destruct (Late.read self s) as [r s1] eqn:E.
  pose proof (late_read_follows self s r s1 E) as D.
  destruct (late_reads_suffix _ _ _ _ _ _ D) as [c Ec].
  assert (L1 : len (stream s1) <= len (stream s)).
  { rewrite Ec, len_app. pose proof (len_nonneg c). lia. }
  destruct r as [[[raw|] p]|e|].
  - apply late_reads_some in D as (sk & f & m & St & R & P & V).
    pose proof (well_formed_length embAuth_table f table_bounds (vl_wf V))
      as [_ B].
    specialize (IH s1).
    destruct (Late.for_loop self fuel s1) as [[items r'] s2].
    cbn [fst snd] in *. rewrite len_cons.
    rewrite St, !len_app, R. pose proof (len_nonneg sk). lia.
  - apply late_reads_none_parsed in D. subst p. cbn [fst snd].
    unfold len in *. cbn [List.length]. lia.
  - destruct e; cbn [fst snd]; unfold len in *; cbn [List.length]; lia.
  - cbn [fst snd]. unfold len in *. cbn [List.length]. lia.
Qed.

(** X22: every call ends on every stream.  The loop of [read] takes a
    byte or more at each turn, so as many turns as the stream has bytes
    and one more are enough for it, in both readers; [read] takes its
    bytes from the front of the stream and leaves the rest as it was; the
    iterations of both readers end as well, and the later one yields at
    most one item for every nine bytes of the stream. *)
Theorem read_always_ends `{Collaborators}
    (lself : Late.SPARTNReader) (eself : Early.SPARTNReader)
    (quitonerror : option Z) (errorhandler : bool) (s : rstate) :
  fst (Late.read lself s) <> OutOfFuel /\
  (exists consumed, stream s = consumed ++ stream (snd (Late.read lself s))) /\
  fst (Early.read eself s) <> OutOfFuel /\
  (exists consumed, stream s = consumed ++ stream (snd (Early.read eself s))) /\
  snd (fst (Late.iterating lself s)) <> OutOfFuel /\
  9 * len (fst (fst (Late.iterating lself s))) <= len (stream s) /\
  snd (fst (Early.iterate eself quitonerror errorhandler s)) <> OutOfFuel.
Proof.
  split; [apply late_read_ends|]. split.
  { destruct (Late.read lself s) as [r s1] eqn:E.
    apply late_read_follows in E. eapply late_reads_suffix. exact E. }
  split; [apply early_read_ends|]. split.
  { destruct (Early.read eself s) as [r s1] eqn:E.
    apply early_read_follows in E as [D _]. eapply early_reads_suffix. exact D. }
  split; [apply late_iterating_ends|]. split; [|apply early_iterate_ends].
  pose proof (late_for_loop_bound lself (S (List.length (stream s))) s) as B.
  fold (Late.iterating lself s) in B.
  pose proof (len_nonneg (stream (snd (Late.iterating lself s)))). lia.
Qed.

(* ===================================================================== *)
(** ** The constructor of the later reader *)
(* ===================================================================== *)

(** X23: the constructor of the later reader reads nothing from the
    stream, and it raises [ParameterError] exactly when [decrypt] is true
    and the key it settles on is [None].  That key is the [key] argument
    when one is passed -- so [key=None] passed explicitly raises even with
    [MQTTKEY] in the environment -- and [MQTTKEY] otherwise.  A reader that
    was constructed with [decrypt] true has a key; its [validate] and
    [quitonerror] are the arguments, or 1 ([VALCRC]) and 1 ([ERRLOG]). *)
Theorem late_init_settles_key (kw : Late.kwargs) (MQTTKEY : option string)
    (s : rstate) :
  let decrypt := Late.get (Late.kw_decrypt kw) false in
  let key := match Late.kw_key kw with
             | Some k => k
             | None => MQTTKEY
             end in
  snd (Late.__init__ kw MQTTKEY s) = s /\
  (fst (Late.__init__ kw MQTTKEY s) = Raise (ParameterError KeyRequiredText)
   <-> decrypt = true /\ key = None) /\
  (fst (Late.__init__ kw MQTTKEY s) <> Raise (ParameterError KeyRequiredText)
   -> exists self,
        fst (Late.__init__ kw MQTTKEY s) = Ret self /\
        Late._key self = key /\ Late._decrypt self = decrypt /\
        Late._validate self = Late.get (Late.kw_validate kw) VALCRC /\
        Late._quitonerror self = Late.get (Late.kw_quitonerror kw) ERRLOG /\
        Late._errorhandler self = Late.kw_errorhandler kw /\
        (Late._decrypt self = true -> Late._key self <> None)).
Proof.
  cbv zeta. unfold Late.__init__, Late.get.
  destruct (Late.kw_decrypt kw) as [[|]|], (Late.kw_key kw) as [[k|]|],
    MQTTKEY as [k'|]; cbn [andb raise ret fst snd];
    (split; [reflexivity|]);
    (split; [split; [intros E; try discriminate E; auto
                    | intros [D K]; try discriminate D; try discriminate K;
                      reflexivity]|]);
    intros N; try (exfalso; apply N; reflexivity);
    eexists; (split; [reflexivity|]);
    cbn [Late._key Late._decrypt Late._validate Late._quitonerror
         Late._errorhandler];
    repeat (split; [reflexivity|]); intros D; discriminate.
Qed.
